(** * Trajectories: advection solver, interpolation, labelling and lineage matching

    A shallow embedding of the numerical core of
    [advtraj/compute_trajectories.py] together with the properties that its
    specification states about it.

    Conventions.  numpy [float64] arrays are embedded over exact numbers:
    rationals ([Q]) wherever the code only adds, multiplies, divides and
    compares, so that every definition evaluates; reals ([R]) for [phase],
    which goes through [arctan2].  Integer arrays and Python integers are [Z].
    A one-dimensional array is a [list]; a position array of shape [(n,3)] is a
    list of rows.  Python and numpy exceptions are results of type [res]. *)

From Stdlib Require Import ZArith QArith Qround List Bool Lia Lra Lqa Reals.
Import ListNotations.

Set Implicit Arguments.

(* ================================================================== *)
(** * Part I: the embedding                                            *)
(* ================================================================== *)

(** ** Phase decoding ([phase], lines 1479-1499) *)

Section PhaseDef.
Local Open Scope R_scope.

(** [numpy.arctan2 y x]: the angle of the point [(x, y)], in [(-PI, PI]]. *)
Definition arctan2 (y x : R) : R :=
  if Rlt_dec 0 x then atan (y / x)
  else if Rlt_dec x 0 then
         if Rle_dec 0 y then atan (y / x) + PI else atan (y / x) - PI
  else if Rlt_dec 0 y then PI / 2
  else if Rlt_dec y 0 then - (PI / 2)
  else 0.

(** One element of [phase]:
    [vpos = arctan2(vi, vr) / (2.0 * pi) * n; vpos[vpos < 0] += n]. *)
Definition phase_elem (vr vi : R) (n : Z) : R :=
  let vpos := arctan2 vi vr / (2 * PI) * IZR n in
  if Rlt_dec vpos 0 then vpos + IZR n else vpos.

(** [phase] on arrays is element by element. *)
Definition phase (vr vi : list R) (n : Z) : list R :=
  map (fun ri => phase_elem (fst ri) (snd ri) n) (combine vr vi).

(** The unit vector whose angle encodes the position [p] on an axis of
    length [n] (the encoding the simulation writes to its output). *)
Definition encode_re (p : R) (n : Z) : R := cos (2 * PI * p / IZR n).
Definition encode_im (p : R) (n : Z) : R := sin (2 * PI * p / IZR n).

(** [p mod n] for a real [p]: [p] minus the largest multiple of [n] below it. *)
Definition Rmod (p : R) (n : Z) : R := p - IZR (Int_part (p / IZR n)) * IZR n.

End PhaseDef.

(** ** Python results and array indexing *)

Inductive exn : Type :=
| IndexError          (* an index outside the array *)
| ValueError          (* [np.max]/[np.min] of an empty array *)
| UnboundLocalError   (* a local variable read before any assignment *)
| NotANumber.         (* a float division by zero: the value is nan or inf *)

Inductive res (A : Type) : Type :=
| Ok (a : A)
| Raise (e : exn).
Arguments Raise {A} e.

Definition bind {A B : Type} (m : res A) (k : A -> res B) : res B :=
  match m with
  | Ok a => k a
  | Raise e => Raise e
  end.

Declare Scope res_scope.
Delimit Scope res_scope with res.
Notation "'do' x <- m ; k" := (bind m (fun x => k))
  (at level 10, x name, m at level 100, k at level 200) : res_scope.
Local Open Scope res_scope.

Fixpoint mapM {A B : Type} (f : A -> res B) (l : list A) : res (list B) :=
  match l with
  | [] => Ok []
  | a :: r => do b <- f a; do bs <- mapM f r; Ok (b :: bs)
  end.

(** [l[i]] with Python's rule for negative indices. *)
Definition py_nth {A : Type} (l : list A) (i : Z) : res A :=
  let n := Z.of_nat (length l) in
  let j := if (i <? 0)%Z then (i + n)%Z else i in
  if ((0 <=? j) && (j <? n))%Z%bool
  then match nth_error l (Z.to_nat j) with
       | Some a => Ok a
       | None => Raise IndexError
       end
  else Raise IndexError.

(** A row of a position array of shape [(n,3)]: the x, y and z of one point. *)
Definition vec3 : Type := (Q * Q * Q)%type.
Definition vx (p : vec3) : Q := fst (fst p).
Definition vy (p : vec3) : Q := snd (fst p).
Definition vz (p : vec3) : Q := snd p.

(** ** Tri-linear interpolation ([whichbox], [tri_lin_interp], lines 1288-1357) *)

Section InterpDef.
Local Open Scope Q_scope.

(** A field on the grid: [f[ix][iy][iz]]. *)
Definition field : Type := list (list (list Q)).

Definition get3 (f : field) (ix iy iz : Z) : res Q :=
  do plane <- py_nth f ix; do col <- py_nth plane iy; py_nth col iz.

(** [np.arange(n, dtype='float')]. *)
Definition arange (n : nat) : list Q :=
  map (fun k => inject_Z (Z.of_nat k)) (seq 0 n).

(** [np.searchsorted(xvec, x, side='left')] on an ordered [xvec]: the first
    index whose element is not below [x]. *)
Fixpoint searchsorted_left (xvec : list Q) (x : Q) : Z :=
  match xvec with
  | [] => 0%Z
  | v :: r => if Qlt_le_dec v x then (1 + searchsorted_left r x)%Z else 0%Z
  end.

Definition whichbox (xvec : list Q) (x : Q) : Z :=
  let n := Z.of_nat (length xvec) in
  let ix := (searchsorted_left xvec x - 1)%Z in
  let ix := if (ix >? n - 1)%Z then (n - 1)%Z else ix in
  if (ix <? 0)%Z then 0%Z else ix.

(** Float division: a zero divisor gives nan or inf. *)
Definition fdiv (a b : Q) : res Q :=
  if Qeq_bool b 0 then Raise NotANumber else Ok (a / b).

(** The eight corners, in the order of the three nested loops. *)
Definition corners : list (Z * Z * Z) :=
  [(0,0,0); (0,0,1); (0,1,0); (0,1,1); (1,0,0); (1,0,1); (1,1,0); (1,1,1)]%Z.

Definition weight (w : Q * Q) (i : Z) : Q :=
  if (i =? 0)%Z then fst w else snd w.

(** The three nested loops over the corners of the box, for one field:
    [output = output + data[(ix+i)%nx, (iy+j)%ny, iz+k] * w]. *)
Definition accumulate (f : field) (nx ny : Z) (ix iy iz : Z)
           (wx wy wz : Q * Q) : res Q :=
  fold_left
    (fun (acc : res Q) (c : Z * Z * Z) =>
       let '(i, j, k) := c in
       do out <- acc;
       let w := weight wx i * weight wy j * weight wz k in
       do d <- get3 f ((ix + i) mod nx) ((iy + j) mod ny) (iz + k);
       Ok (out + d * w))
    corners (Ok 0).

(** [tri_lin_interp] for one field and one position. *)
Definition tri_lin_interp1 (xcoord ycoord zcoord : list Q)
           (f : field) (p : vec3) : res Q :=
  let nx := Z.of_nat (length xcoord) in
  let ny := Z.of_nat (length ycoord) in
  let nz := Z.of_nat (length zcoord) in
  let ix := whichbox xcoord (vx p) in
  let iy := whichbox ycoord (vy p) in
  let iz := whichbox zcoord (vz p) in
  let iz := if (iz >? nz - 2)%Z then (iz - 1)%Z else iz in
  do x0 <- py_nth xcoord ix;
  do y0 <- py_nth ycoord iy;
  do z0 <- py_nth zcoord iz;
  do z1 <- py_nth zcoord (iz + 1);
  let xp := (vx p - x0) / 1 in
  let yp := (vy p - y0) / 1 in
  do zp <- fdiv (vz p - z0) (z1 - z0);
  let wx := (1 - xp, xp) in
  let wy := (1 - yp, yp) in
  let wz := (1 - zp, zp) in
  accumulate f nx ny ix iy iz wx wy wz.

(** [tri_lin_interp]: one output array per field, one value per position. *)
Definition tri_lin_interp (data : list field) (pos : list vec3)
           (xcoord ycoord zcoord : list Q) : res (list (list Q)) :=
  mapM (fun f => mapM (tri_lin_interp1 xcoord ycoord zcoord f) pos) data.

(** A field of shape [(nx, ny, nz)]. *)
Definition has_shape (f : field) (nx ny nz : nat) : Prop :=
  length f = nx /\
  Forall (fun plane => length plane = ny /\
                       Forall (fun col => length col = nz) plane) f.

(** A small field of shape [(2, 2, 3)]. *)
Definition field_2x2x3 : field :=
  [[[1; 2; 3]; [4; 5; 6]]; [[7; 8; 9]; [10; 11; 12]]].

End InterpDef.

(** ** Forward advection step ([forward_trajectory_step], lines 1049-1274) *)

Section AdvectionDef.
Local Open Scope Q_scope.

(** A position array of shape [(n,3)], one row per particle. *)
Definition positions : Type := list vec3.

Definition Qltb (a b : Q) : bool := if Qlt_le_dec a b then true else false.
Definition Qgeb (a b : Q) : bool := negb (Qltb a b).
Definition Qgtb (a b : Q) : bool := Qltb b a.
Definition Qleb (a b : Q) : bool := negb (Qltb b a).

Definition vadd (a b : vec3) : vec3 := (vx a + vx b, vy a + vy b, vz a + vz b).
Definition vsub (a b : vec3) : vec3 := (vx a - vx b, vy a - vy b, vz a - vz b).
Definition vscale (c : Q) (a : vec3) : vec3 := (c * vx a, c * vy a, c * vz a).
Definition vsq (a : vec3) : vec3 := (vx a * vx a, vy a * vy a, vz a * vz a).

(** Arithmetic of two position arrays of one shape, row by row. *)
Definition arr_sub (a b : positions) : positions :=
  map (fun ab => vsub (fst ab) (snd ab)) (combine a b).
Definition arr_scale (c : Q) (a : positions) : positions := map (vscale c) a.

(** [traj_pos_next_est = 2*trajectory[0]-trajectory[1]] (line 1082). *)
Definition traj_pos_next_est_init (trajectory : list positions) : res positions :=
  do t0 <- py_nth trajectory 0;
  do t1 <- py_nth trajectory 1;
  Ok (arr_sub (arr_scale 2 t0) t1).

(** The extrapolation the specification describes, [2*p[t] - p[t-1]], from
    the latest and the second-latest recorded positions. *)
Definition extrapolate_latest (trajectory : list positions) : res positions :=
  do t_last <- py_nth trajectory (-1);
  do t_prev <- py_nth trajectory (-2);
  Ok (arr_sub (arr_scale 2 t_last) t_prev).

(** Lines 1130-1137 on one coordinate of [diff]:
    [d[d < -n/2] += n; d[d >= n/2] -= n], one statement after the other. *)
Definition unwrap (n : Z) (d : Q) : Q :=
  let d := if Qltb d (- inject_Z n / 2) then d + inject_Z n else d in
  if Qgeb d (inject_Z n / 2) then d - inject_Z n else d.

Definition unwrap_diff (nx ny : Z) (d : vec3) : vec3 :=
  (unwrap nx (vx d), unwrap ny (vy d), vz d).

(** Lines 1139-1141: [mag_diff = 0; for i in range(3): mag_diff += diff[i,:]**2].
    [diff[i,:]] is row [i] of the [(n,3)] array, so the sum runs over the
    first three rows and has one entry per coordinate. *)
Definition mag_diff (diff : positions) : res vec3 :=
  do r0 <- py_nth diff 0;
  do r1 <- py_nth diff 1;
  do r2 <- py_nth diff 2;
  Ok (vadd (vadd (vadd (0, 0, 0) (vsq r0)) (vsq r1)) (vsq r2)).

Definition qmax (a b : Q) : Q := if Qltb a b then b else a.

(** [np.max] of a three-entry array. *)
Definition max3 (m : vec3) : Q := qmax (qmax (vx m) (vy m)) (vz m).

(** The squared distance of one particle, as the specification defines the
    convergence error. *)
Definition sq_dist (d : vec3) : Q := vx d * vx d + vy d * vy d + vz d * vz d.

(** Lines 1261-1266 on one particle. *)
Definition clip_periodic (n : Z) (x : Q) : Q :=
  let x := if Qltb x 0 then x + inject_Z n else x in
  if Qgeb x (inject_Z n) then x - inject_Z n else x.

Definition clip_bounded (nz : Z) (z : Q) : Q :=
  let z := if Qltb z 0 then 0 else z in
  if Qgeb z (inject_Z nz) then inject_Z nz else z.

Definition clip (nx ny nz : Z) (p : vec3) : vec3 :=
  (clip_periodic nx (vx p), clip_periodic ny (vy p), clip_bounded nz (vz p)).

(** [a[kk,:] = v]. *)
Fixpoint set_row (a : positions) (kk : nat) (v : vec3) : positions :=
  match a, kk with
  | [], _ => []
  | _ :: r, O => v :: r
  | p :: r, S k => p :: set_row r k v
  end.

Definition max_iter : Z := 30.
Definition errtol_iter : Q := 1 # 10000.
Definition errtol : Q := 5 # 1000.
Definition relax_param : Q := 1 # 2.

(** What a forward step appends to [trajectory] and to [traj_error], and the
    value of [niter] when the loop is left. *)
Record step_result : Type := {
  new_pos : positions;
  new_err : positions;
  iterations : Z
}.

Variables nx ny nz : Z.

(** [extract_pos(nx, ny, data_to_pos(data_list, est, ...))]: the position
    field of the new time step sampled at the estimate. *)
Variable sample : positions -> positions.

(** Lines 1177-1255 for particle [kk]: the new estimate found by the local
    search around the current one (nearest grid point in an 11x11x11
    neighbourhood, then [scipy.optimize.minimize]). *)
Variable rescue : positions -> positions -> nat -> vec3.

(** [k = np.where(bigerr)[0]] for [bigerr = (mag_diff > errtol)]. *)
Definition bigerr_indices (m : vec3) : list nat :=
  (if Qgtb (vx m) errtol then [0%nat] else []) ++
  (if Qgtb (vy m) errtol then [1%nat] else []) ++
  (if Qgtb (vz m) errtol then [2%nat] else []).

(** Lines 1168-1257: the rescue pass. *)
Definition correction (traj_pos est diff : positions) (m : vec3) (err : Q)
  : positions :=
  if Qgtb err errtol then
    let k := bigerr_indices m in
    if (0 <? Z.of_nat (length diff) * Z.of_nat (length k))%Z
    then fold_left (fun e kk => set_row e kk (rescue e traj_pos kk)) k est
    else est
  else est.

(** The [while not_converged] loop.  [None] means the fuel ran out. *)
Fixpoint solve (fuel : nat) (traj_pos est : positions) (niter : Z)
         (correction_cycle : bool) : res (option step_result) :=
  match fuel with
  | O => Ok None
  | S fuel' =>
      let traj_pos_at_est := sample est in
      let diff := map (unwrap_diff nx ny) (arr_sub traj_pos_at_est traj_pos) in
      do m <- mag_diff diff;
      let err := max3 m in
      if correction_cycle then
        Ok (Some {| new_pos := est; new_err := diff; iterations := niter |})
      else
        let not_converged := negb (Qleb err errtol_iter) in
        let '(est', niter', cycle') :=
          if (niter <=? max_iter)%Z
          then (arr_sub est (arr_scale relax_param diff), (niter + 1)%Z, false)
          else (correction traj_pos est diff m err, niter, true) in
        let est'' := map (clip nx ny nz) est' in
        if not_converged
        then solve fuel' traj_pos est'' niter' cycle'
        else Ok (Some {| new_pos := est''; new_err := diff;
                         iterations := niter' |})
  end.

(** The loop runs at most [max_iter + 3] times. *)
Definition solve_fuel : nat := 33.

Definition forward_trajectory_step (trajectory : list positions)
  : res (option step_result) :=
  do traj_pos <- py_nth trajectory (-1);
  do est <- traj_pos_next_est_init trajectory;
  solve solve_fuel traj_pos est 0 false.

(** The convergence test of the specification: every particle's squared
    distance is below the tolerance. *)
Definition all_converged (diff : positions) : bool :=
  forallb (fun d => Qltb (sq_dist d) errtol_iter) diff.

(** Iterations the loop still needs, at most. *)
Definition needed (niter : Z) (cycle : bool) : nat :=
  if cycle then 1%nat
  else if (niter <=? max_iter)%Z then Z.to_nat (max_iter + 3 - niter) else 2%nat.

End AdvectionDef.

(** ** The estimate before the last re-clipping *)

Section AdvectionRawDef.
Local Open Scope Q_scope.

Variables nx ny nz : Z.
Variable sample : positions -> positions.
Variable rescue : positions -> positions -> nat -> vec3.

(** The loop of [solve] once more, pass for pass, returning beside its
    result the array [traj_pos_next_est] as it stood when lines 1261-1266
    were last reached, before they changed it.  [raw] is that array for the
    pass before: the pass that leaves by [break] (line 1155) does not reach
    these lines, so it hands [raw] on. *)
Fixpoint solve_raw (fuel : nat) (traj_pos est raw : positions) (niter : Z)
         (correction_cycle : bool) : res (option (positions * step_result)) :=
  match fuel with
  | O => Ok None
  | S fuel' =>
      let traj_pos_at_est := sample est in
      let diff := map (unwrap_diff nx ny) (arr_sub traj_pos_at_est traj_pos) in
      do m <- mag_diff diff;
      let err := max3 m in
      if correction_cycle then
        Ok (Some (raw,
                  {| new_pos := est; new_err := diff; iterations := niter |}))
      else
        let not_converged := negb (Qleb err errtol_iter) in
        let '(est', niter', cycle') :=
          if (niter <=? max_iter)%Z
          then (arr_sub est (arr_scale relax_param diff), (niter + 1)%Z, false)
          else (correction rescue traj_pos est diff m err, niter, true) in
        let est'' := map (clip nx ny nz) est' in
        if not_converged
        then solve_raw fuel' traj_pos est'' est' niter' cycle'
        else Ok (Some (est',
                       {| new_pos := est''; new_err := diff;
                          iterations := niter' |}))
  end.

(** [forward_trajectory_step] with the loop replaced by [solve_raw].  The
    loop starts with [correction_cycle = False], so its first pass reaches
    lines 1261-1266 or raises, and the seed given for [raw] is never
    returned. *)
Definition forward_step_raw (trajectory : list positions)
  : res (option (positions * step_result)) :=
  do traj_pos <- py_nth trajectory (-1);
  do est <- traj_pos_next_est_init trajectory;
  solve_raw solve_fuel traj_pos est est 0 false.

(** What lines 1261-1266 make of one row [q] of the estimate: z ends in
    [[0, nz]], and x (y) ends in [[0, nx)] ([[0, ny)]) exactly when it was
    within one period of it. *)
Definition reclipped_row (q : vec3) : Prop :=
  let p := clip nx ny nz q in
  (0 <= vz p /\ vz p <= inject_Z nz) /\
  (0 <= vx p /\ vx p < inject_Z nx <->
   - inject_Z nx <= vx q /\ vx q < 2 * inject_Z nx) /\
  (0 <= vy p /\ vy p < inject_Z ny <->
   - inject_Z ny <= vy q /\ vy q < 2 * inject_Z ny).

End AdvectionRawDef.

(** Example inputs on an 8 x 8 x 8 grid. *)
Section AdvectionExamples.
Local Open Scope Q_scope.

(** A position field that maps every point to itself (nothing moves). *)
Definition static_sample : positions -> positions := fun est => est.

(** A position field displaced uniformly along x. *)
Definition drift_sample : positions -> positions :=
  map (fun p => (vx p + (8002 # 1000), vy p, vz p)).

(** A rescue pass that keeps the estimate. *)
Definition keep_rescue : positions -> positions -> nat -> vec3 :=
  fun est _ kk => nth kk est (0, 0, 0).

(** Four particles; the fourth moved two cells along x in the last step. *)
Definition traj_four : list positions :=
  [ [(1, 1, 1); (2, 2, 2); (3, 3, 3); (6, 4, 4)];
    [(1, 1, 1); (2, 2, 2); (3, 3, 3); (6, 4, 4)];
    [(1, 1, 1); (2, 2, 2); (3, 3, 3); (4, 4, 4)] ].

(** Two particles only. *)
Definition traj_two : list positions :=
  [ [(1, 1, 1); (2, 2, 2)]; [(1, 1, 1); (2, 2, 2)] ].

(** Three particles moving one cell along x per step. *)
Definition traj_steady : list positions :=
  [ [(1, 1, 1); (1, 2, 2); (1, 3, 3)];
    [(2, 1, 1); (2, 2, 2); (2, 3, 3)];
    [(3, 1, 1); (3, 2, 2); (3, 3, 3)] ].

(** Three particles at rest half a cell below the top of the grid. *)
Definition traj_top : list positions :=
  [ [(1, 1, 15 # 2); (2, 2, 15 # 2); (3, 3, 15 # 2)];
    [(1, 1, 15 # 2); (2, 2, 15 # 2); (3, 3, 15 # 2)] ].

(** Three particles next to the x seam. *)
Definition traj_seam : list positions :=
  [ [(5 # 10000, 1, 1); (5 # 10000, 2, 2); (5 # 10000, 3, 3)];
    [(7999 # 1000, 1, 1); (7999 # 1000, 2, 2); (7999 # 1000, 3, 3)] ].

End AdvectionExamples.

(** ** Bounding-box overlap ([box_overlap_with_wrap], lines 1800-1844) *)

Section BoxDef.
Local Open Scope Q_scope.

(** A box [b] of shape [(2,3)]: [b[0,:]] the minima, [b[1,:]] the maxima. *)
Definition box : Type := (vec3 * vec3)%type.
Definition bmin (b : box) : vec3 := fst b.
Definition bmax (b : box) : vec3 := snd b.

(** The four tests [t1 .. t4] on one axis, for the interval [[t0, t1]] of
    [b_test] and the interval [[s0, s1]] of a box of [b_set]. *)
Definition interval_tests (t0 t1 s0 s1 : Q) : bool :=
  let c1 := Qgeb t0 s0 && Qleb t0 s1 in
  let c2 := Qgeb t1 s0 && Qleb t1 s1 in
  let c3 := Qleb t0 s0 && Qgeb t1 s1 in
  let c4 := Qgeb t0 s0 && Qleb t1 s1 in
  (c1 || c2) || (c3 || c4).

(** [np.where(mask)[0]]. *)
Fixpoint where_from (i : nat) (mask : list bool) : list nat :=
  match mask with
  | [] => []
  | b :: r => if b then i :: where_from (S i) r else where_from (S i) r
  end.
Definition np_where (mask : list bool) : list nat := where_from 0 mask.

Definition zero_box : box := ((0, 0, 0), (0, 0, 0)).

(** [nx] and [ny] are arguments of the function and are not used by it. *)
Definition box_overlap_with_wrap (b_test : box) (b_set : list box)
           (nx ny : Z) : list nat :=
  let x_overlap :=
    map (fun s => interval_tests (vx (bmin b_test)) (vx (bmax b_test))
                                 (vx (bmin s)) (vx (bmax s))) b_set in
  let x_ind := np_where x_overlap in
  let y_overlap :=
    map (fun i => let s := nth i b_set zero_box in
                  interval_tests (vy (bmin b_test)) (vy (bmax b_test))
                                 (vy (bmin s)) (vy (bmax s))) x_ind in
  let y_ind := np_where y_overlap in
  map (fun j => nth j x_ind 0%nat) y_ind.

(** Two closed intervals overlap. *)
Definition plain_overlap (t0 t1 s0 s1 : Q) : Prop := t0 <= s1 /\ s0 <= t1.

(** Two closed intervals overlap on a periodic axis of length [n]: some
    periodic image of the second meets the first. *)
Definition periodic_overlap (n : Z) (t0 t1 s0 s1 : Q) : Prop :=
  exists k : Z,
    plain_overlap t0 t1 (s0 + inject_Z (k * n)) (s1 + inject_Z (k * n)).

Definition well_formed (b : box) : Prop :=
  vx (bmin b) <= vx (bmax b) /\ vy (bmin b) <= vy (bmax b).

(** On an 8 x 8 grid: an object gathered across the x seam onto its upper
    side, and an object next to x = 0. *)
Definition box_seam : box := ((7, 1, 0), (9, 3, 2)).
Definition box_low : box := ((0, 1, 0), (2, 3, 2)).

End BoxDef.

(** ** Object overlap ([Trajectory_Family.refine_object_overlap], lines 486-543) *)

Section FamilyDef.
Local Open Scope Q_scope.

(** The attributes of a [Trajectories] object that the lineage code reads. *)
Record Trajectories : Type := {
  t_trajectory : list positions;               (* [time][particle] *)
  t_labels : list Z;                           (* [particle] *)
  t_nobjects : Z;
  t_ref : Z;
  t_nx : Z;
  t_ny : Z;
  t_num_in_obj : list (list Z);                (* [time][object] *)
  t_in_obj_box : list (list box);              (* [time][object] *)
  (* [in_obj_func(traj, tr_time, obj_ptrs)]: the mask over the object's points *)
  t_in_obj_func : Z -> list bool -> list bool
}.

(** [a[mask]] for a boolean mask; numpy refuses a mask of another length. *)
Fixpoint select {A : Type} (mask : list bool) (a : list A) : res (list A) :=
  match mask, a with
  | [], [] => Ok []
  | b :: m, x :: r =>
      do s <- select m r; Ok (if b then x :: s else s)
  | _, _ => Raise IndexError
  end.

(** [astype(int)] of a float: truncation towards zero. *)
Definition astype_int (q : Q) : Z := Z.quot (Qnum q) (Zpos (Qden q)).

(** [(p + 0.5).astype(int)] on one row. *)
Definition round_half (p : vec3) : Z * Z * Z :=
  (astype_int (vx p + (1 # 2)), astype_int (vy p + (1 # 2)),
   astype_int (vz p + (1 # 2))).

(** [x + nx * (y + ny * z)]. *)
Definition cell_id (nx ny : Z) (c : Z * Z * Z) : Z :=
  let '(x, y, z) := c in (x + nx * (y + ny * z))%Z.

(** [np.unique]: the sorted distinct values. *)
Fixpoint insert_unique (x : Z) (l : list Z) : list Z :=
  match l with
  | [] => [x]
  | y :: r => if (x <? y)%Z then x :: l
              else if (x =? y)%Z then l
              else y :: insert_unique x r
  end.
Definition unique (l : list Z) : list Z := fold_right insert_unique [] l.

(** Strictly increasing lists. *)
Inductive increasing : list Z -> Prop :=
| inc_nil : increasing []
| inc_cons x l : Forall (fun y => (x < y)%Z) l -> increasing l ->
                 increasing (x :: l).

(** [np.intersect1d]: the sorted distinct common values. *)
Definition intersect1d (a b : list Z) : list Z :=
  filter (fun x => existsb (Z.eqb x) b) (unique a).

(** The rounded grid cells of the in-object points of object [obj] of
    [fam[master_ref]], [time] steps before its reference time. *)
Definition obj_cells (fam : list Trajectories) (master_ref time obj : Z)
  : res (Z * Z * list (Z * Z * Z)) :=
  do traj <- py_nth fam master_ref;
  let tr_time := (t_ref traj - time)%Z in
  let obj_ptrs := map (fun l => (l =? obj)%Z) (t_labels traj) in
  let mask := t_in_obj_func traj tr_time obj_ptrs in
  do pos <- py_nth (t_trajectory traj) tr_time;
  do tr <- select obj_ptrs pos;
  do tr <- select mask (map round_half tr);
  Ok (t_nx traj, t_ny traj, tr).

Definition extract_obj_as1Dint (fam : list Trajectories)
           (master_ref time obj : Z) : res (list Z) :=
  do c <- obj_cells fam master_ref time obj;
  let '(nx, ny, tr) := c in
  Ok (unique (map (cell_id nx ny) tr)).

(** Lines 538-543. *)
Definition overlap_of (tr1D trm1D : list Z) : Q :=
  let max_size := Z.max (Z.of_nat (length tr1D)) (Z.of_nat (length trm1D)) in
  if (max_size >? 0)%Z
  then inject_Z (Z.of_nat (length (intersect1d tr1D trm1D))) / inject_Z max_size
  else 0.

Definition refine_object_overlap (fam : list Trajectories)
           (t_off time obj mobj master_ref : Z) : res Q :=
  do tr1D <- extract_obj_as1Dint fam master_ref time obj;
  do trm1D <- extract_obj_as1Dint fam (master_ref - (t_off + 1))
                                  (time - (t_off + 1)) mobj;
  Ok (overlap_of tr1D trm1D).

(** Line 285 of [matching_object_list_summary]: [inter > overlap_thresh]. *)
Definition true_match (inter overlap_thresh : Q) : bool :=
  Qgtb inter overlap_thresh.

Definition default_overlap_thresh : Q := 2 # 100.

(** Intersection over union of two sets of cell ids, as the specification
    words the overlap. *)
Definition intersection_over_union (a b : list Z) : Q :=
  let union := unique (a ++ b) in
  if (Z.of_nat (length union) >? 0)%Z
  then inject_Z (Z.of_nat (length (intersect1d a b)))
       / inject_Z (Z.of_nat (length union))
  else 0.

End FamilyDef.

(** ** Candidate matching ([Trajectory_Family.matching_object_list], lines 104-188) *)

Section MatchingDef.
Local Open Scope Z_scope.

(** The local variable [corr_box] lives across all three loops; [None] is
    the variable before its first assignment. *)
Definition local : Type := option (list nat).

(** Computations that read and assign [corr_box] and may raise. *)
Definition M (A : Type) : Type := local -> res (A * local).

Definition ret {A : Type} (a : A) : M A := fun s => Ok (a, s).

Definition bindM {A B : Type} (m : M A) (k : A -> M B) : M B :=
  fun s => match m s with
           | Ok (a, s') => k a s'
           | Raise e => Raise e
           end.

Definition lift {A : Type} (r : res A) : M A :=
  fun s => match r with
           | Ok a => Ok (a, s)
           | Raise e => Raise e
           end.

Definition assign_corr_box (c : list nat) : M unit :=
  fun _ => Ok (tt, Some c).

Definition read_corr_box : M (list nat) :=
  fun s => match s with
           | Some c => Ok (c, s)
           | None => Raise UnboundLocalError
           end.

Declare Scope state_scope.
Delimit Scope state_scope with state.
Notation "x <~ m ;; k" := (bindM m (fun x => k))
  (at level 61, m at next level, right associativity) : state_scope.
Notation "m ;; k" := (bindM m (fun _ => k))
  (at level 61, right associativity) : state_scope.
Local Open Scope state_scope.

(** A [for] loop that appends one value per turn. *)
Fixpoint forM {A B : Type} (l : list A) (body : A -> M B) : M (list B) :=
  match l with
  | [] => ret []
  | a :: r => b <~ body a ;; bs <~ forM r body ;; ret (b :: bs)
  end.

(** [range(0, n)]. *)
Definition zrange (n : Z) : list Z := map Z.of_nat (seq 0 (Z.to_nat n)).

(** The body of the loop over [select] (lines 169-184). *)
Definition match_one (traj match_traj : Trajectories)
           (ref_time match_time iobj : Z) : M (list nat) :=
  row <~ lift (py_nth (t_num_in_obj traj) ref_time) ;;
  n <~ lift (py_nth row iobj) ;;
  (if n >? 0 then
     boxes <~ lift (py_nth (t_in_obj_box traj) ref_time) ;;
     b_test <~ lift (py_nth boxes iobj) ;;
     if (match_time >=? 0) &&
        (match_time <? Z.of_nat (length (t_in_obj_box match_traj)))
     then
       b_set <~ lift (py_nth (t_in_obj_box match_traj) match_time) ;;
       let corr_box :=
         box_overlap_with_wrap b_test b_set (t_nx traj) (t_ny traj) in
       mrow <~ lift (py_nth (t_num_in_obj match_traj) match_time) ;;
       nums <~ lift (mapM (fun c => py_nth mrow (Z.of_nat c)) corr_box) ;;
       let valid := map (fun m => m >? 0) nums in
       corr_box <~ lift (select valid corr_box) ;;
       assign_corr_box corr_box
     else ret tt
   else ret tt) ;;
  read_corr_box.

Definition matching_object_list (fam : list Trajectories)
           (master_ref : option Z) (sel : option (list Z))
  : res (list (list (list (list nat)))) :=
  let master_ref :=
    match master_ref with
    | Some m => m
    | None => Z.of_nat (length fam) - 1
    end in
  do traj <- py_nth fam master_ref;
  let sel :=
    match sel with
    | Some s => s
    | None => zrange (t_nobjects traj)
    end in
  let loops :=
    forM (zrange master_ref) (fun t_off =>
      match_traj <~ lift (py_nth fam (master_ref - (t_off + 1))) ;;
      forM (zrange (t_ref traj + 1)) (fun it_back =>
        let ref_time := t_ref traj - it_back in
        let match_time := t_ref match_traj + (t_off + 1) - it_back in
        forM sel (match_one traj match_traj ref_time match_time))) in
  do r <- loops None;
  Ok (fst r).

End MatchingDef.

(** ** Example families *)

Section FamilyExamples.
Local Open Scope Q_scope.

Definition all_in_obj : Z -> list bool -> list bool :=
  fun _ obj_ptrs => map (fun _ => true) (filter (fun b => b) obj_ptrs).

(** [n] particles of one object in a row along x, starting at [x0]. *)
Definition row_of_points (x0 : Z) (n : nat) : positions :=
  map (fun k => (inject_Z (x0 + Z.of_nat k), 0, 0)) (seq 0 n).

(** A trajectory set with one object of [n] particles, at [x0 ..] at both of
    its two times; the reference time is the first. *)
Definition one_object (x0 : Z) (n : nat) : Trajectories :=
  {| t_trajectory := [row_of_points x0 n; row_of_points x0 n];
     t_labels := map (fun _ => 0%Z) (seq 0 n);
     t_nobjects := 1;
     t_ref := 0;
     t_nx := 64;
     t_ny := 8;
     t_num_in_obj := [[Z.of_nat n]; [Z.of_nat n]];
     t_in_obj_box :=
       [[((inject_Z x0, 0, 0), (inject_Z (x0 + Z.of_nat n - 1), 0, 0))];
        [((inject_Z x0, 0, 0), (inject_Z (x0 + Z.of_nat n - 1), 0, 0))]];
     t_in_obj_func := all_in_obj |}.

(** Two reference times; the objects occupy cells 25..50 and 0..25. *)
Definition family_one_common_cell : list Trajectories :=
  [one_object 25 26; one_object 0 26].

(** An earlier set: one object of four particles at x = 2..5 at each of
    three times; the reference time is the second. *)
Definition earlier_set : Trajectories :=
  {| t_trajectory := [row_of_points 2 4; row_of_points 2 4; row_of_points 2 4];
     t_labels := [0; 0; 0; 0]%Z;
     t_nobjects := 1;
     t_ref := 1;
     t_nx := 64;
     t_ny := 8;
     t_num_in_obj := [[4]; [4]; [4]]%Z;
     t_in_obj_box := [[((2, 0, 0), (5, 0, 0))]; [((2, 0, 0), (5, 0, 0))];
                      [((2, 0, 0), (5, 0, 0))]];
     t_in_obj_func := all_in_obj |}.

(** A later set with two times, the reference time the second.  Object 0
    has its four particles inside the object predicate at the reference
    time and none one step earlier; object 1 has none at either time. *)
Definition later_set : Trajectories :=
  {| t_trajectory := [row_of_points 0 4 ++ row_of_points 40 2;
                      row_of_points 0 4 ++ row_of_points 40 2];
     t_labels := [0; 0; 0; 0; 1; 1]%Z;
     t_nobjects := 2;
     t_ref := 1;
     t_nx := 64;
     t_ny := 8;
     t_num_in_obj := [[0; 0]; [4; 0]]%Z;
     t_in_obj_box := [[zero_box; zero_box];
                      [((0, 0, 0), (3, 0, 0)); zero_box]];
     t_in_obj_func := all_in_obj |}.

Definition family_with_empty_object : list Trajectories :=
  [earlier_set; later_set].

End FamilyExamples.

(** ** Declustering ([unsplit_object], [unsplit_objects], lines 1603-1704) *)

Section UnsplitDef.
Local Open Scope Q_scope.

Definition qmin (a b : Q) : Q := if Qltb b a then b else a.

(** [np.max] and [np.min] of a float array; an empty one raises. *)
Definition np_max (l : list Q) : res Q :=
  match l with
  | [] => Raise ValueError
  | a :: r => Ok (fold_left qmax r a)
  end.

Definition np_min (l : list Q) : res Q :=
  match l with
  | [] => Raise ValueError
  | a :: r => Ok (fold_left qmin r a)
  end.

(** [np.max(a) - np.min(a)]. *)
Definition spread (l : list Q) : res Q :=
  do hi <- np_max l; do lo <- np_min l; Ok (hi - lo).

(** [a[mask] = f(a[mask])] row by row, for a mask of the length of [a]. *)
Fixpoint update_where (mask : list bool) (f : vec3 -> vec3) (a : positions)
  : res positions :=
  match mask, a with
  | [], [] => Ok []
  | b :: m, p :: r =>
      do r' <- update_where m f r; Ok ((if b then f p else p) :: r')
  | _, _ => Raise IndexError
  end.

(** [a[mask] = v]: the rows of [v] go, in order, where the mask holds. *)
Fixpoint scatter (mask : list bool) (v a : positions) : res positions :=
  match mask, a with
  | [], [] => Ok []
  | true :: m, _ :: r =>
      match v with
      | [] => Raise ValueError
      | q :: v' => do r' <- scatter m v' r; Ok (q :: r')
      end
  | false :: m, p :: r => do r' <- scatter m v r; Ok (p :: r')
  | _, _ => Raise IndexError
  end.

Definition shift_x (d : Q) (p : vec3) : vec3 := (vx p + d, vy p, vz p).
Definition shift_y (d : Q) (p : vec3) : vec3 := (vx p, vy p + d, vz p).

(** [np.max] of an integer array. *)
Definition np_max_nat (l : list nat) : res nat :=
  match l with
  | [] => Raise ValueError
  | a :: r => Ok (fold_left Nat.max r a)
  end.

(** [KMeans(n_clusters).fit(pos)]: the cluster index of every point
    ([labels_]) and the cluster centres ([cluster_centers_]). *)
Variable kmeans : nat -> positions -> list nat * positions.

(** The body of the loop over clusters (lines 1648-1662). *)
Definition regroup (nx ny : Z) (km_labels : list nat) (centres : positions)
           (main : nat) (pos : positions) (i : nat) : res positions :=
  do ci <- py_nth centres (Z.of_nat i);
  do cm <- py_nth centres (Z.of_nat main);
  let dist := vsub ci cm in
  let mask := map (fun l => (l =? i)%nat) km_labels in
  do pos <- (if Qltb (vx dist) (- inject_Z nx / 2)
             then update_where mask (shift_x (inject_Z nx)) pos else Ok pos);
  do pos <- (if Qgtb (vx dist) (inject_Z nx / 2)
             then update_where mask (shift_x (- inject_Z nx)) pos else Ok pos);
  do pos <- (if Qltb (vy dist) (- inject_Z ny / 2)
             then update_where mask (shift_y (inject_Z ny)) pos else Ok pos);
  if Qgtb (vy dist) (inject_Z ny / 2)
  then update_where mask (shift_y (- inject_Z ny)) pos else Ok pos.

Definition unsplit_object (pos : positions) (nx ny : Z) : res positions :=
  let n_clust := Nat.min 4 (length pos) in
  let '(km_labels, centres) := kmeans n_clust pos in
  let counts :=
    map (fun i => length (filter (fun l => (l =? i)%nat) km_labels))
        (seq 0 n_clust) in
  do most <- np_max_nat counts;
  let main_cluster := np_where (map (fun c => (c =? most)%nat) counts) in
  do main <- py_nth main_cluster 0;
  fold_left (fun acc i => do pos <- acc; regroup nx ny km_labels centres main pos i)
            (seq 0 n_clust) (Ok pos).

(** The body of the two loops (lines 1696-1701) on the positions [slice] of
    one time. *)
Definition unsplit_slice (labels : list Z) (nx ny : Z) (iobj : Z)
           (slice : positions) : res positions :=
  let mask := map (fun l => (l =? iobj)%Z) labels in
  do tr <- select mask slice;
  do sx <- spread (map vx tr);
  do sy <- spread (map vy tr);
  if Qgtb sx (inject_Z nx / 2) || Qgtb sy (inject_Z ny / 2)
  then do moved <- unsplit_object tr nx ny; scatter mask moved slice
  else Ok slice.

(** The time loop only touches the positions of its own time, so every
    object is a pass over the times. *)
Definition unsplit_objects (trajectory : list positions) (labels : list Z)
           (nobjects : Z) (nx ny : Z) : res (list positions) :=
  fold_left (fun acc iobj =>
               do tr <- acc; mapM (unsplit_slice labels nx ny iobj) tr)
            (zrange nobjects) (Ok trajectory).

(** Object [iobj] is in one piece at one time: it has points, and their
    spread is at most half the domain along x and along y. *)
Definition unified (labels : list Z) (nx ny : Z) (iobj : Z)
           (slice : positions) : Prop :=
  exists tr sx sy,
    select (map (fun l => (l =? iobj)%Z) labels) slice = Ok tr /\
    spread (map vx tr) = Ok sx /\ spread (map vy tr) = Ok sy /\
    sx <= inject_Z nx / 2 /\ sy <= inject_Z ny / 2.

End UnsplitDef.

(** A clustering that puts every point in cluster 0, centred on the first. *)
Definition one_cluster : nat -> positions -> list nat * positions :=
  fun _ pos => (map (fun _ => 0%nat) pos, firstn 1 pos).

(** Two objects on an 8 x 8 grid at two times, each within three cells. *)
Definition traj_unified : list positions :=
  [ [(0, 0, 0); (1, 1, 0); (5, 5, 1); (7, 6, 1)];
    [(1, 0, 0); (2, 1, 0); (4, 5, 1); (6, 6, 1)] ]%Q.
Definition labels_unified : list Z := [0; 0; 1; 1]%Z.

(** An object cut by the x seam on an 8 x 8 grid. *)
Definition traj_split : list positions :=
  [ [(0, 1, 0); (1, 1, 0); (7, 1, 0)] ]%Q.

(** ** Cyclic labelling ([label_3D_cyclic], lines 1501-1601) *)

Section LabelDef.
Local Open Scope Z_scope.

(** An integer array of shape [(nx, ny, nz)] is its buffer in C order: cell
    [(x, y, z)] is at offset [z + nz * (y + ny * x)]. *)
Definition unravel (ny nz : Z) (o : Z) : Z * Z * Z :=
  (o / (ny * nz), (o / nz) mod ny, o mod nz).

(** [np.where(labs == i)]: the cells that carry label [i], in C order. *)
Definition where_label (ny nz : Z) (labs : list Z) (i : Z) : list (Z * Z * Z) :=
  map (fun o => unravel ny nz (Z.of_nat o))
      (np_where (map (fun l => l =? i) labs)).

(** [pos[axis]] for one cell. *)
Definition coord (axis : nat) (c : Z * Z * Z) : Z :=
  match axis with
  | O => fst (fst c)
  | S O => snd (fst c)
  | _ => snd c
  end.

Definition np_min_Z (l : list Z) : res Z :=
  match l with
  | [] => Raise ValueError
  | a :: r => Ok (fold_left Z.min r a)
  end.

Definition np_max_Z (l : list Z) : res Z :=
  match l with
  | [] => Raise ValueError
  | a :: r => Ok (fold_left Z.max r a)
  end.

(** [range(a, b)]. *)
Definition zrange_from (a b : Z) : list Z :=
  map (fun k => a + Z.of_nat k) (seq 0 (Z.to_nat (b - a))).

(** [relabel(labs, nobjs, i, j)] (lines 1525-1537). *)
Definition relabel (labs : list Z) (nobjs i j : Z) : list Z * Z :=
  let labs := map (fun l => if l =? j then i else l) labs in
  let labs :=
    fold_left (fun lb k => map (fun l => if l =? k then k - 1 else l) lb)
              (zrange_from (j + 1) nobjs) labs in
  (labs, nobjs - 1).

(** [np.size(np.intersect1d(a, b))] as a truth value. *)
Definition common (a b : list Z) : bool :=
  match intersect1d a b with
  | [] => false
  | _ :: _ => true
  end.

(** Does the object whose cells are [pos] reach the border of [axis]:
    [np.min(pos[axis]) == 0] or [np.max(pos[axis]) == n - 1]. *)
Definition at_border (low : bool) (axis : nat) (n : Z)
           (pos : list (Z * Z * Z)) : res bool :=
  if low
  then do m <- np_min_Z (map (coord axis) pos); Ok (m =? 0)
  else do m <- np_max_Z (map (coord axis) pos); Ok (m =? n - 1).

(** [pos[c][np.where(pos[axis] == border)]]. *)
Definition on_border (axis c : nat) (border : Z) (pos : list (Z * Z * Z))
  : list Z :=
  map (coord c) (filter (fun p => coord axis p =? border) pos).

(** The inner [while j < (nobjs-1)] loop (lines 1556-1592).  [posi] is
    computed before the loop and not again.  [None]: the fuel ran out. *)
Fixpoint match_at_edge (fuel : nat) (minflag : bool) (axis : nat)
         (n ny nz : Z) (posi : list (Z * Z * Z)) (i j : Z)
         (labs : list Z) (nobjs : Z) : res (option (list Z * Z)) :=
  if j <? nobjs - 1 then
    match fuel with
    | O => Ok None
    | S fuel' =>
        let posj := where_label ny nz labs j in
        do test2 <- at_border (negb minflag) axis n posj;
        let '(labs', nobjs') :=
          if test2 then
            let bi := if minflag then 0 else n - 1 in
            let bj := if minflag then n - 1 else 0 in
            if common (on_border axis (1 - axis) bi posi)
                      (on_border axis (1 - axis) bj posj)
            then if common (on_border axis 2 bi posi)
                           (on_border axis 2 bj posj)
                 then relabel labs nobjs i j
                 else (labs, nobjs)
            else (labs, nobjs)
          else (labs, nobjs) in
        match_at_edge fuel' minflag axis n ny nz posi i (j + 1) labs' nobjs'
    end
  else Ok (Some (labs, nobjs)).

(** The outer [while i < (nobjs-2)] loop (lines 1542-1593). *)
Fixpoint edge_loop (fuel : nat) (minflag : bool) (axis : nat)
         (n ny nz : Z) (i : Z) (labs : list Z) (nobjs : Z)
  : res (option (list Z * Z)) :=
  if i <? nobjs - 2 then
    match fuel with
    | O => Ok None
    | S fuel' =>
        let posi := where_label ny nz labs i in
        do test1 <- at_border minflag axis n posi;
        do r <- (if test1
                 then match_at_edge (Z.to_nat nobjs) minflag axis n ny nz
                                    posi i (i + 1) labs nobjs
                 else Ok (Some (labs, nobjs)));
        match r with
        | None => Ok None
        | Some (labs', nobjs') =>
            edge_loop fuel' minflag axis n ny nz (i + 1) labs' nobjs'
        end
    end
  else Ok (Some (labs, nobjs)).

Definition find_objects_at_edge (minflag : bool) (x_or_y : nat)
           (n ny nz : Z) (labs : list Z) (nobjs : Z)
  : res (option (list Z * Z)) :=
  edge_loop (Z.to_nat nobjs) minflag x_or_y n ny nz 0 labs nobjs.

(** One more pass on the result of the last. *)
Definition and_then (r : res (option (list Z * Z)))
           (k : list Z -> Z -> res (option (list Z * Z)))
  : res (option (list Z * Z)) :=
  do o <- r;
  match o with
  | None => Ok None
  | Some (labs, nobjs) => k labs nobjs
  end.

(** [scipy.ndimage.label(mask)]: labels 1..K on the connected parts of the
    mask and 0 elsewhere, and K. *)
Variable ndimage_label : Z * Z * Z -> list bool -> list Z * Z.

Definition label_3D_cyclic (shape : Z * Z * Z) (mask : list bool)
  : res (option (list Z * Z)) :=
  let '(nx, ny, nz) := shape in
  let '(labels, nobjects) := ndimage_label shape mask in
  let labels := map (fun l => l - 1) labels in
  and_then
    (and_then
       (and_then (find_objects_at_edge true 0 nx ny nz labels nobjects)
                 (find_objects_at_edge false 0 nx ny nz))
       (find_objects_at_edge true 1 ny ny nz))
    (find_objects_at_edge false 1 ny ny nz).

(** What [ndimage.label] promises: only 0 and the labels 1..K, each of the
    latter on at least one cell. *)
Definition labelled (labels : list Z) (K : Z) : Prop :=
  Forall (fun l => 0 <= l <= K) labels /\
  forall l, 1 <= l <= K -> In l labels.

(** Only -1 and the labels 0..nobjs-1, each of the latter on some cell. *)
Definition contiguous (labs : list Z) (nobjs : Z) : Prop :=
  Forall (fun l => l = -1 \/ 0 <= l < nobjs) labs /\
  forall l, 0 <= l < nobjs -> In l labs.

End LabelDef.

(** A 4 x 3 x 1 mask with three parts, the first two facing each other
    across the x seam; and the labels [ndimage.label] gives it. *)
Definition mask_4x3 : list bool :=
  [true; false; false;  false; false; false;
   false; false; false;  true; false; true].
Definition label_4x3 : Z * Z * Z -> list bool -> list Z * Z :=
  fun _ _ => ([1; 0; 0;  0; 0; 0;  0; 0; 0;  2; 0; 3]%Z, 3%Z).

(** ** Interpolation between nodes *)

Section InterpMoreDef.
Local Open Scope Q_scope.

(** The weighted sum over the eight corners of a box, [d i j k] being the
    value at corner [(i, j, k)] and [xp], [yp], [zp] the position inside the
    box. *)
Definition trilinear (d : Z -> Z -> Z -> Q) (xp yp zp : Q) : Q :=
  d 0%Z 0%Z 0%Z * ((1 - xp) * (1 - yp) * (1 - zp)) +
  d 0%Z 0%Z 1%Z * ((1 - xp) * (1 - yp) * zp) +
  d 0%Z 1%Z 0%Z * ((1 - xp) * yp * (1 - zp)) +
  d 0%Z 1%Z 1%Z * ((1 - xp) * yp * zp) +
  d 1%Z 0%Z 0%Z * (xp * (1 - yp) * (1 - zp)) +
  d 1%Z 0%Z 1%Z * (xp * (1 - yp) * zp) +
  d 1%Z 1%Z 0%Z * (xp * yp * (1 - zp)) +
  d 1%Z 1%Z 1%Z * (xp * yp * zp).

(** The index of the vertical box after the adjustment of line 1336. *)
Definition zbox (nz : nat) (z : Q) : Z :=
  let iz := whichbox (arange nz) z in
  if (iz >? Z.of_nat nz - 2)%Z then (iz - 1)%Z else iz.

(** Every value stored in the field is [c]. *)
Definition constant_field (f : field) (c : Q) : Prop :=
  Forall (Forall (Forall (fun v => v == c))) f.

End InterpMoreDef.

(** ** Assembling a trajectory ([trajectory_init], [back_trajectory_step],
    [compute_trajectories], lines 760-1047) *)

Section SequencerDef.
Local Open Scope Q_scope.

(** The three lists the steps extend together.  ([data_val], which they
    extend in the same way with the other interpolated variables, is left
    out.) *)
Record traj_state : Type := {
  s_trajectory : list positions;
  s_traj_error : list positions;
  s_traj_times : list Q
}.

(** [np.zeros_like]. *)
Definition zeros_like (a : positions) : positions := map (fun _ => (0, 0, 0)) a.

(** [trajectory_init]: [sample] is the position field of the reference time
    sampled at given positions. *)
Definition trajectory_init (sample : positions -> positions) (time : Q)
           (traj_pos : positions) : traj_state :=
  let traj_pos_new := sample traj_pos in
  {| s_trajectory := traj_pos_new :: [traj_pos];
     s_traj_error := zeros_like traj_pos_new :: [zeros_like traj_pos];
     s_traj_times := [time] |}.

(** [back_trajectory_step]: [list.insert(0, ...)] on each list. *)
Definition back_trajectory_step (sample : positions -> positions) (time : Q)
           (st : traj_state) : res traj_state :=
  do traj_pos <- py_nth (s_trajectory st) 0;
  let traj_pos_new := sample traj_pos in
  Ok {| s_trajectory := traj_pos_new :: s_trajectory st;
        s_traj_error := zeros_like traj_pos_new :: s_traj_error st;
        s_traj_times := time :: s_traj_times st |}.

(** The [append]s that end [forward_trajectory_step] (lines 1268-1271). *)
Definition forward_step_state (nx ny nz : Z)
           (sample : positions -> positions)
           (rescue : positions -> positions -> nat -> vec3) (time : Q)
           (st : traj_state) : res (option traj_state) :=
  do r <- forward_trajectory_step nx ny nz sample rescue (s_trajectory st);
  match r with
  | None => Ok None
  | Some r =>
      Ok (Some {| s_trajectory := s_trajectory st ++ [new_pos r];
                  s_traj_error := s_traj_error st ++ [new_err r];
                  s_traj_times := s_traj_times st ++ [time] |})
  end.

(** The data of one time level: its position field, its rescue search and
    its time. *)
Definition level : Type :=
  ((positions -> positions) * (positions -> positions -> nat -> vec3) * Q)%type.

(** The backward loop of [compute_trajectories] over the time levels it
    visits, latest first; [ref_index] counts the steps. *)
Fixpoint back_steps (levels : list level) (st : traj_state) (ref_index : Z)
  : res (traj_state * Z) :=
  match levels with
  | [] => Ok (st, ref_index)
  | (sample, _, time) :: rest =>
      do st' <- back_trajectory_step sample time st;
      back_steps rest st' (ref_index + 1)%Z
  end.

(** The forward loop over the time levels it visits, earliest first. *)
Fixpoint forward_steps (nx ny nz : Z) (levels : list level) (st : traj_state)
  : res (option traj_state) :=
  match levels with
  | [] => Ok (Some st)
  | (sample, rescue, time) :: rest =>
      do o <- forward_step_state nx ny nz sample rescue time st;
      match o with
      | None => Ok None
      | Some st' => forward_steps nx ny nz rest st'
      end
  end.

(** [a[1:]]. *)
Definition drop_first {A : Type} (l : list A) : list A := tl l.

(** [compute_trajectories] from the reference level on: the initial state,
    the backward loop, the forward loop, and the arrays it returns,
    [trajectory[1:]], [traj_error[1:]], [traj_times] and [ref_index]. *)
Definition assemble_trajectories (nx ny nz : Z) (ref_level : level)
           (traj_pos : positions) (back forward : list level)
  : res (option (list positions * list positions * list Q * Z)) :=
  let '(sample, _, time) := ref_level in
  let st := trajectory_init sample time traj_pos in
  do b <- back_steps back st 0;
  let '(st, ref_index) := b in
  do o <- forward_steps nx ny nz forward st;
  match o with
  | None => Ok None
  | Some st =>
      Ok (Some (drop_first (s_trajectory st), drop_first (s_traj_error st),
                s_traj_times st, ref_index))
  end.

(** An array of zeros. *)
Definition all_zero (a : positions) : Prop := Forall (fun v => v = (0, 0, 0)) a.

End SequencerDef.

(** ** Positions from interpolated data ([extract_pos], lines 904-928) *)

Section ExtractDef.
Local Open Scope R_scope.

(** [np.array([a, b, c]).T] for three one-dimensional arrays: a row per
    index; arrays of different lengths are refused. *)
Fixpoint rows3 (a b c : list R) : res (list (R * R * R)) :=
  match a, b, c with
  | [], [], [] => Ok []
  | x :: a', y :: b', z :: c' =>
      do r <- rows3 a' b' c'; Ok ((x, y, z) :: r)
  | _, _, _ => Raise ValueError
  end.

(** [extract_pos] with [cyclic_xy = True], the value the module sets. *)
Definition extract_pos (nx ny : Z) (dat : list (list R))
  : res (list (R * R * R) * Z) :=
  do d0 <- py_nth dat 0;
  do d1 <- py_nth dat 1;
  do d2 <- py_nth dat 2;
  do d3 <- py_nth dat 3;
  do d4 <- py_nth dat 4;
  let xpos := phase d0 d1 nx in
  let ypos := phase d2 d3 ny in
  do pos <- rows3 xpos ypos d4;
  Ok (pos, 5%Z).

End ExtractDef.

(** ** Relabelling maps *)

(** [g] renames the labels -1 .. n-1 into -1 .. n'-1, keeps -1 for the
    unlabelled cells only, and sends the highest label, and no other, to the
    highest. *)
Definition relabelling (g : Z -> Z) (n n' : Z) : Prop :=
  (n' <= n)%Z /\
  forall l, (-1 <= l < n)%Z ->
    (-1 <= g l < n')%Z /\ (g l = -1 <-> l = -1)%Z /\ (g l = n' - 1 <-> l = n - 1)%Z.

(** A 4 x 1 x 1 mask whose two parts face each other across the x seam, and
    the labels [ndimage.label] gives it. *)
Definition mask_4x1 : list bool := [true; false; false; true].
Definition label_4x1 : Z * Z * Z -> list bool -> list Z * Z :=
  fun _ _ => ([1; 0; 0; 2]%Z, 2%Z).

(** [q] is [p] moved by whole axis lengths along x and y. *)
Definition periodic_image (nx ny : Z) (p q : vec3) : Prop :=
  exists a b : Z,
    (vx q == vx p + inject_Z (a * nx))%Q /\
    (vy q == vy p + inject_Z (b * ny))%Q /\
    vz q = vz p.

(** Every point its own cluster, centred on itself. *)
Definition own_clusters : nat -> positions -> list nat * positions :=
  fun _ pos => (seq 0 (length pos), pos).

(** ** Object boxes ([compute_traj_boxes], lines 1706-1771) *)

Section BoxesDef.
Local Open Scope Q_scope.

(** [np.amin(a, axis=0)] and [np.amax(a, axis=0)] of an array of rows. *)
Definition amin_rows (a : positions) : res vec3 :=
  do x <- np_min (map vx a); do y <- np_min (map vy a);
  do z <- np_min (map vz a); Ok (x, y, z).

Definition amax_rows (a : positions) : res vec3 :=
  do x <- np_max (map vx a); do y <- np_max (map vy a);
  do z <- np_max (map vz a); Ok (x, y, z).

Definition count_true (mask : list bool) : nat := length (np_where mask).

(** For one object and one time: [num_in_obj], [traj_box], [in_obj_box]. *)
Record obj_boxes : Type := {
  ob_num_in_obj : nat;
  ob_traj_box : box;
  ob_in_obj_box : box
}.

(** One turn of the loop over times (lines 1761-1769) for the points [obj]
    of the object at time [it], with the box of all its points (lines
    1756-1757; the source takes the boxes of all times before the loop,
    which cannot fail once the object has a point). *)
Definition boxes_at (sel : list bool) (in_obj_mask : list (list bool))
           (it : Z) (obj : positions) : res obj_boxes :=
  do lo <- amin_rows obj;
  do hi <- amax_rows obj;
  do row <- py_nth in_obj_mask it;
  do mask <- select sel row;
  let num := count_true mask in
  do inbox <- (if (0 <? num)%nat
               then do pts <- select mask obj;
                    do ilo <- amin_rows pts;
                    do ihi <- amax_rows pts;
                    Ok (ilo, ihi)
               else Ok zero_box);
  Ok {| ob_num_in_obj := num; ob_traj_box := (lo, hi); ob_in_obj_box := inbox |}.

Fixpoint time_loop (sel : list bool) (in_obj_mask : list (list bool))
         (it : Z) (objs : list positions) : res (list obj_boxes) :=
  match objs with
  | [] => Ok []
  | obj :: rest =>
      do r <- boxes_at sel in_obj_mask it obj;
      do rs <- time_loop sel in_obj_mask (it + 1)%Z rest;
      Ok (r :: rs)
  end.

(** The body of the loop over objects.  A minimum over the points of an
    object that has none raises. *)
Definition object_boxes (trajectory : list positions) (labels : list Z)
           (in_obj_mask : list (list bool)) (iobj : Z) : res (list obj_boxes) :=
  let sel := map (fun l => (l =? iobj)%Z) labels in
  do objs <- mapM (select sel) trajectory;
  if (count_true sel =? 0)%nat then Raise ValueError
  else time_loop sel in_obj_mask 0 objs.

(** The boxes and counts of [compute_traj_boxes], one list per object with
    one entry per time (the source fills arrays indexed by time, then
    object).  The means it also returns are left out; none of them can
    raise. *)
Definition compute_traj_boxes (trajectory : list positions) (labels : list Z)
           (nobjects : Z) (in_obj_mask : list (list bool))
  : res (list (list obj_boxes)) :=
  mapM (object_boxes trajectory labels in_obj_mask) (zrange nobjects).

(** [p] lies in the box, coordinate by coordinate. *)
Definition in_box (b : box) (p : vec3) : Prop :=
  (vx (bmin b) <= vx p /\ vx p <= vx (bmax b)) /\
  (vy (bmin b) <= vy p /\ vy p <= vy (bmax b)) /\
  (vz (bmin b) <= vz p /\ vz p <= vz (bmax b)).

End BoxesDef.

(** What the entry [r] of one object at one time says about the points
    [obj] the object has at that time. *)
Definition summarises (obj : positions) (r : obj_boxes) : Prop :=
  obj <> [] /\
  Forall (in_box (ob_traj_box r)) obj /\
  (ob_num_in_obj r <= length obj)%nat /\
  (ob_num_in_obj r = 0%nat -> ob_in_obj_box r = zero_box) /\
  ((0 < ob_num_in_obj r)%nat ->
   in_box (ob_traj_box r) (bmin (ob_in_obj_box r)) /\
   in_box (ob_traj_box r) (bmax (ob_in_obj_box r)) /\
   in_box (ob_in_obj_box r) (bmin (ob_in_obj_box r)) /\
   in_box (ob_in_obj_box r) (bmax (ob_in_obj_box r))).

(** ** Reference points ([cloud_select], lines 3009-3027;
       [trajectory_cloud_ref], lines 2923-2972) *)

Section CloudRefDef.

(** [qcl >= thresh], elementwise. *)
Definition cloud_select (qcl : list Q) (thresh : Q) : list bool :=
  map (fun q => Qgeb q thresh) qcl.

Variable ndimage_label : Z * Z * Z -> list bool -> list Z * Z.

Record cloud_ref : Type := {
  cr_traj_pos : positions;
  cr_labels : list Z;
  cr_nobjects : Z
}.

(** [xcoord[pos[0]], ycoord[pos[1]], zcoord[pos[2]]] for one cell, the
    coordinate vectors being [arange] of the axis lengths as floats. *)
Definition node (c : Z * Z * Z) : vec3 :=
  (inject_Z (coord 0 c), inject_Z (coord 1 c), inject_Z (coord 2 c)).

(** [data] is the buffer, in C order, of the field of shape [shape] at the
    reference time.  [None]: the labelling ran out of fuel. *)
Definition trajectory_cloud_ref (shape : Z * Z * Z) (data : list Q)
           (thresh : Q) : res (option cloud_ref) :=
  let '(nx, ny, nz) := shape in
  let logical_pos := cloud_select data thresh in
  do o <- label_3D_cyclic ndimage_label shape logical_pos;
  match o with
  | None => Ok None
  | Some (labels, nobjects) =>
      do labels <- select logical_pos labels;
      let pos := map (fun o => unravel ny nz (Z.of_nat o))
                     (np_where logical_pos) in
      Ok (Some {| cr_traj_pos := map node pos;
                  cr_labels := labels;
                  cr_nobjects := nobjects |})
  end.

End CloudRefDef.

(** Liquid water on the 4 x 3 x 1 grid of [mask_4x3]. *)
Definition qcl_4x3 : list Q :=
  [1 # 1000; 0; 0;  0; 0; 1 # 1000000;
   0; 0; 0;  2 # 1000; 0; 1 # 100000]%Q.

(** The buffer, in C order, of a field of the grid. *)
Definition ravel (f : field) : list Q := concat (map (@concat Q) f).

(** The labels [ndimage.label] gives the cells of [field_2x2x3] that are at
    least 4: one component. *)
Definition label_2x2x3 : Z * Z * Z -> list bool -> list Z * Z :=
  fun _ _ => ([0; 0; 0; 1; 1; 1; 1; 1; 1; 1; 1; 1]%Z, 1%Z).

(** ** Construction of a trajectory set ([Trajectories.__init__],
       lines 670-677) *)

Section InitDef.

Variable kmeans : nat -> positions -> list nat * positions.

(** The positions are declustered and the boxes computed on the result;
    [in_obj_mask] is what [in_obj_func] returns for the set. *)
Definition init_boxes (trajectory : list positions) (labels : list Z)
           (nobjects nx ny : Z) (in_obj_mask : list (list bool))
  : res (list positions * list (list obj_boxes)) :=
  do tr <- unsplit_objects kmeans trajectory labels nobjects nx ny;
  do b <- compute_traj_boxes tr labels nobjects in_obj_mask;
  Ok (tr, b).

End InitDef.

(** ** Objects that peak at the reference time ([Trajectories.__init__],
       lines 679-681) *)

Section MaxAtRefDef.
Local Open Scope Q_scope.

(** An elementwise operation on two rows of one length. *)
Definition map2 {A B C : Type} (f : A -> B -> C) (a : list A) (b : list B)
  : list C :=
  map (fun p => f (fst p) (snd p)) (combine a b).

(** [np.max(a, axis=0)] on an array [a[time][object]]: the maximum over
    the times, for each object; no time at all raises. *)
Definition amax_axis0 (a : list (list Q)) : res (list Q) :=
  match a with
  | [] => Raise ValueError
  | row :: rest => Ok (fold_left (map2 qmax) rest row)
  end.

(** [np.where] on a 2-D mask: the row and the column of each true entry,
    in C order. *)
Definition where2 (m : list (list bool)) : list (nat * nat) :=
  concat (map (fun ir => map (fun j => (fst ir, j)) (np_where (snd ir)))
              (combine (seq 0 (length m)) m)).

(** [max_objvar = (objvar_mean == np.max(objvar_mean, axis=0))],
    [when_max_objvar = np.where(max_objvar)] and
    [max_at_ref = when_max_objvar[1][when_max_objvar[0] == ref]]. *)
Definition max_at_ref (objvar_mean : list (list Q)) (ref : Z)
  : res (list nat) :=
  do mx <- amax_axis0 objvar_mean;
  let max_objvar := map (fun row => map2 Qeq_bool row mx) objvar_mean in
  let when_max_objvar := where2 max_objvar in
  Ok (map snd (filter (fun p => (Z.of_nat (fst p) =? ref)%Z) when_max_objvar)).

(** Entry [a[t][j]]. *)
Definition entry (a : list (list Q)) (t j : nat) : Q := nth j (nth t a []) 0.

End MaxAtRefDef.

(** The mean of the in-object scalar of three objects at three times. *)
Definition objvar_3x3 : list (list Q) :=
  [[1; 5; 0]; [2; 5; 0]; [2; 3; 0]]%Q.

(** ** Classified matches ([matching_object_list_summary], lines 220-297) *)

Section SummaryDef.
Local Open Scope Z_scope.

(** The strings ['Same'] and ['Linked']. *)
Inductive otype : Type := Same | Linked.

(** [int(round(x, 0))]: the nearest integer, the even one of two that are
    equally near. *)
Definition py_round (x : Q) : Z :=
  let f := Qfloor x in
  let d := (x - inject_Z f)%Q in
  if Qltb d (1 # 2) then f
  else if Qltb (1 # 2) d then f + 1
  else if Z.even f then f else f + 1.

(** The attribute [max_at_ref] of a trajectory set. *)
Variable t_max_at_ref : Trajectories -> list nat.

(** The three lists that grow together. *)
Record summary_lists : Type := {
  objlist : list nat;
  otypelist : list otype;
  interlist : list Z
}.

Definition no_lists : summary_lists :=
  {| objlist := []; otypelist := []; interlist := [] |}.

(** [list(zip(objlist, otypelist, interlist))]. *)
Definition zip3 (s : summary_lists) : list (nat * otype * Z) :=
  combine (combine (objlist s) (otypelist s)) (interlist s).

(** A loop that updates one value. *)
Fixpoint foldM {A B : Type} (f : B -> A -> res B) (l : list A) (b : B)
  : res B :=
  match l with
  | [] => Ok b
  | a :: r => do b' <- f b a; foldM f r b'
  end.

(** [enumerate]. *)
Definition enumerate {A : Type} (l : list A) : list (Z * A) :=
  combine (zrange (Z.of_nat (length l))) l.

(** The body of the loop over the matching objects (lines 276-292);
    [np.size(obj) > 0] holds for every object number. *)
Definition summary_obj (fam : list Trajectories) (master_ref t_off it_back : Z)
           (iobj : Z) (overlap_thresh : Q) (match_traj : Trajectories)
           (s : summary_lists) (obj : nat) : res summary_lists :=
  if existsb (Nat.eqb obj) (objlist s) then Ok s
  else
    do inter <- refine_object_overlap fam t_off it_back iobj (Z.of_nat obj)
                                      master_ref;
    if true_match inter overlap_thresh then
      let otype := if existsb (Nat.eqb obj) (t_max_at_ref match_traj)
                   then Linked else Same in
      Ok {| objlist := objlist s ++ [obj];
            otypelist := otypelist s ++ [otype];
            interlist := interlist s ++ [py_round (inter * 100)] |}
    else Ok s.

(** The body of the loop over [it_back] (lines 270-292). *)
Definition summary_time (fam : list Trajectories) (master_ref t_off : Z)
           (matching_objects : list (list (list nat))) (i iobj : Z)
           (overlap_thresh : Q) (s : summary_lists) (it_back : Z)
  : res summary_lists :=
  do match_traj <- py_nth fam (master_ref - (t_off + 1));
  let match_time := t_ref match_traj + (t_off + 1) - it_back in
  if (match_time >=? 0) && (match_time <? Z.of_nat (length fam))
  then
    do at_time <- py_nth matching_objects it_back;
    do objs <- py_nth at_time i;
    foldM (summary_obj fam master_ref t_off it_back iobj overlap_thresh
                       match_traj) objs s
  else Ok s.

Definition matching_object_list_summary (fam : list Trajectories)
           (master_ref : option Z) (sel : option (list Z))
           (overlap_thresh : Q)
  : res (list (list (list (nat * otype * Z)))) :=
  let master_ref :=
    match master_ref with
    | Some m => m
    | None => Z.of_nat (length fam) - 1
    end in
  do traj <- py_nth fam master_ref;
  let sel :=
    match sel with
    | Some s => s
    | None => zrange (t_nobjects traj)
    end in
  do mol <- matching_object_list fam (Some master_ref) (Some sel);
  mapM (fun tm : Z * list (list (list nat)) =>
          let '(t_off, matching_objects) := tm in
          mapM (fun ii : Z * Z =>
                  let '(i, iobj) := ii in
                  do s <- foldM (summary_time fam master_ref t_off
                                              matching_objects i iobj
                                              overlap_thresh)
                                (zrange (Z.of_nat (length matching_objects)))
                                no_lists;
                  Ok (zip3 s))
               (enumerate sel))
       (enumerate mol).

(** What an entry of the summary of object [iobj] against the set [t_off + 1]
    references earlier says. *)
Definition entry_sound (fam : list Trajectories) (master_ref t_off iobj : Z)
           (overlap_thresh : Q) (x : nat * otype * Z) : Prop :=
  let '(obj, ty, pct) := x in
  exists it_back inter match_traj,
    0 <= it_back /\
    py_nth fam (master_ref - (t_off + 1)) = Ok match_traj /\
    refine_object_overlap fam t_off it_back iobj (Z.of_nat obj) master_ref
    = Ok inter /\
    (overlap_thresh < inter)%Q /\
    pct = py_round (inter * 100) /\ 0 <= pct <= 100 /\
    (ty = Linked <-> In obj (t_max_at_ref match_traj)).

(** The invariant of the two inner loops. *)
Definition lists_sound (fam : list Trajectories) (master_ref t_off iobj : Z)
           (overlap_thresh : Q) (s : summary_lists) : Prop :=
  length (otypelist s) = length (objlist s) /\
  length (interlist s) = length (objlist s) /\
  NoDup (objlist s) /\
  Forall (entry_sound fam master_ref t_off iobj overlap_thresh) (zip3 s).

End SummaryDef.

(* ================================================================== *)
(** * Part II: properties                                              *)
(* ================================================================== *)

Section PhaseProps.
Local Open Scope R_scope.

Lemma cos_period_Z (x : R) (k : Z) : cos (x + 2 * IZR k * PI) = cos x.
Proof.
  destruct (Z_le_gt_dec 0 k) as [Hk | Hk].
  - rewrite <- (Z2Nat.id k) by assumption. rewrite <- INR_IZR_INZ.
    apply cos_period.
  - replace x with ((x + 2 * IZR k * PI) + 2 * INR (Z.to_nat (- k)) * PI) at 2.
    + symmetry. apply cos_period.
    + rewrite INR_IZR_INZ, Z2Nat.id by lia. rewrite opp_IZR. ring.
Qed.

Lemma sin_period_Z (x : R) (k : Z) : sin (x + 2 * IZR k * PI) = sin x.
Proof.
  destruct (Z_le_gt_dec 0 k) as [Hk | Hk].
  - rewrite <- (Z2Nat.id k) by assumption. rewrite <- INR_IZR_INZ.
    apply sin_period.
  - replace x with ((x + 2 * IZR k * PI) + 2 * INR (Z.to_nat (- k)) * PI) at 2.
    + symmetry. apply sin_period.
    + rewrite INR_IZR_INZ, Z2Nat.id by lia. rewrite opp_IZR. ring.
Qed.

Lemma arctan2_sin_cos (phi : R) :
  - PI < phi <= PI -> arctan2 (sin phi) (cos phi) = phi.
Proof.
  intros [Hlo Hhi]. pose proof PI_RGT_0 as Hpi. unfold arctan2.
  destruct (Rlt_dec 0 (cos phi)) as [Hc | Hc].
  - (* cos > 0: phi is in (-PI/2, PI/2) *)
    assert (Hr : - (PI / 2) < phi < PI / 2).
    { split.
      - destruct (Rlt_dec (- (PI / 2)) phi) as [|Hn]; [assumption|].
        exfalso. apply Rnot_lt_le in Hn.
        assert (cos (- phi) <= 0).
        { destruct Hn as [Hn | ->].
          - left. apply cos_lt_0; Lra.lra.
          - rewrite Ropp_involutive, cos_PI2. Lra.lra. }
        rewrite cos_neg in *. Lra.lra.
      - destruct (Rlt_dec phi (PI / 2)) as [|Hn]; [assumption|].
        exfalso. apply Rnot_lt_le in Hn.
        assert (cos phi <= 0).
        { destruct Hn as [Hn | <-].
          - left. apply cos_lt_0; Lra.lra.
          - rewrite cos_PI2. Lra.lra. }
        Lra.lra. }
    apply atan_tan. assumption.
  - destruct (Rlt_dec (cos phi) 0) as [Hc' | Hc'].
    + destruct (Rle_dec 0 (sin phi)) as [Hs | Hs].
      * (* second quadrant *)
        assert (Hr : 0 <= phi).
        { destruct (Rle_dec 0 phi) as [|Hn]; [assumption|]. exfalso.
          apply Rnot_le_lt in Hn.
          pose proof (sin_lt_0_var phi Hlo Hn). Lra.lra. }
        assert (Hr2 : PI / 2 < phi).
        { destruct (Rlt_dec (PI / 2) phi) as [|Hn]; [assumption|]. exfalso.
          apply Rnot_lt_le in Hn.
          assert (0 <= cos phi) by (apply cos_ge_0; Lra.lra). Lra.lra. }
        replace (sin phi / cos phi) with (tan (phi - PI)).
        -- rewrite atan_tan by Lra.lra. ring.
        -- unfold tan. replace (phi - PI) with (- (PI - phi)) by ring.
           rewrite sin_neg, cos_neg.
           replace (PI - phi) with (- phi + PI) by ring.
           rewrite neg_sin, neg_cos, sin_neg, cos_neg. field. Lra.lra.
      * (* third quadrant *)
        apply Rnot_le_lt in Hs.
        assert (Hr : phi < 0).
        { destruct (Rlt_dec phi 0) as [|Hn]; [assumption|]. exfalso.
          apply Rnot_lt_le in Hn.
          assert (0 <= sin phi) by (apply sin_ge_0; Lra.lra). Lra.lra. }
        assert (Hr2 : phi < - (PI / 2)).
        { destruct (Rlt_dec phi (- (PI / 2))) as [|Hn]; [assumption|]. exfalso.
          apply Rnot_lt_le in Hn.
          assert (0 <= cos phi) by (apply cos_ge_0; Lra.lra). Lra.lra. }
        replace (sin phi / cos phi) with (tan (phi + PI)).
        -- rewrite atan_tan by Lra.lra. ring.
        -- unfold tan. rewrite neg_sin, neg_cos. field. Lra.lra.
    + (* cos = 0 *)
      assert (Hc0 : cos phi = 0) by Lra.lra.
      assert (Hcases : phi = PI / 2 \/ phi = - (PI / 2)).
      { destruct (Rtotal_order phi (PI / 2)) as [Hlt | [Heq | Hgt]].
        - destruct (Rtotal_order phi (- (PI / 2))) as [Hlt' | [Heq' | Hgt']].
          + exfalso. assert (cos (- phi) < 0) by (apply cos_lt_0; Lra.lra).
            rewrite cos_neg in *. Lra.lra.
          + right; assumption.
          + exfalso. assert (0 < cos phi) by (apply cos_gt_0; Lra.lra). Lra.lra.
        - left; assumption.
        - exfalso. assert (cos phi < 0) by (apply cos_lt_0; Lra.lra). Lra.lra. }
      destruct Hcases as [-> | ->].
      * rewrite sin_PI2. destruct (Rlt_dec 0 1); [reflexivity | Lra.lra].
      * rewrite sin_neg, sin_PI2.
        destruct (Rlt_dec 0 (Ropp 1)); [Lra.lra|].
        destruct (Rlt_dec (Ropp 1) 0); [reflexivity | Lra.lra].
Qed.

Lemma arctan2_range (y x : R) : - PI < arctan2 y x <= PI.
Proof.
  pose proof PI_RGT_0 as Hpi. unfold arctan2.
  pose proof (atan_bound (y / x)) as [Hl Hu].
  destruct (Rlt_dec 0 x) as [Hx | Hx]; [Lra.lra|].
  destruct (Rlt_dec x 0) as [Hx' | Hx'].
  - assert (Hx0 : / x < 0) by (apply Rinv_lt_0_compat; assumption).
    destruct (Rle_dec 0 y) as [Hy | Hy].
    + assert (y / x <= 0) by (unfold Rdiv; Lra.nra).
      assert (atan (y / x) <= 0).
      { rewrite <- atan_0. destruct H as [H | ->]; [left; apply atan_increasing; assumption | right; reflexivity]. }
      Lra.lra.
    + assert (0 < y / x) by (unfold Rdiv; Lra.nra).
      assert (0 < atan (y / x)).
      { rewrite <- atan_0. apply atan_increasing; assumption. }
      Lra.lra.
  - destruct (Rlt_dec 0 y); [Lra.lra|]. destruct (Rlt_dec y 0); Lra.lra.
Qed.

Lemma phase_elem_range (vr vi : R) (n : Z) :
  (0 < n)%Z -> 0 <= phase_elem vr vi n < IZR n.
Proof.
  intros Hn. apply IZR_lt in Hn. pose proof PI_RGT_0 as Hpi.
  pose proof (arctan2_range vi vr) as [Hl Hu].
  unfold phase_elem. cbv zeta.
  set (a := arctan2 vi vr) in *.
  assert (Ha : a / (2 * PI) * IZR n = (a / PI) * (IZR n / 2)) by (field; Lra.lra).
  assert (H1 : -1 < a / PI).
  { apply Rmult_lt_reg_r with PI; [assumption|].
    unfold Rdiv. rewrite Rmult_assoc, Rinv_l by Lra.lra. Lra.lra. }
  assert (H2 : a / PI <= 1).
  { apply Rmult_le_reg_r with PI; [assumption|].
    unfold Rdiv. rewrite Rmult_assoc, Rinv_l by Lra.lra. Lra.lra. }
  rewrite Ha.
  destruct (Rlt_dec (a / PI * (IZR n / 2)) 0) as [Hneg | Hpos]; Lra.nra.
Qed.

Lemma Rmod_range (p : R) (n : Z) : (0 < n)%Z -> 0 <= Rmod p n < IZR n.
Proof.
  intros Hn. apply IZR_lt in Hn. unfold Rmod.
  pose proof (base_Int_part (p / IZR n)) as [Hl Hu].
  set (k := IZR (Int_part (p / IZR n))) in *.
  assert (Hp : p = p / IZR n * IZR n) by (field; Lra.lra).
  split.
  - assert (k * IZR n <= p / IZR n * IZR n) by (apply Rmult_le_compat_r; Lra.lra).
    Lra.lra.
  - assert (p / IZR n * IZR n < (k + 1) * IZR n) by (apply Rmult_lt_compat_r; Lra.lra).
    Lra.lra.
Qed.

Lemma phase_elem_encode (p : R) (n : Z) :
  (0 < n)%Z -> phase_elem (encode_re p n) (encode_im p n) n = Rmod p n.
Proof.
  intros Hn. pose proof (Rmod_range p Hn) as [Hr0 Hrn].
  apply IZR_lt in Hn. pose proof PI_RGT_0 as Hpi.
  set (k := Int_part (p / IZR n)).
  set (r := Rmod p n) in *.
  assert (Hp : p = r + IZR k * IZR n) by (unfold r, Rmod, k; ring).
  set (phi := 2 * PI * r / IZR n).
  assert (Hphi0 : 0 <= phi).
  { unfold phi, Rdiv. apply Rmult_le_pos; [Lra.nra|].
    left. apply Rinv_0_lt_compat. assumption. }
  assert (Hphi2 : phi < 2 * PI).
  { unfold phi. apply Rmult_lt_reg_r with (IZR n); [assumption|].
    unfold Rdiv. rewrite Rmult_assoc, Rinv_l by Lra.lra. Lra.nra. }
  assert (Hr : r = phi / (2 * PI) * IZR n) by (unfold phi; field; Lra.lra).
  unfold phase_elem, encode_re, encode_im. cbv zeta.
  destruct (Rle_dec phi PI) as [Hle | Hgt].
  - assert (Hth : 2 * PI * p / IZR n = phi + 2 * IZR k * PI).
    { rewrite Hp. unfold phi. field. Lra.lra. }
    rewrite Hth, cos_period_Z, sin_period_Z.
    rewrite arctan2_sin_cos by Lra.lra.
    rewrite <- Hr.
    destruct (Rlt_dec r 0); [Lra.lra | reflexivity].
  - apply Rnot_le_lt in Hgt.
    assert (Hth : 2 * PI * p / IZR n = (phi - 2 * PI) + 2 * IZR (k + 1) * PI).
    { rewrite Hp, plus_IZR. unfold phi. field. Lra.lra. }
    rewrite Hth, cos_period_Z, sin_period_Z.
    rewrite arctan2_sin_cos by Lra.lra.
    assert (Hv : (phi - 2 * PI) / (2 * PI) * IZR n = r - IZR n).
    { unfold phi. field. Lra.lra. }
    rewrite Hv.
    destruct (Rlt_dec (r - IZR n) 0); [ring | Lra.lra].
Qed.



End PhaseProps.

(** ** Interpolation at grid nodes *)

Section InterpProps.
Local Open Scope Q_scope.

Lemma length_arange (n : nat) : length (arange n) = n.
Proof. unfold arange. now rewrite length_map, length_seq. Qed.

Lemma py_nth_in_range {A : Type} (l : list A) (i : Z) :
  (0 <= i < Z.of_nat (length l))%Z ->
  exists a, py_nth l i = Ok a /\ nth_error l (Z.to_nat i) = Some a.
Proof.
  intros Hi. unfold py_nth.
  destruct (i <? 0)%Z eqn:Hneg; [apply Z.ltb_lt in Hneg; lia|].
  replace ((0 <=? i)%Z && (i <? Z.of_nat (length l))%Z) with true
    by (symmetry; apply andb_true_iff; split; [apply Z.leb_le | apply Z.ltb_lt]; lia).
  destruct (nth_error l (Z.to_nat i)) as [a|] eqn:Hnth.
  - exists a. split; reflexivity.
  - apply nth_error_None in Hnth. lia.
Qed.

Lemma py_nth_arange (n : nat) (i : Z) :
  (0 <= i < Z.of_nat n)%Z -> py_nth (arange n) i = Ok (inject_Z i).
Proof.
  intros Hi.
  destruct (@py_nth_in_range Q (arange n) i) as [a [Ha Hnth]].
  { rewrite length_arange. assumption. }
  rewrite Ha. f_equal. unfold arange in Hnth.
  rewrite nth_error_map, nth_error_seq in Hnth.
  destruct (Z.to_nat i <? n)%nat eqn:Hlt.
  - simpl in Hnth. injection Hnth as <-. f_equal. lia.
  - apply Nat.ltb_ge in Hlt. lia.
Qed.

Lemma searchsorted_left_seq (n s : nat) (i : Z) :
  searchsorted_left (map (fun k => inject_Z (Z.of_nat k)) (seq s n)) (inject_Z i)
  = Z.max 0 (Z.min (i - Z.of_nat s) (Z.of_nat n)).
Proof.
  revert s. induction n as [| n IH]; intros s.
  - simpl. lia.
  - cbn [seq map searchsorted_left].
    destruct (Qlt_le_dec (inject_Z (Z.of_nat s)) (inject_Z i)) as [Hlt | Hle].
    + rewrite <- Zlt_Qlt in Hlt. rewrite IH. lia.
    + rewrite <- Zle_Qle in Hle. lia.
Qed.

Lemma whichbox_arange (n : nat) (i : Z) :
  (0 <= i < Z.of_nat n)%Z -> whichbox (arange n) (inject_Z i) = Z.max 0 (i - 1).
Proof.
  intros Hi. unfold whichbox. rewrite length_arange.
  unfold arange. rewrite searchsorted_left_seq.
  destruct (_ >? _)%Z eqn:H1.
  - apply Z.gtb_lt in H1. lia.
  - destruct (_ <? _)%Z eqn:H2.
    + apply Z.ltb_lt in H2. lia.
    + apply Z.ltb_ge in H2. lia.
Qed.

Lemma get3_in_shape (f : field) (nx ny nz : nat) (a b c : Z) :
  has_shape f nx ny nz ->
  (0 <= a < Z.of_nat nx)%Z -> (0 <= b < Z.of_nat ny)%Z ->
  (0 <= c < Z.of_nat nz)%Z ->
  exists v, get3 f a b c = Ok v.
Proof.
  intros [Hlen Hall] Ha Hb Hc. unfold get3.
  destruct (@py_nth_in_range _ f a) as [plane [-> Hp]]; [lia|].
  apply nth_error_In in Hp. rewrite Forall_forall in Hall.
  destruct (Hall _ Hp) as [Hlp Hcols]. simpl.
  destruct (@py_nth_in_range _ plane b) as [col [-> Hcol]]; [lia|].
  apply nth_error_In in Hcol. rewrite Forall_forall in Hcols.
  specialize (Hcols _ Hcol). simpl.
  destruct (@py_nth_in_range _ col c) as [v [-> _]]; [lia|].
  exists v. reflexivity.
Qed.

Lemma accumulate_corner (f : field) (nx ny nz : nat) (lx ly lz fx fy fz : Z)
      (xp yp zp : Q) :
  has_shape f nx ny nz ->
  (0 < nx)%nat -> (0 < ny)%nat ->
  (0 <= lz)%Z -> (lz + 1 < Z.of_nat nz)%Z ->
  (fx = 0%Z /\ xp == 0) \/ (fx = 1%Z /\ xp == 1) ->
  (fy = 0%Z /\ yp == 0) \/ (fy = 1%Z /\ yp == 1) ->
  (fz = 0%Z /\ zp == 0) \/ (fz = 1%Z /\ zp == 1) ->
  exists w v,
    accumulate f (Z.of_nat nx) (Z.of_nat ny) lx ly lz
               (1 - xp, xp) (1 - yp, yp) (1 - zp, zp) = Ok w /\
    get3 f ((lx + fx) mod Z.of_nat nx) ((ly + fy) mod Z.of_nat ny) (lz + fz)
    = Ok v /\
    w == v.
Proof.
  intros Hsh Hnx Hny Hlz0 Hlz1 Hx Hy Hz.
  assert (Hget : forall a b c, (0 <= c <= 1)%Z ->
            exists v, get3 f ((lx + a) mod Z.of_nat nx)
                           ((ly + b) mod Z.of_nat ny) (lz + c) = Ok v).
  { intros a b c Hc. apply get3_in_shape with (nx := nx) (ny := ny) (nz := nz);
      [assumption | apply Z.mod_pos_bound; lia | apply Z.mod_pos_bound; lia | lia]. }
  destruct (Hget 0 0 0)%Z as [d000 E000]; [lia|].
  destruct (Hget 0 0 1)%Z as [d001 E001]; [lia|].
  destruct (Hget 0 1 0)%Z as [d010 E010]; [lia|].
  destruct (Hget 0 1 1)%Z as [d011 E011]; [lia|].
  destruct (Hget 1 0 0)%Z as [d100 E100]; [lia|].
  destruct (Hget 1 0 1)%Z as [d101 E101]; [lia|].
  destruct (Hget 1 1 0)%Z as [d110 E110]; [lia|].
  destruct (Hget 1 1 1)%Z as [d111 E111]; [lia|].
  unfold accumulate, corners. cbn [fold_left bind].
  rewrite E000, E001, E010, E011, E100, E101, E110, E111. cbn [bind].
  eexists. 
  destruct Hx as [[-> Hxp] | [-> Hxp]], Hy as [[-> Hyp] | [-> Hyp]],
           Hz as [[-> Hzp] | [-> Hzp]];
    (eexists; split; [reflexivity|]; split; [eassumption|]);
    unfold weight; cbn [Z.eqb fst snd Pos.eqb]; rewrite Hxp, Hyp, Hzp; ring.
Qed.

Lemma mapM_cons {A B : Type} (g : A -> res B) (a : A) (r : list A) :
  mapM g (a :: r) = (do b <- g a; do bs <- mapM g r; Ok (b :: bs)).
Proof. reflexivity. Qed.

Lemma fdiv_unit_step (a : Q) (lz : Z) :
  fdiv a (inject_Z (lz + 1) - inject_Z lz) = Ok (a / (inject_Z (lz + 1) - inject_Z lz))
  /\ inject_Z (lz + 1) - inject_Z lz == 1.
Proof.
  assert (H1 : inject_Z (lz + 1) - inject_Z lz == 1).
  { rewrite inject_Z_plus. ring. }
  split; [|assumption]. unfold fdiv.
  destruct (Qeq_bool _ 0) eqn:E; [|reflexivity].
  apply Qeq_bool_iff in E. rewrite H1 in E. discriminate.
Qed.

Lemma node_fraction (i : Z) :
  (0 <= i)%Z ->
  let lo := Z.max 0 (i - 1) in
  ((i - lo = 0)%Z /\ inject_Z i - inject_Z lo == 0) \/
  ((i - lo = 1)%Z /\ inject_Z i - inject_Z lo == 1).
Proof.
  intros Hi lo. unfold Qminus. rewrite <- inject_Z_opp, <- inject_Z_plus.
  destruct (Z.eq_dec i 0) as [-> | Hne].
  - left. split; reflexivity.
  - right. replace (i + - lo)%Z with 1%Z by lia. split; [lia | reflexivity].
Qed.

Lemma tri_lin_interp1_node (f : field) (nx ny nz i j k : nat) :
  has_shape f nx ny nz -> (2 <= nz)%nat ->
  (i < nx)%nat -> (j < ny)%nat -> (k < nz)%nat ->
  exists w v,
    tri_lin_interp1 (arange nx) (arange ny) (arange nz) f
      (inject_Z (Z.of_nat i), inject_Z (Z.of_nat j), inject_Z (Z.of_nat k)) = Ok w /\
    get3 f (Z.of_nat i) (Z.of_nat j) (Z.of_nat k) = Ok v /\
    w == v.
Proof.
  intros Hsh Hnz Hi Hj Hk.
  unfold tri_lin_interp1, vx, vy, vz. cbn [fst snd].
  rewrite !length_arange. rewrite !whichbox_arange by lia.
  set (I := Z.of_nat i). set (J := Z.of_nat j). set (K := Z.of_nat k).
  set (lx := Z.max 0 (I - 1)). set (ly := Z.max 0 (J - 1)).
  set (lz := Z.max 0 (K - 1)).
  destruct (lz >? Z.of_nat nz - 2)%Z eqn:Htop; [apply Z.gtb_lt in Htop; lia|].
  rewrite !py_nth_arange by lia. cbn [bind].
  destruct (fdiv_unit_step (inject_Z K - inject_Z lz) lz) as [-> Hden]. cbn [bind].
  destruct (@accumulate_corner f nx ny nz lx ly lz (I - lx) (J - ly) (K - lz)
              ((inject_Z I - inject_Z lx) / 1) ((inject_Z J - inject_Z ly) / 1)
              ((inject_Z K - inject_Z lz) / (inject_Z (lz + 1) - inject_Z lz)))
    as [w [v [Hacc [Hv Hwv]]]]; try assumption; try lia.
  - destruct (@node_fraction I) as [[H1 H2] | [H1 H2]]; [lia | left | right];
      fold lx in H1, H2;
      (split; [exact H1 | rewrite H2; reflexivity]).
  - destruct (@node_fraction J) as [[H1 H2] | [H1 H2]]; [lia | left | right];
      fold ly in H1, H2;
      (split; [exact H1 | rewrite H2; reflexivity]).
  - destruct (@node_fraction K) as [[H1 H2] | [H1 H2]]; [lia | left | right];
      fold lz in H1, H2;
      (split; [exact H1 | rewrite H2, Hden; reflexivity]).
  - exists w, v. split; [exact Hacc|]. split; [|exact Hwv].
    replace (lx + (I - lx))%Z with I in Hv by lia.
    replace (ly + (J - ly))%Z with J in Hv by lia.
    replace (lz + (K - lz))%Z with K in Hv by lia.
    rewrite !Z.mod_small in Hv by lia. exact Hv.
Qed.

(** C6 (amended): on a grid with at least two vertical levels, interpolating
    any list of fields of the grid's shape to a position that is exactly the
    grid node [(i, j, k)] returns, for every field, the value stored at that
    node. *)
Theorem tri_lin_interp_exact_at_nodes
        (data : list field) (nx ny nz i j k : nat)
        (Hshape : Forall (fun f => has_shape f nx ny nz) data)
        (Hnz : (2 <= nz)%nat)
        (Hi : (i < nx)%nat) (Hj : (j < ny)%nat) (Hk : (k < nz)%nat) :
  exists out,
    tri_lin_interp data
      [(inject_Z (Z.of_nat i), inject_Z (Z.of_nat j), inject_Z (Z.of_nat k))]
      (arange nx) (arange ny) (arange nz) = Ok out /\
    Forall2 (fun f o => exists w v,
                 o = [w] /\
                 get3 f (Z.of_nat i) (Z.of_nat j) (Z.of_nat k) = Ok v /\
                 w == v) data out.
Proof.
  unfold tri_lin_interp.
  induction Hshape as [| f data Hf Hrest IH].
  - exists []. split; [reflexivity | constructor].
  - destruct IH as [out [Hout Hall]].
    destruct (tri_lin_interp1_node Hf Hnz Hi Hj Hk) as [w [v [Hw [Hv Hwv]]]].
    exists ([w] :: out). split.
    + rewrite mapM_cons, Hout, mapM_cons, Hw. reflexivity.
    + constructor; [|assumption]. exists w, v. repeat split; assumption.
Qed.


Lemma tri_lin_interp_exact_at_nodes_witness :
  exists out,
    tri_lin_interp [field_2x2x3] [(inject_Z 1, inject_Z 0, inject_Z 2)]
                   (arange 2) (arange 2) (arange 3) = Ok out /\
    Forall2 (fun f o => exists w v,
                 o = [w] /\ get3 f 1 0 2 = Ok v /\ w == v) [field_2x2x3] out.
Proof.
  apply (@tri_lin_interp_exact_at_nodes [field_2x2x3] 2 2 3 1 0 2).
  - repeat constructor.
  - lia.
  - lia.
  - lia.
  - lia.
Defined.

(** C6, as stated, fails on a grid with a single vertical level: the top-box
    adjustment makes the box degenerate and the vertical weight is 0/0. *)
Lemma tri_lin_interp_single_level_nan :
  has_shape [[[5]]] 1 1 1 /\
  tri_lin_interp [[[[5]]]] [(inject_Z 0, inject_Z 0, inject_Z 0)]
                 (arange 1) (arange 1) (arange 1) = Raise NotANumber.
Proof.
  split; [repeat constructor | vm_compute; reflexivity].
Qed.

End InterpProps.

Section AdvectionProps.
Local Open Scope Q_scope.

Lemma Qltb_true (a b : Q) : Qltb a b = true <-> a < b.
Proof.
  unfold Qltb. destruct (Qlt_le_dec a b) as [H | H]; split; intros H'.
  - assumption.
  - reflexivity.
  - discriminate.
  - exfalso. apply (Qlt_irrefl a). eapply Qlt_le_trans; eassumption.
Qed.

Lemma Qltb_false (a b : Q) : Qltb a b = false <-> b <= a.
Proof.
  unfold Qltb. destruct (Qlt_le_dec a b) as [H | H]; split; intros H'.
  - discriminate.
  - exfalso. apply (Qlt_irrefl a). eapply Qlt_le_trans; eassumption.
  - assumption.
  - reflexivity.
Qed.

Lemma clip_periodic_in_period (n : Z) (x : Q) :
  - inject_Z n <= x -> x < 2 * inject_Z n ->
  0 <= clip_periodic n x /\ clip_periodic n x < inject_Z n.
Proof.
  intros Hlo Hhi. unfold clip_periodic, Qgeb.
  destruct (Qltb x 0) eqn:E1.
  - apply Qltb_true in E1.
    destruct (Qltb (x + inject_Z n) (inject_Z n)) eqn:E2; cbn [negb].
    + apply Qltb_true in E2. split; [lra | assumption].
    + apply Qltb_false in E2. lra.
  - apply Qltb_false in E1.
    destruct (Qltb x (inject_Z n)) eqn:E2; cbn [negb].
    + apply Qltb_true in E2. split; assumption.
    + apply Qltb_false in E2. lra.
Qed.

Lemma clip_bounded_range (nz : Z) (z : Q) :
  (0 <= nz)%Z ->
  0 <= clip_bounded nz z /\ clip_bounded nz z <= inject_Z nz.
Proof.
  intros Hnz. assert (Hq : 0 <= inject_Z nz).
  { change 0 with (inject_Z 0). rewrite <- Zle_Qle. assumption. }
  unfold clip_bounded, Qgeb.
  destruct (Qltb z 0) eqn:E1.
  - destruct (Qltb 0 (inject_Z nz)) eqn:E2; cbn [negb]; lra.
  - apply Qltb_false in E1.
    destruct (Qltb z (inject_Z nz)) eqn:E2; cbn [negb].
    + apply Qltb_true in E2. lra.
    + lra.
Qed.

Variables nx ny nz : Z.
Variable sample : positions -> positions.
Variable rescue : positions -> positions -> nat -> vec3.

Lemma solve_enough_fuel (fuel : nat) :
  forall traj_pos est niter cycle,
    (0 <= niter)%Z -> (needed niter cycle <= fuel)%nat ->
    solve nx ny nz sample rescue fuel traj_pos est niter cycle <> Ok None.
Proof.
  induction fuel as [| fuel IH]; intros traj_pos est niter cycle Hn Hfuel.
  - exfalso. unfold needed, max_iter in Hfuel.
    destruct cycle; [lia|]. destruct (niter <=? 30)%Z eqn:E; [|lia].
    apply Z.leb_le in E. lia.
  - cbn [solve].
    destruct (mag_diff _) as [m | e]; cbn [bind]; [|discriminate].
    destruct cycle; [discriminate|].
    destruct (niter <=? max_iter)%Z eqn:E.
    + destruct (negb _); [|discriminate].
      apply IH; [lia|]. unfold needed, max_iter in *. rewrite E in Hfuel.
      apply Z.leb_le in E.
      destruct (niter + 1 <=? 30)%Z eqn:E'; lia.
    + destruct (negb _); [|discriminate].
      apply IH; [lia|]. unfold needed in *. rewrite E in Hfuel. lia.
Qed.

Lemma solve_raw_agrees (fuel : nat) :
  forall traj_pos est raw niter cycle,
    solve nx ny nz sample rescue fuel traj_pos est niter cycle
    = match solve_raw nx ny nz sample rescue fuel traj_pos est raw niter cycle
      with
      | Ok (Some (_, r)) => Ok (Some r)
      | Ok None => Ok None
      | Raise e => Raise e
      end.
Proof.
  induction fuel as [| fuel IH]; intros traj_pos est raw niter cycle;
    [reflexivity|].
  cbn [solve solve_raw].
  destruct (mag_diff _) as [m | e]; cbn [bind]; [|reflexivity].
  destruct cycle; [reflexivity|].
  destruct (niter <=? max_iter)%Z; destruct (negb _);
    first [reflexivity | apply IH].
Qed.

Lemma solve_raw_reclips (fuel : nat) :
  forall traj_pos est raw niter cycle raw' r,
    (cycle = true -> est = map (clip nx ny nz) raw) ->
    solve_raw nx ny nz sample rescue fuel traj_pos est raw niter cycle
    = Ok (Some (raw', r)) ->
    new_pos r = map (clip nx ny nz) raw'.
Proof.
  induction fuel as [| fuel IH]; intros traj_pos est raw niter cycle raw' r Hc Hs.
  - discriminate.
  - cbn [solve_raw] in Hs.
    destruct (mag_diff _) as [m | e]; cbn [bind] in Hs; [|discriminate].
    destruct cycle.
    + injection Hs as <- <-. cbn [new_pos]. apply Hc. reflexivity.
    + destruct (niter <=? max_iter)%Z; destruct (negb _);
        try (injection Hs as <- <-; reflexivity);
        (eapply IH; [| exact Hs]; intros _; reflexivity).
Qed.

Lemma clip_periodic_only_in_period (n : Z) (x : Q) :
  0 <= clip_periodic n x -> clip_periodic n x < inject_Z n ->
  - inject_Z n <= x /\ x < 2 * inject_Z n.
Proof.
  unfold clip_periodic, Qgeb.
  destruct (Qltb x 0) eqn:E1.
  - apply Qltb_true in E1.
    destruct (Qltb (x + inject_Z n) (inject_Z n)) eqn:E2; cbn [negb];
      intros H0 H1.
    + split; lra.
    + apply Qltb_false in E2. lra.
  - apply Qltb_false in E1.
    destruct (Qltb x (inject_Z n)) eqn:E2; cbn [negb]; intros H0 H1.
    + split; lra.
    + split; lra.
Qed.

Lemma clip_reclipped_row (q : vec3) :
  (0 <= nz)%Z -> reclipped_row nx ny nz q.
Proof.
  intros Hnz. unfold reclipped_row, clip, vx, vy, vz. cbn [fst snd].
  split; [apply clip_bounded_range; assumption|].
  split; (split; [intros [H0 H1]; apply clip_periodic_only_in_period; assumption
                 | intros [H0 H1]; apply clip_periodic_in_period; assumption]).
Qed.

(** C3 (amended): a forward step always leaves its loop, and the positions
    it returns are, row for row, the estimate the loop last held as lines
    1261-1266 re-clipped it: z lies in [[0, nz]], and x (y) lies in
    [[0, nx)] ([[0, ny)]) exactly when that estimate was within one period of
    the domain. *)
Theorem forward_step_reclipped (trajectory : list positions)
        (Hnz : (0 <= nz)%Z) :
  forward_trajectory_step nx ny nz sample rescue trajectory <> Ok None /\
  forall r,
    forward_trajectory_step nx ny nz sample rescue trajectory = Ok (Some r) ->
    exists raw,
      forward_step_raw nx ny nz sample rescue trajectory = Ok (Some (raw, r)) /\
      new_pos r = map (clip nx ny nz) raw /\
      Forall (reclipped_row nx ny nz) raw.
Proof.
  unfold forward_trajectory_step, forward_step_raw. split.
  - destruct (py_nth trajectory (-1)) as [traj_pos | e]; cbn [bind]; [|discriminate].
    destruct (traj_pos_next_est_init trajectory) as [est | e]; cbn [bind];
      [|discriminate].
    apply solve_enough_fuel; [lia|]. vm_compute. lia.
  - intros r Hr.
    destruct (py_nth trajectory (-1)) as [traj_pos | e]; cbn [bind] in Hr |- *;
      [|discriminate].
    destruct (traj_pos_next_est_init trajectory) as [est | e];
      cbn [bind] in Hr |- *; [|discriminate].
    rewrite (solve_raw_agrees solve_fuel traj_pos est est 0 false) in Hr.
    destruct (solve_raw nx ny nz sample rescue solve_fuel traj_pos est est 0
                        false) as [[[raw r'] |] | e] eqn:Es; try discriminate.
    injection Hr as ->. exists raw. split; [reflexivity|]. split.
    + eapply solve_raw_reclips; [| exact Es]. discriminate.
    + apply Forall_forall. intros q _. apply clip_reclipped_row. exact Hnz.
Qed.

End AdvectionProps.

Section AdvectionCases.
Local Open Scope Q_scope.

Lemma forward_step_reclipped_witness :
  (0 <= 8)%Z /\
  forward_trajectory_step 8 8 8 drift_sample keep_rescue traj_seam <> Ok None /\
  forall r,
    forward_trajectory_step 8 8 8 drift_sample keep_rescue traj_seam
    = Ok (Some r) ->
    exists raw,
      forward_step_raw 8 8 8 drift_sample keep_rescue traj_seam
      = Ok (Some (raw, r)) /\
      new_pos r = map (clip 8 8 8) raw /\
      Forall (reclipped_row 8 8 8) raw.
Proof.
  split; [lia|].
  exact (@forward_step_reclipped 8 8 8 drift_sample keep_rescue
           traj_seam ltac:(lia)).
Defined.

(** C3, as stated, fails: a particle half a cell below [z = nz] is returned
    where it is, above [nz - 1]; and an estimate more than one period below
    the domain is returned with a negative x. *)
Lemma forward_step_leaves_domain :
  (exists r,
      forward_trajectory_step 8 8 8 static_sample keep_rescue traj_top
      = Ok (Some r) /\
      Exists (fun p => ~ vz p <= inject_Z (8 - 1)) (new_pos r)) /\
  (exists r,
      forward_trajectory_step 8 8 8 drift_sample keep_rescue traj_seam
      = Ok (Some r) /\
      Exists (fun p => ~ 0 <= vx p) (new_pos r)).
Proof.
  split; eexists; (split; [vm_compute; reflexivity|]);
    apply Exists_cons_hd; vm_compute; intros H; apply H; reflexivity.
Qed.

(** C1 (the code at the failing input): with four particles of which only
    the fourth is off its target, by two cells, the loop is left after its
    first pass; and with fewer than three particles the error norm raises. *)
Theorem forward_step_error_norm_first_rows :
  (exists r,
      forward_trajectory_step 8 8 8 static_sample keep_rescue traj_four
      = Ok (Some r) /\
      iterations r = 1%Z /\
      all_converged (new_err r) = false /\
      Exists (fun d => sq_dist d == 4) (new_err r)) /\
  forward_trajectory_step 8 8 8 static_sample keep_rescue traj_two
  = Raise IndexError.
Proof.
  split; [eexists; split; [vm_compute; reflexivity|] | vm_compute; reflexivity].
  split; [reflexivity|]. split; [vm_compute; reflexivity|].
  do 3 apply Exists_cons_tl. apply Exists_cons_hd. vm_compute. reflexivity.
Qed.

(** C2 (the code at the failing input): for three particles that moved one
    cell along x in each of the two recorded steps, from x = 1 to x = 3, the
    seed of the iteration is x = 0, the extrapolation backwards from the two
    earliest positions; the extrapolation from the two latest is x = 4. *)
Theorem forward_step_seed_from_earliest :
  exists seed latest,
    traj_pos_next_est_init traj_steady = Ok seed /\
    extrapolate_latest traj_steady = Ok latest /\
    Forall (fun p => vx p == 0) seed /\
    Forall (fun p => vx p == 4) latest.
Proof.
  do 2 eexists. split; [vm_compute; reflexivity|].
  split; [vm_compute; reflexivity|].
  split; repeat constructor.
Qed.

End AdvectionCases.

(** ** Bounding-box overlap *)

Section BoxProps.
Local Open Scope Q_scope.

Lemma Qleb_true (a b : Q) : Qleb a b = true <-> a <= b.
Proof.
  unfold Qleb. rewrite negb_true_iff. apply Qltb_false.
Qed.

Lemma Qgeb_true (a b : Q) : Qgeb a b = true <-> b <= a.
Proof.
  unfold Qgeb. rewrite negb_true_iff. apply Qltb_false.
Qed.

Lemma interval_tests_plain (t0 t1 s0 s1 : Q) :
  t0 <= t1 -> s0 <= s1 ->
  (interval_tests t0 t1 s0 s1 = true <-> plain_overlap t0 t1 s0 s1).
Proof.
  intros Ht Hs. unfold interval_tests, plain_overlap. cbv zeta.
  rewrite !orb_true_iff, !andb_true_iff, !Qgeb_true, !Qleb_true.
  split.
  - intros [[[H1 H2] | [H1 H2]] | [[H1 H2] | [H1 H2]]]; split; lra.
  - intros [H1 H2].
    destruct (Qlt_le_dec t0 s0) as [Hlt | Hge].
    + destruct (Qlt_le_dec s1 t1) as [Hlt' | Hge'].
      * right. left. split; lra.
      * left. right. split; lra.
    + left. left. split; lra.
Qed.

Lemma where_from_ge (mask : list bool) :
  forall k j, In j (where_from k mask) -> (k <= j)%nat.
Proof.
  induction mask as [| b r IH]; intros k j Hj; [contradiction|].
  cbn [where_from] in Hj. destruct b.
  - destruct Hj as [<- | Hj]; [lia|]. apply IH in Hj. lia.
  - apply IH in Hj. lia.
Qed.

Lemma where_from_filter {A : Type} (f : A -> bool) (d : A) (l : list A) :
  forall k,
    map (fun j => nth (j - k) l d) (where_from k (map f l)) = filter f l.
Proof.
  induction l as [| a l IH]; intros k; [reflexivity|].
  cbn [map where_from filter].
  assert (Htail : map (fun j => nth (j - k) (a :: l) d)
                      (where_from (S k) (map f l)) = filter f l).
  { rewrite <- (IH (S k)). apply map_ext_in. intros j Hj.
    apply where_from_ge in Hj.
    replace (j - k)%nat with (S (j - S k)) by lia. reflexivity. }
  destruct (f a).
  - cbn [map]. rewrite Nat.sub_diag. cbn [nth]. f_equal. exact Htail.
  - exact Htail.
Qed.

Lemma np_where_seq {A : Type} (f : A -> bool) (l : list A) (d : A) :
  np_where (map f l)
  = filter (fun i => f (nth i l d)) (seq 0 (length l)).
Proof.
  unfold np_where.
  assert (H : forall k,
             where_from k (map f l)
             = filter (fun i => f (nth (i - k) l d)) (seq k (length l))).
  { induction l as [| a l IH]; intros k; [reflexivity|].
    cbn [map where_from length seq filter]. rewrite Nat.sub_diag. cbn [nth].
    assert (Htail : where_from (S k) (map f l)
                    = filter (fun i => f (nth (i - k) (a :: l) d))
                             (seq (S k) (length l))).
    { rewrite IH. apply filter_ext_in. intros i Hi. apply in_seq in Hi.
      replace (i - k)%nat with (S (i - S k)) by lia. reflexivity. }
    destruct (f a); [f_equal|]; exact Htail. }
  rewrite H. apply filter_ext. intros i. now rewrite Nat.sub_0_r.
Qed.

Lemma np_where_select {A : Type} (f : A -> bool) (d : A) (l : list A) :
  map (fun j => nth j l d) (np_where (map f l)) = filter f l.
Proof.
  unfold np_where. rewrite <- (where_from_filter f d l 0).
  apply map_ext. intros j. now rewrite Nat.sub_0_r.
Qed.

Lemma box_overlap_as_filter (b_test : box) (b_set : list box) (nx ny : Z) :
  box_overlap_with_wrap b_test b_set nx ny
  = filter (fun i => interval_tests (vy (bmin b_test)) (vy (bmax b_test))
                       (vy (bmin (nth i b_set zero_box)))
                       (vy (bmax (nth i b_set zero_box))))
      (filter (fun i => interval_tests (vx (bmin b_test)) (vx (bmax b_test))
                          (vx (bmin (nth i b_set zero_box)))
                          (vx (bmax (nth i b_set zero_box))))
         (seq 0 (length b_set))).
Proof.
  unfold box_overlap_with_wrap. cbv zeta.
  rewrite (np_where_select
             (fun i => interval_tests (vy (bmin b_test)) (vy (bmax b_test))
                         (vy (bmin (nth i b_set zero_box)))
                         (vy (bmax (nth i b_set zero_box)))) 0%nat).
  f_equal.
  apply (np_where_seq
           (fun s => interval_tests (vx (bmin b_test)) (vx (bmax b_test))
                       (vx (bmin s)) (vx (bmax s))) b_set zero_box).
Qed.

(** C5 (amended): the test is not wrap-aware.  For boxes with minima below
    maxima, index [i] is reported exactly when the x intervals of the test
    box and of box [i] overlap as plain closed intervals and their y
    intervals do too; [nx] and [ny] play no part. *)
Theorem box_overlap_plain_intervals (b_test : box) (b_set : list box)
        (nx ny : Z) (i : nat)
        (Htest : well_formed b_test) (Hset : Forall well_formed b_set) :
  In i (box_overlap_with_wrap b_test b_set nx ny) <->
  exists s,
    nth_error b_set i = Some s /\
    plain_overlap (vx (bmin b_test)) (vx (bmax b_test))
                  (vx (bmin s)) (vx (bmax s)) /\
    plain_overlap (vy (bmin b_test)) (vy (bmax b_test))
                  (vy (bmin s)) (vy (bmax s)).
Proof.
  rewrite box_overlap_as_filter, !filter_In, in_seq.
  destruct Htest as [Htx Hty]. rewrite Forall_forall in Hset.
  split.
  - intros [[[_ Hi] Hx] Hy]. cbn in Hi.
    destruct (nth_error b_set i) as [s|] eqn:Hs;
      [| apply nth_error_None in Hs; lia].
    rewrite (nth_error_nth _ _ zero_box Hs) in Hx, Hy.
    destruct (Hset s (nth_error_In _ _ Hs)) as [Hsx Hsy].
    exists s. split; [reflexivity|]. split.
    + apply interval_tests_plain; assumption.
    + apply interval_tests_plain; assumption.
  - intros [s [Hs [Hx Hy]]].
    destruct (Hset s (nth_error_In _ _ Hs)) as [Hsx Hsy].
    rewrite (nth_error_nth _ _ zero_box Hs).
    assert (i < length b_set)%nat by (apply nth_error_Some; congruence).
    repeat split; try lia; apply interval_tests_plain; assumption.
Qed.

Lemma box_overlap_plain_intervals_witness :
  well_formed box_low /\ Forall well_formed [box_seam; box_low] /\
  (In 1%nat (box_overlap_with_wrap box_low [box_seam; box_low] 8 8) <->
   exists s,
     nth_error [box_seam; box_low] 1 = Some s /\
     plain_overlap (vx (bmin box_low)) (vx (bmax box_low))
                   (vx (bmin s)) (vx (bmax s)) /\
     plain_overlap (vy (bmin box_low)) (vy (bmax box_low))
                   (vy (bmin s)) (vy (bmax s))).
Proof.
  assert (Hlow : well_formed box_low) by (split; vm_compute; discriminate).
  assert (Hseam : well_formed box_seam) by (split; vm_compute; discriminate).
  assert (Hall : Forall well_formed [box_seam; box_low]).
  { apply Forall_cons; [exact Hseam|]. apply Forall_cons; [exact Hlow|].
    apply Forall_nil. }
  split; [exact Hlow|]. split; [exact Hall|].
  exact (@box_overlap_plain_intervals box_low [box_seam; box_low] 8 8 1%nat
           Hlow Hall).
Defined.

(** C5, as stated, fails: on an axis of length 8 the x intervals [[7, 9]]
    and [[0, 2]] overlap as periodic intervals, and so do the y intervals,
    and the box is not reported. *)
Lemma box_overlap_misses_seam :
  periodic_overlap 8 (vx (bmin box_seam)) (vx (bmax box_seam))
                   (vx (bmin box_low)) (vx (bmax box_low)) /\
  periodic_overlap 8 (vy (bmin box_seam)) (vy (bmax box_seam))
                   (vy (bmin box_low)) (vy (bmax box_low)) /\
  box_overlap_with_wrap box_seam [box_low] 8 8 = [].
Proof.
  split; [| split].
  - exists 1%Z. split; vm_compute; discriminate.
  - exists 0%Z. split; vm_compute; discriminate.
  - vm_compute. reflexivity.
Qed.

End BoxProps.

(** ** Object overlap *)

Section OverlapProps.
Local Open Scope Q_scope.

Lemma insert_unique_In (x y : Z) (l : list Z) :
  In y (insert_unique x l) <-> y = x \/ In y l.
Proof.
  induction l as [| z r IH]; cbn [insert_unique].
  - cbn. intuition.
  - destruct (x <? z)%Z eqn:E1; [cbn; intuition|].
    destruct (x =? z)%Z eqn:E2.
    + apply Z.eqb_eq in E2. subst z. cbn. intuition.
    + cbn [In]. rewrite IH. intuition.
Qed.

Lemma unique_In (y : Z) (l : list Z) : In y (unique l) <-> In y l.
Proof.
  induction l as [| x r IH]; [reflexivity|].
  unfold unique in *. cbn [fold_right]. rewrite insert_unique_In, IH.
  cbn. intuition.
Qed.

Lemma insert_unique_increasing (x : Z) (l : list Z) :
  increasing l -> increasing (insert_unique x l).
Proof.
  induction 1 as [| z r Hz Hr IH]; cbn [insert_unique].
  - constructor; constructor.
  - destruct (x <? z)%Z eqn:E1.
    + apply Z.ltb_lt in E1. constructor; [|constructor; assumption].
      constructor; [assumption|].
      eapply Forall_impl; [|exact Hz]. cbn. intros; lia.
    + destruct (x =? z)%Z eqn:E2; [constructor; assumption|].
      apply Z.ltb_ge in E1. apply Z.eqb_neq in E2.
      constructor; [|assumption].
      apply Forall_forall. intros y Hy. apply insert_unique_In in Hy.
      destruct Hy as [-> | Hy]; [lia|].
      rewrite Forall_forall in Hz. apply Hz. assumption.
Qed.

Lemma unique_increasing (l : list Z) : increasing (unique l).
Proof.
  induction l as [| x r IH]; [constructor|].
  apply insert_unique_increasing. exact IH.
Qed.

Lemma increasing_NoDup (l : list Z) : increasing l -> NoDup l.
Proof.
  induction 1 as [| x l Hx Hl IH]; constructor; [|assumption].
  intros Hin. rewrite Forall_forall in Hx. specialize (Hx _ Hin). lia.
Qed.

Lemma unique_NoDup (l : list Z) : NoDup (unique l).
Proof. apply increasing_NoDup, unique_increasing. Qed.

Lemma intersect1d_In (x : Z) (a b : list Z) :
  In x (intersect1d a b) <-> In x a /\ In x b.
Proof.
  unfold intersect1d. rewrite filter_In, unique_In, existsb_exists.
  split.
  - intros [Ha [y [Hy E]]]. apply Z.eqb_eq in E. subst y. split; assumption.
  - intros [Ha Hb]. split; [assumption|]. exists x. split; [assumption|].
    apply Z.eqb_refl.
Qed.

Lemma intersect1d_NoDup (a b : list Z) : NoDup (intersect1d a b).
Proof. unfold intersect1d. apply NoDup_filter, unique_NoDup. Qed.




End OverlapProps.

(** ** Candidate matching *)

Section MatchingProps.

(** C10 (the code at the failing input): object 0 of the later set has no
    in-object point one step before the reference time and object 1 has
    none at either time; their candidate lists at those times are the list
    found for object 0 at the reference time, not empty lists; and when the
    first object examined has none, the method raises. *)
Theorem matching_object_list_keeps_stale_candidates :
  py_nth (t_num_in_obj later_set) 0 = Ok [0; 0]%Z /\
  py_nth (t_num_in_obj later_set) 1 = Ok [4; 0]%Z /\
  matching_object_list family_with_empty_object None None
  = Ok [[[[0%nat]; [0%nat]]; [[0%nat]; [0%nat]]]] /\
  matching_object_list family_with_empty_object None (Some [1%Z])
  = Raise UnboundLocalError.
Proof.
  repeat split; vm_compute; reflexivity.
Qed.

End MatchingProps.

(** ** Declustering *)

Section UnsplitProps.
Local Open Scope Q_scope.
Variable kmeans : nat -> positions -> list nat * positions.

Lemma mapM_fixed {A : Type} (g : A -> res A) (l : list A) :
  (forall a, In a l -> g a = Ok a) -> mapM g l = Ok l.
Proof.
  induction l as [| a r IH]; intros H; [reflexivity|].
  cbn [mapM]. rewrite (H a) by (left; reflexivity). cbn [bind].
  rewrite IH by (intros b Hb; apply H; right; exact Hb). reflexivity.
Qed.

Lemma unsplit_slice_unified (labels : list Z) (nx ny iobj : Z)
      (slice : positions) :
  unified labels nx ny iobj slice ->
  unsplit_slice kmeans labels nx ny iobj slice = Ok slice.
Proof.
  intros [tr [sx [sy [Hsel [Hsx [Hsy [Hx Hy]]]]]]].
  unfold unsplit_slice. cbv zeta. rewrite Hsel. cbn [bind].
  rewrite Hsx, Hsy. cbn [bind].
  assert (Ex : Qgtb sx (inject_Z nx / 2) = false)
    by (unfold Qgtb; apply Qltb_false; exact Hx).
  assert (Ey : Qgtb sy (inject_Z ny / 2) = false)
    by (unfold Qgtb; apply Qltb_false; exact Hy).
  rewrite Ex, Ey. reflexivity.
Qed.

(** C8: when every object, at every time, has points whose spread is at
    most [nx/2] along x and at most [ny/2] along y, [unsplit_objects]
    returns the trajectory array it was given. *)
Theorem unsplit_objects_unified_noop
        (trajectory : list positions) (labels : list Z) (nobjects nx ny : Z)
        (Hunified : forall iobj slice,
            (0 <= iobj < nobjects)%Z -> In slice trajectory ->
            unified labels nx ny iobj slice) :
  unsplit_objects kmeans trajectory labels nobjects nx ny = Ok trajectory.
Proof.
  unfold unsplit_objects.
  assert (Hrange : forall iobj, In iobj (zrange nobjects) ->
                                (0 <= iobj < nobjects)%Z).
  { intros iobj Hin. unfold zrange in Hin. apply in_map_iff in Hin.
    destruct Hin as [k [<- Hk]]. apply in_seq in Hk. lia. }
  induction (zrange nobjects) as [| iobj objs IH]; [reflexivity|].
  cbn [fold_left bind].
  rewrite mapM_fixed.
  - apply IH. intros o Ho. apply Hrange. right. exact Ho.
  - intros slice Hin. apply unsplit_slice_unified.
    apply Hunified; [apply Hrange; left; reflexivity | exact Hin].
Qed.

End UnsplitProps.

Lemma unsplit_objects_unified_noop_witness :
  unsplit_objects one_cluster traj_unified labels_unified 2 8 8
  = Ok traj_unified.
Proof.
  apply unsplit_objects_unified_noop.
  intros iobj slice Hi Hin.
  assert (Ho : iobj = 0%Z \/ iobj = 1%Z) by lia.
  destruct Ho as [-> | ->];
    (destruct Hin as [<- | [<- | []]];
     do 3 eexists;
     (split; [vm_compute; reflexivity|]);
     (split; [vm_compute; reflexivity|]);
     (split; [vm_compute; reflexivity|]);
     split; vm_compute; discriminate).
Defined.

(** ** Cyclic labelling *)

Section LabelProps.
Local Open Scope Z_scope.

Ltac cases_Z :=
  repeat match goal with
         | |- context [(?a =? ?b)%Z] => destruct (Z.eqb_spec a b)
         | |- context [(?a <=? ?b)%Z] => destruct (Z.leb_spec a b)
         | |- context [(?a <? ?b)%Z] => destruct (Z.ltb_spec a b)
         end; cbn [andb]; try lia.

Lemma shift_down_fold (m : nat) :
  forall (a : Z) (labs : list Z),
    fold_left (fun lb k => map (fun l => if l =? k then k - 1 else l) lb)
              (map (fun k => a + Z.of_nat k) (seq 0 m)) labs
    = map (fun l => if (a <=? l) && (l <? a + Z.of_nat m) then l - 1 else l)
          labs.
Proof.
  induction m as [| m IH]; intros a labs.
  - cbn [seq map fold_left]. rewrite <- (map_id labs) at 1.
    apply map_ext. intros l. cases_Z.
  - cbn [seq map fold_left]. rewrite <- seq_shift, map_map.
    rewrite (map_ext (fun k => a + Z.of_nat (S k))
                     (fun k => (a + 1) + Z.of_nat k)) by (intros k; lia).
    rewrite IH, map_map. apply map_ext. intros l. cases_Z.
Qed.

Lemma relabel_map (labs : list Z) (nobjs i j : Z) :
  j < nobjs ->
  relabel labs nobjs i j
  = (map (fun l => let l1 := if l =? j then i else l in
                   if (j + 1 <=? l1) && (l1 <? nobjs) then l1 - 1 else l1)
         labs,
     nobjs - 1).
Proof.
  intros Hj. unfold relabel, zrange_from. cbv zeta.
  rewrite shift_down_fold, map_map. f_equal.
  apply map_ext. intros l. rewrite Z2Nat.id by lia.
  replace (j + 1 + (nobjs - (j + 1))) with nobjs by lia. reflexivity.
Qed.

(** Each merge keeps the labels contiguous. *)
Lemma relabel_contiguous (labs : list Z) (nobjs i j : Z) :
  contiguous labs nobjs -> 0 <= i < j -> j < nobjs ->
  contiguous (fst (relabel labs nobjs i j)) (snd (relabel labs nobjs i j)) /\
  snd (relabel labs nobjs i j) = nobjs - 1.
Proof.
  intros [Hall Hocc] Hi Hj. rewrite relabel_map by assumption.
  cbn [fst snd]. split; [|reflexivity]. split.
  - apply Forall_forall. intros l' Hl'. apply in_map_iff in Hl'.
    destruct Hl' as [l [<- Hl]]. rewrite Forall_forall in Hall.
    specialize (Hall l Hl). cbv zeta. cases_Z.
  - intros t Ht.
    destruct (Z_lt_le_dec t j) as [Hlt | Hge].
    + apply in_map_iff. exists t. split; [|apply Hocc; lia].
      cbv zeta. cases_Z.
    + apply in_map_iff. exists (t + 1). split; [|apply Hocc; lia].
      cbv zeta. cases_Z.
Qed.

Lemma where_label_occupied (ny nz : Z) (labs : list Z) (l : Z) :
  In l labs -> where_label ny nz labs l <> [].
Proof.
  intros Hin. unfold where_label.
  rewrite (np_where_seq (fun l0 => l0 =? l) labs 0).
  destruct (In_nth labs l 0 Hin) as [k [Hk Hnth]].
  assert (Hf : In k (filter (fun i => nth i labs 0 =? l)
                            (seq 0 (length labs)))).
  { apply filter_In. split; [apply in_seq; lia|].
    rewrite Hnth. apply Z.eqb_refl. }
  destruct (filter _ _); [contradiction|]. discriminate.
Qed.

Lemma at_border_defined (low : bool) (axis : nat) (n : Z)
      (pos : list (Z * Z * Z)) :
  pos <> [] -> exists b, at_border low axis n pos = Ok b.
Proof.
  intros Hne. destruct pos as [| p r]; [contradiction|].
  unfold at_border. destruct low; cbn; eexists; reflexivity.
Qed.

Lemma match_at_edge_contiguous (fuel : nat) (minflag : bool) (axis : nat)
      (n ny nz : Z) (posi : list (Z * Z * Z)) (i : Z) :
  forall (j : Z) (labs : list Z) (nobjs : Z),
    contiguous labs nobjs -> 0 <= i < j ->
    nobjs - 1 - j <= Z.of_nat fuel ->
    exists labs' nobjs',
      match_at_edge fuel minflag axis n ny nz posi i j labs nobjs
      = Ok (Some (labs', nobjs')) /\
      contiguous labs' nobjs' /\ nobjs' <= nobjs.
Proof.
  induction fuel as [| fuel IH]; intros j labs nobjs Hc Hij Hfuel.
  - cbn [match_at_edge]. destruct (Z.ltb_spec j (nobjs - 1)); [lia|].
    exists labs, nobjs. repeat split; [apply Hc | apply Hc | lia].
  - cbn [match_at_edge]. destruct (Z.ltb_spec j (nobjs - 1)) as [Hlt | Hge].
    + destruct (@at_border_defined (negb minflag) axis n
                  (where_label ny nz labs j)) as [test2 ->].
      { apply where_label_occupied. apply Hc. lia. }
      cbn [bind].
      destruct (relabel_contiguous (i := i) (j := j) Hc) as [Hc' Hn'];
        [lia | lia |].
      destruct (relabel labs nobjs i j) as [labsr nobjsr] eqn:Er.
      cbn [fst snd] in Hc', Hn'.
      destruct test2;
        [destruct (common _ _); [destruct (common _ _)|]|];
        try (destruct (IH (j + 1) labs nobjs) as [l' [n' [-> [H1 H2]]]];
             [assumption | lia | lia |];
             exists l', n'; repeat split; [apply H1 | apply H1 | lia]).
      destruct (IH (j + 1) labsr nobjsr) as [l' [n' [-> [H1 H2]]]];
        [assumption | lia | lia |].
      exists l', n'. repeat split; [apply H1 | apply H1 | lia].
    + exists labs, nobjs. repeat split; [apply Hc | apply Hc | lia].
Qed.

Lemma edge_loop_contiguous (fuel : nat) (minflag : bool) (axis : nat)
      (n ny nz : Z) :
  forall (i : Z) (labs : list Z) (nobjs : Z),
    contiguous labs nobjs -> 0 <= i ->
    nobjs - 2 - i <= Z.of_nat fuel ->
    exists labs' nobjs',
      edge_loop fuel minflag axis n ny nz i labs nobjs
      = Ok (Some (labs', nobjs')) /\
      contiguous labs' nobjs' /\ nobjs' <= nobjs.
Proof.
  induction fuel as [| fuel IH]; intros i labs nobjs Hc Hi Hfuel.
  - cbn [edge_loop]. destruct (Z.ltb_spec i (nobjs - 2)); [lia|].
    exists labs, nobjs. repeat split; [apply Hc | apply Hc | lia].
  - cbn [edge_loop]. destruct (Z.ltb_spec i (nobjs - 2)) as [Hlt | Hge].
    + destruct (@at_border_defined minflag axis n
                  (where_label ny nz labs i)) as [test1 ->].
      { apply where_label_occupied. apply Hc. lia. }
      cbn [bind]. destruct test1.
      * destruct (@match_at_edge_contiguous (Z.to_nat nobjs) minflag axis n
                    ny nz (where_label ny nz labs i) i (i + 1) labs nobjs)
          as [l1 [n1 [-> [H1 H2]]]]; [assumption | lia | lia |].
        cbn [bind].
        destruct (IH (i + 1) l1 n1) as [l' [n' [-> [H3 H4]]]];
          [assumption | lia | lia |].
        exists l', n'. repeat split; [apply H3 | apply H3 | lia].
      * cbn [bind].
        destruct (IH (i + 1) labs nobjs) as [l' [n' [-> [H3 H4]]]];
          [assumption | lia | lia |].
        exists l', n'. repeat split; [apply H3 | apply H3 | lia].
    + exists labs, nobjs. repeat split; [apply Hc | apply Hc | lia].
Qed.

Lemma find_objects_at_edge_contiguous (minflag : bool) (axis : nat)
      (n ny nz : Z) (labs : list Z) (nobjs : Z) :
  contiguous labs nobjs ->
  exists labs' nobjs',
    find_objects_at_edge minflag axis n ny nz labs nobjs
    = Ok (Some (labs', nobjs')) /\
    contiguous labs' nobjs'.
Proof.
  intros Hc. unfold find_objects_at_edge.
  destruct (@edge_loop_contiguous (Z.to_nat nobjs) minflag axis n ny nz
              0 labs nobjs) as [l' [n' [-> [H1 _]]]]; [assumption | lia | lia |].
  exists l', n'. split; [reflexivity | assumption].
Qed.

Lemma labelled_minus_one (labels : list Z) (K : Z) :
  labelled labels K -> contiguous (map (fun l => l - 1) labels) K.
Proof.
  intros [Hall Hocc]. split.
  - apply Forall_forall. intros l' Hl'. apply in_map_iff in Hl'.
    destruct Hl' as [l [<- Hl]]. rewrite Forall_forall in Hall.
    specialize (Hall l Hl). lia.
  - intros l Hl. apply in_map_iff. exists (l + 1). split; [lia|].
    apply Hocc. lia.
Qed.

Variable ndimage_label : Z * Z * Z -> list bool -> list Z * Z.

(** C9: whenever [ndimage.label] labels the mask as it promises, the
    labelling runs to its end and returns an array that holds only -1 and
    the labels 0..nobjects-1, each of them on at least one cell; and every
    merge of a higher label [j] into a lower label [i] keeps it so, with one
    object fewer. *)
Theorem label_3D_cyclic_contiguous (shape : Z * Z * Z) (mask : list bool)
        (Hlabel : labelled (fst (ndimage_label shape mask))
                           (snd (ndimage_label shape mask))) :
  (exists labs nobjects,
      label_3D_cyclic ndimage_label shape mask = Ok (Some (labs, nobjects)) /\
      contiguous labs nobjects) /\
  (forall labs nobjs i j,
      contiguous labs nobjs -> 0 <= i < j -> j < nobjs ->
      contiguous (fst (relabel labs nobjs i j)) (nobjs - 1) /\
      snd (relabel labs nobjs i j) = nobjs - 1).
Proof.
  split.
  - unfold label_3D_cyclic. destruct shape as [[nx ny] nz].
    destruct (ndimage_label (nx, ny, nz) mask) as [labels K].
    cbn [fst snd] in Hlabel. apply labelled_minus_one in Hlabel.
    destruct (find_objects_at_edge_contiguous true 0 nx ny nz Hlabel)
      as [l1 [n1 [-> H1]]].
    unfold and_then at 3. cbn [bind].
    destruct (find_objects_at_edge_contiguous false 0 nx ny nz H1)
      as [l2 [n2 [-> H2]]].
    unfold and_then at 2. cbn [bind].
    destruct (find_objects_at_edge_contiguous true 1 ny ny nz H2)
      as [l3 [n3 [-> H3]]].
    unfold and_then. cbn [bind].
    destruct (find_objects_at_edge_contiguous false 1 ny ny nz H3)
      as [l4 [n4 [-> H4]]].
    exists l4, n4. split; [reflexivity | assumption].
  - intros labs nobjs i j Hc Hi Hj.
    destruct (relabel_contiguous Hc Hi Hj) as [H1 H2].
    rewrite H2 in H1. split; assumption.
Qed.

End LabelProps.

Lemma label_3D_cyclic_contiguous_witness :
  exists labs nobjects,
    label_3D_cyclic label_4x3 (4, 3, 1)%Z mask_4x3 = Ok (Some (labs, nobjects)) /\
    contiguous labs nobjects.
Proof.
  refine (proj1 (@label_3D_cyclic_contiguous label_4x3 (4, 3, 1)%Z mask_4x3 _)).
  split.
  - cbn. repeat constructor; lia.
  - intros l Hl. cbn in Hl. cbn.
    assert (H : (l = 1 \/ l = 2 \/ l = 3)%Z) by lia.
    destruct H as [-> | [-> | ->]]; tauto.
Defined.

(** ** Interpolation between nodes *)

Section InterpMore.
Local Open Scope Q_scope.

Lemma searchsorted_left_ceiling (n s : nat) (x : Q) :
  searchsorted_left (map (fun k => inject_Z (Z.of_nat k)) (seq s n)) x
  = Z.max 0 (Z.min (Qceiling x - Z.of_nat s) (Z.of_nat n)).
Proof.
  revert s. induction n as [| n IH]; intros s.
  - simpl. lia.
  - cbn [seq map searchsorted_left].
    destruct (Qlt_le_dec (inject_Z (Z.of_nat s)) x) as [Hlt | Hle].
    + assert (Hc : (Z.of_nat s < Qceiling x)%Z).
      { rewrite Zlt_Qlt. eapply Qlt_le_trans; [exact Hlt | apply Qle_ceiling]. }
      rewrite IH. lia.
    + assert (Hc : (Qceiling x <= Z.of_nat s)%Z).
      { rewrite <- (Qceiling_Z (Z.of_nat s)). apply Qceiling_resp_le. exact Hle. }
      lia.
Qed.

Lemma whichbox_arange_ceiling (n : nat) (x : Q) :
  (1 <= n)%nat ->
  whichbox (arange n) x = Z.max 0 (Z.min (Qceiling x - 1) (Z.of_nat n - 1)).
Proof.
  intros Hn. unfold whichbox. rewrite length_arange.
  unfold arange. rewrite searchsorted_left_ceiling.
  destruct (_ >? _)%Z eqn:H1.
  - apply Z.gtb_lt in H1. lia.
  - destruct (_ <? _)%Z eqn:H2.
    + apply Z.ltb_lt in H2. lia.
    + apply Z.ltb_ge in H2. lia.
Qed.

(** X1: on the coordinate vector [arange(n)] the index [whichbox] returns is
    a valid index, and for [0 < x <= n - 1] it is the box the docstring
    describes: [xvec[ix] < x <= xvec[ix+1]]. *)
Theorem whichbox_brackets (n : nat) (x : Q) (Hn : (1 <= n)%nat) :
  let ix := whichbox (arange n) x in
  (0 <= ix <= Z.of_nat n - 1)%Z /\
  (0 < x -> x <= inject_Z (Z.of_nat n - 1) ->
   exists lo hi,
     py_nth (arange n) ix = Ok lo /\ py_nth (arange n) (ix + 1) = Ok hi /\
     lo < x /\ x <= hi).
Proof.
  cbv zeta. rewrite whichbox_arange_ceiling by assumption.
  split; [lia|]. intros Hpos Htop.
  assert (H1 : (1 <= Qceiling x)%Z).
  { assert (H : (0 < Qceiling x)%Z); [|lia].
    rewrite Zlt_Qlt. eapply Qlt_le_trans; [exact Hpos | apply Qle_ceiling]. }
  assert (H2 : (Qceiling x <= Z.of_nat n - 1)%Z).
  { rewrite <- (Qceiling_Z (Z.of_nat n - 1)). apply Qceiling_resp_le. exact Htop. }
  replace (Z.max 0 (Z.min (Qceiling x - 1) (Z.of_nat n - 1)))
    with (Qceiling x - 1)%Z by lia.
  exists (inject_Z (Qceiling x - 1)), (inject_Z (Qceiling x - 1 + 1)).
  rewrite !py_nth_arange by lia.
  split; [reflexivity|]. split; [reflexivity|]. split.
  - apply Qceiling_lt.
  - replace (Qceiling x - 1 + 1)%Z with (Qceiling x) by lia. apply Qle_ceiling.
Qed.

Lemma whichbox_brackets_witness :
  (1 <= 4)%nat /\
  let ix := whichbox (arange 4) (5 # 2) in
  (0 <= ix <= Z.of_nat 4 - 1)%Z /\
  (0 < 5 # 2 -> 5 # 2 <= inject_Z (Z.of_nat 4 - 1) ->
   exists lo hi,
     py_nth (arange 4) ix = Ok lo /\ py_nth (arange 4) (ix + 1) = Ok hi /\
     lo < 5 # 2 /\ 5 # 2 <= hi).
Proof.
  split; [lia|].
  exact (@whichbox_brackets 4 (5 # 2) ltac:(lia)).
Defined.

Lemma zbox_range (nz : nat) (z : Q) :
  (2 <= nz)%nat -> (0 <= zbox nz z /\ zbox nz z + 1 < Z.of_nat nz)%Z.
Proof.
  intros Hnz. unfold zbox. rewrite whichbox_arange_ceiling by lia.
  destruct (_ >? _)%Z eqn:E.
  - apply Z.gtb_lt in E. lia.
  - destruct (Z.gtb_spec (Z.max 0 (Z.min (Qceiling z - 1) (Z.of_nat nz - 1)))
                         (Z.of_nat nz - 2)); [discriminate | lia].
Qed.

Lemma accumulate_trilinear (f : field) (nx ny nz : nat) (lx ly lz : Z)
      (xp yp zp : Q) :
  has_shape f nx ny nz ->
  (0 < nx)%nat -> (0 < ny)%nat ->
  (0 <= lz)%Z -> (lz + 1 < Z.of_nat nz)%Z ->
  exists w d,
    (forall a b c, (0 <= c <= 1)%Z ->
       get3 f ((lx + a) mod Z.of_nat nx) ((ly + b) mod Z.of_nat ny) (lz + c)
       = Ok (d a b c)) /\
    accumulate f (Z.of_nat nx) (Z.of_nat ny) lx ly lz
               (1 - xp, xp) (1 - yp, yp) (1 - zp, zp) = Ok w /\
    w == trilinear d xp yp zp.
Proof.
  intros Hsh Hnx Hny Hlz0 Hlz1.
  set (d := fun a b c =>
              match get3 f ((lx + a) mod Z.of_nat nx)
                         ((ly + b) mod Z.of_nat ny) (lz + c) with
              | Ok v => v
              | Raise _ => 0
              end).
  assert (Hget : forall a b c, (0 <= c <= 1)%Z ->
            get3 f ((lx + a) mod Z.of_nat nx)
                 ((ly + b) mod Z.of_nat ny) (lz + c) = Ok (d a b c)).
  { intros a b c Hc. unfold d.
    destruct (@get3_in_shape f nx ny nz ((lx + a) mod Z.of_nat nx)
                ((ly + b) mod Z.of_nat ny) (lz + c)) as [v ->];
      [assumption | apply Z.mod_pos_bound; lia | apply Z.mod_pos_bound; lia
       | lia | reflexivity]. }
  eexists. exists d. split; [exact Hget|].
  unfold accumulate, corners. cbn [fold_left bind].
  rewrite !Hget by lia. cbn [bind].
  split; [reflexivity|].
  unfold weight, trilinear. cbn [Z.eqb fst snd Pos.eqb]. ring.
Qed.

Lemma tri_lin_interp1_trilinear (f : field) (nx ny nz : nat) (p : vec3) :
  has_shape f nx ny nz -> (1 <= nx)%nat -> (1 <= ny)%nat -> (2 <= nz)%nat ->
  let ix := whichbox (arange nx) (vx p) in
  let iy := whichbox (arange ny) (vy p) in
  let iz := zbox nz (vz p) in
  exists w d,
    (forall a b c, (0 <= c <= 1)%Z ->
       get3 f ((ix + a) mod Z.of_nat nx) ((iy + b) mod Z.of_nat ny) (iz + c)
       = Ok (d a b c)) /\
    tri_lin_interp1 (arange nx) (arange ny) (arange nz) f p = Ok w /\
    w == trilinear d (vx p - inject_Z ix) (vy p - inject_Z iy)
                   (vz p - inject_Z iz).
Proof.
  intros Hsh Hnx Hny Hnz. cbv zeta.
  destruct (zbox_range (vz p) Hnz) as [Hz0 Hz1].
  pose proof (whichbox_arange_ceiling (vx p) Hnx) as Hix.
  pose proof (whichbox_arange_ceiling (vy p) Hny) as Hiy.
  unfold tri_lin_interp1. rewrite !length_arange.
  fold (zbox nz (vz p)).
  set (ix := whichbox (arange nx) (vx p)) in *.
  set (iy := whichbox (arange ny) (vy p)) in *.
  set (iz := zbox nz (vz p)) in *.
  rewrite !py_nth_arange by lia. cbn [bind].
  destruct (fdiv_unit_step (vz p - inject_Z iz) iz) as [-> Hden]. cbn [bind].
  destruct (@accumulate_trilinear f nx ny nz ix iy iz
              ((vx p - inject_Z ix) / 1) ((vy p - inject_Z iy) / 1)
              ((vz p - inject_Z iz) / (inject_Z (iz + 1) - inject_Z iz)))
    as [w [d [Hd [Hacc Hw]]]]; try assumption; try lia.
  exists w, d. split; [exact Hd|]. split; [exact Hacc|].
  rewrite Hw. unfold trilinear. rewrite Hden. field.
Qed.

Lemma get3_constant (f : field) (c v : Q) (a b k : Z) :
  constant_field f c -> get3 f a b k = Ok v -> v == c.
Proof.
  unfold constant_field, get3, py_nth. intros Hc Hg.
  repeat match type of Hg with
         | context [if ?b then _ else _] => destruct b; [|discriminate]
         | context [nth_error ?l ?n] =>
             let E := fresh "E" in
             destruct (nth_error l n) eqn:E; [|discriminate];
             apply nth_error_In in E; cbn [bind] in Hg
         end.
  injection Hg as <-.
  rewrite Forall_forall in Hc. specialize (Hc _ E).
  rewrite Forall_forall in Hc. specialize (Hc _ E0).
  rewrite Forall_forall in Hc. exact (Hc _ E1).
Qed.

(** X2: on a grid with at least two vertical levels, interpolation to any
    positions whatever (inside or outside the grid) never fails, returns one
    value per field and position, and returns [c] everywhere for a field
    that is [c] everywhere: the eight weights always add up to one. *)
Theorem tri_lin_interp_total (data : list field) (pos : list vec3)
        (nx ny nz : nat)
        (Hshape : Forall (fun f => has_shape f nx ny nz) data)
        (Hnx : (1 <= nx)%nat) (Hny : (1 <= ny)%nat) (Hnz : (2 <= nz)%nat) :
  exists out,
    tri_lin_interp data pos (arange nx) (arange ny) (arange nz) = Ok out /\
    Forall2 (fun f o => length o = length pos /\
                        forall c, constant_field f c ->
                                  Forall (fun w => w == c) o) data out.
Proof.
  assert (Hone : forall f, has_shape f nx ny nz ->
            exists o,
              mapM (tri_lin_interp1 (arange nx) (arange ny) (arange nz) f) pos
              = Ok o /\ length o = length pos /\
              forall c, constant_field f c -> Forall (fun w => w == c) o).
  { intros f Hf. induction pos as [| p pos IH].
    - exists []. repeat split. intros; constructor.
    - destruct IH as [o [Ho [Hlen Hconst]]].
      destruct (tri_lin_interp1_trilinear p Hf Hnx Hny Hnz)
        as [w [d [Hd [Hw Hwd]]]].
      exists (w :: o). rewrite mapM_cons, Hw. cbn [bind]. rewrite Ho.
      split; [reflexivity|]. split; [cbn; congruence|].
      intros c Hc. constructor; [|apply Hconst; exact Hc].
      assert (Hall : forall a b k, (0 <= k <= 1)%Z -> d a b k == c).
      { intros a b k Hk. eapply get3_constant; [exact Hc | apply Hd; exact Hk]. }
      rewrite Hwd. unfold trilinear.
      rewrite (Hall 0 0 0)%Z, (Hall 0 0 1)%Z, (Hall 0 1 0)%Z, (Hall 0 1 1)%Z,
        (Hall 1 0 0)%Z, (Hall 1 0 1)%Z, (Hall 1 1 0)%Z, (Hall 1 1 1)%Z by lia.
      ring. }
  unfold tri_lin_interp. induction Hshape as [| f data Hf Hrest IH].
  - exists []. split; [reflexivity | constructor].
  - destruct IH as [out [Hout Hall]]. destruct (Hone f Hf) as [o [Ho Hprops]].
    exists (o :: out). rewrite mapM_cons, Ho. cbn [bind]. rewrite Hout.
    split; [reflexivity|]. constructor; assumption.
Qed.

Lemma tri_lin_interp_total_witness :
  exists out,
    tri_lin_interp [field_2x2x3] [(-3 # 2, 7, 1 # 3); (1, 1 # 2, 9)]
                   (arange 2) (arange 2) (arange 3) = Ok out /\
    Forall2 (fun f o => length o = 2%nat /\
                        forall c, constant_field f c ->
                                  Forall (fun w => w == c) o)
            [field_2x2x3] out.
Proof.
  apply (@tri_lin_interp_total [field_2x2x3]
           [(-3 # 2, 7, 1 # 3); (1, 1 # 2, 9)] 2 2 3).
  - repeat constructor.
  - lia.
  - lia.
  - lia.
Defined.

Lemma Qceiling_above_node (i : Z) (t : Q) :
  0 < t -> t <= 1 -> Qceiling (inject_Z i + t) = (i + 1)%Z.
Proof.
  intros H0 H1.
  assert (Hlo : (i < Qceiling (inject_Z i + t))%Z).
  { rewrite Zlt_Qlt. eapply Qlt_le_trans; [|apply Qle_ceiling]. lra. }
  assert (Hhi : (Qceiling (inject_Z i + t) <= i + 1)%Z).
  { rewrite <- (Qceiling_Z (i + 1)). apply Qceiling_resp_le.
    rewrite inject_Z_plus. change (inject_Z 1) with 1. lra. }
  lia.
Qed.

(** X3: between two neighbouring nodes along x, on a grid line through
    nodes in y and z, the interpolated value is the linear blend of the two
    node values; past the last node the partner is node 0 of the periodic
    axis. *)
Theorem tri_lin_interp_linear_in_x (f : field) (nx ny nz i j k : nat) (t : Q)
        (Hshape : has_shape f nx ny nz) (Hnz : (2 <= nz)%nat)
        (Hi : (i < nx)%nat) (Hj : (j < ny)%nat) (Hk : (k < nz)%nat)
        (Ht0 : 0 < t) (Ht1 : t <= 1) :
  exists w v0 v1,
    tri_lin_interp [f]
      [(inject_Z (Z.of_nat i) + t, inject_Z (Z.of_nat j), inject_Z (Z.of_nat k))]
      (arange nx) (arange ny) (arange nz) = Ok [[w]] /\
    get3 f (Z.of_nat i) (Z.of_nat j) (Z.of_nat k) = Ok v0 /\
    get3 f ((Z.of_nat i + 1) mod Z.of_nat nx) (Z.of_nat j) (Z.of_nat k) = Ok v1 /\
    w == (1 - t) * v0 + t * v1.
Proof.
  set (I := Z.of_nat i). set (J := Z.of_nat j). set (K := Z.of_nat k).
  destruct (@tri_lin_interp1_trilinear f nx ny nz
              (inject_Z I + t, inject_Z J, inject_Z K) Hshape)
    as [w [d [Hd [Hw Hwd]]]]; try lia.
  unfold vx, vy, vz in Hd, Hwd. cbn [fst snd] in Hd, Hwd.
  assert (Hix : whichbox (arange nx) (inject_Z I + t) = I).
  { rewrite whichbox_arange_ceiling, Qceiling_above_node by (assumption || lia).
    unfold I. lia. }
  assert (Hiy : whichbox (arange ny) (inject_Z J) = Z.max 0 (J - 1))
    by (apply whichbox_arange; unfold J; lia).
  assert (Hiz : zbox nz (inject_Z K) = Z.max 0 (K - 1)).
  { unfold zbox. rewrite whichbox_arange by (unfold K; lia).
    destruct (_ >? _)%Z eqn:E; [apply Z.gtb_lt in E; unfold K in *; lia|].
    reflexivity. }
  rewrite Hix, Hiy, Hiz in Hd, Hwd.
  set (ly := Z.max 0 (J - 1)) in *. set (lz := Z.max 0 (K - 1)) in *.
  assert (Hy : (J - ly = 0)%Z /\ inject_Z J - inject_Z ly == 0 \/
               (J - ly = 1)%Z /\ inject_Z J - inject_Z ly == 1)
    by (apply node_fraction; unfold J; lia).
  assert (Hz : (K - lz = 0)%Z /\ inject_Z K - inject_Z lz == 0 \/
               (K - lz = 1)%Z /\ inject_Z K - inject_Z lz == 1)
    by (apply node_fraction; unfold K; lia).
  assert (Hx : inject_Z I + t - inject_Z I == t) by ring.
  exists w, (d 0 (J - ly) (K - lz))%Z, (d 1 (J - ly) (K - lz))%Z.
  split; [|split; [|split]].
  - unfold tri_lin_interp. cbn [mapM]. fold I J K. rewrite Hw. reflexivity.
  - rewrite <- (Hd 0 (J - ly) (K - lz))%Z by lia.
    replace (I + 0)%Z with I by lia.
    replace (ly + (J - ly))%Z with J by lia.
    replace (lz + (K - lz))%Z with K by lia.
    rewrite !Z.mod_small by (unfold I, J; lia). reflexivity.
  - rewrite <- (Hd 1 (J - ly) (K - lz))%Z by lia.
    replace (ly + (J - ly))%Z with J by lia.
    replace (lz + (K - lz))%Z with K by lia.
    rewrite (Z.mod_small J) by (unfold J; lia). reflexivity.
  - rewrite Hwd. unfold trilinear. rewrite Hx.
    destruct Hy as [[-> Hy] | [-> Hy]], Hz as [[-> Hz] | [-> Hz]];
      rewrite Hy, Hz; ring.
Qed.

Lemma tri_lin_interp_linear_in_x_witness :
  exists w v0 v1,
    tri_lin_interp [field_2x2x3]
      [(inject_Z (Z.of_nat 1) + (1 # 4), inject_Z (Z.of_nat 1),
        inject_Z (Z.of_nat 2))]
      (arange 2) (arange 2) (arange 3) = Ok [[w]] /\
    get3 field_2x2x3 (Z.of_nat 1) (Z.of_nat 1) (Z.of_nat 2) = Ok v0 /\
    get3 field_2x2x3 ((Z.of_nat 1 + 1) mod Z.of_nat 2) (Z.of_nat 1)
         (Z.of_nat 2) = Ok v1 /\
    w == (1 - (1 # 4)) * v0 + (1 # 4) * v1.
Proof.
  apply (@tri_lin_interp_linear_in_x field_2x2x3 2 2 3 1 1 2 (1 # 4)).
  - repeat constructor.
  - lia.
  - lia.
  - lia.
  - lia.
  - reflexivity.
  - discriminate.
Defined.

End InterpMore.

(** ** The forward step and the assembly of a trajectory *)

Section AdvectionMore.
Local Open Scope Q_scope.

(** X4: for a sampled and a known coordinate that both lie in [[0, n)], the
    unwrapped difference is the shortest periodic separation: it lies in
    [[-n/2, n/2)] and is the plain difference or that difference shifted by
    one axis length. *)
Theorem unwrap_shortest_separation (n : Z) (a b : Q)
        (Ha : 0 <= a /\ a < inject_Z n) (Hb : 0 <= b /\ b < inject_Z n) :
  let u := unwrap n (a - b) in
  (- inject_Z n / 2 <= u /\ u < inject_Z n / 2) /\
  (u == a - b \/ u == a - b + inject_Z n \/ u == a - b - inject_Z n).
Proof.
  destruct Ha as [Ha0 Ha1], Hb as [Hb0 Hb1]. cbv zeta. unfold unwrap, Qgeb.
  assert (Hh1 : - inject_Z n / 2 == - (inject_Z n * (1 # 2))) by field.
  assert (Hh2 : inject_Z n / 2 == inject_Z n * (1 # 2)) by field.
  destruct (Qltb (a - b) (- inject_Z n / 2)) eqn:E1.
  - apply Qltb_true in E1. rewrite Hh1 in E1.
    destruct (Qltb (a - b + inject_Z n) (inject_Z n / 2)) eqn:E2; cbn [negb].
    + apply Qltb_true in E2. rewrite Hh1, Hh2 in *.
      split; [split; lra|]. right. left. reflexivity.
    + apply Qltb_false in E2. rewrite Hh2 in E2. exfalso. lra.
  - apply Qltb_false in E1. rewrite Hh1 in E1.
    destruct (Qltb (a - b) (inject_Z n / 2)) eqn:E2; cbn [negb].
    + apply Qltb_true in E2. rewrite Hh1, Hh2 in *.
      split; [split; lra|]. left. reflexivity.
    + apply Qltb_false in E2. rewrite Hh1, Hh2 in *.
      split; [split; lra|]. right. right. reflexivity.
Qed.

Lemma unwrap_shortest_separation_witness :
  (0 <= 1 # 2 /\ 1 # 2 < inject_Z 8) /\ (0 <= 15 # 2 /\ 15 # 2 < inject_Z 8) /\
  let u := unwrap 8 ((1 # 2) - (15 # 2)) in
  (- inject_Z 8 / 2 <= u /\ u < inject_Z 8 / 2) /\
  (u == (1 # 2) - (15 # 2) \/ u == (1 # 2) - (15 # 2) + inject_Z 8 \/
   u == (1 # 2) - (15 # 2) - inject_Z 8).
Proof.
  assert (Ha : 0 <= 1 # 2 /\ 1 # 2 < inject_Z 8) by (split; [discriminate | reflexivity]).
  assert (Hb : 0 <= 15 # 2 /\ 15 # 2 < inject_Z 8) by (split; [discriminate | reflexivity]).
  split; [exact Ha|]. split; [exact Hb|].
  exact (@unwrap_shortest_separation 8 (1 # 2) (15 # 2) Ha Hb).
Defined.

Variables nx ny nz : Z.
Variable sample : positions -> positions.
Variable rescue : positions -> positions -> nat -> vec3.

Lemma solve_iterations (fuel : nat) :
  forall traj_pos est niter cycle r,
    (0 <= niter)%Z -> (cycle = false -> niter <= max_iter + 1)%Z ->
    (cycle = true -> niter = max_iter + 1)%Z ->
    solve nx ny nz sample rescue fuel traj_pos est niter cycle = Ok (Some r) ->
    (niter <= iterations r <= max_iter + 1)%Z /\
    (cycle = false -> niter <= max_iter -> niter + 1 <= iterations r)%Z /\
    ((iterations r <= max_iter)%Z ->
     exists m, mag_diff (new_err r) = Ok m /\ max3 m <= errtol_iter).
Proof.
  induction fuel as [| fuel IH]; intros traj_pos est niter cycle r H0 Hf Ht Hs.
  - discriminate.
  - cbn [solve] in Hs.
    destruct (mag_diff _) as [m | e] eqn:Em; cbn [bind] in Hs; [|discriminate].
    destruct cycle.
    + injection Hs as <-. cbn [iterations new_err].
      specialize (Ht eq_refl). split; [lia|]. split; [discriminate|].
      intros; lia.
    + specialize (Hf eq_refl). unfold max_iter in *.
      destruct (niter <=? 30)%Z eqn:E.
      * apply Z.leb_le in E.
        destruct (negb (Qleb (max3 m) errtol_iter)) eqn:Ec.
        -- eapply IH in Hs; [ | lia | intros _; lia | discriminate].
           destruct Hs as [Hs1 [_ Hs2]].
           split; [lia|]. split; [intros; lia | exact Hs2].
        -- injection Hs as <-. cbn [iterations new_err]. split; [lia|].
           split; [intros; lia|].
           intros _. exists m. split; [exact Em|].
           apply negb_false_iff in Ec. apply Qleb_true in Ec. exact Ec.
      * apply Z.leb_gt in E.
        destruct (negb (Qleb (max3 m) errtol_iter)) eqn:Ec.
        -- eapply IH in Hs; [ | lia | discriminate | intros _; lia].
           destruct Hs as [Hs1 [_ Hs2]].
           split; [lia|]. split; [intros; lia | exact Hs2].
        -- injection Hs as <-. cbn [iterations new_err]. split; [lia|].
           split; intros; lia.
Qed.

(** X5: a forward step makes between 1 and [max_iter + 1] relaxation
    updates, and when it stops before the cap the error it last computed
    (the maximum of [mag_diff]) is within [errtol_iter]. *)
Theorem forward_step_iteration_bound (trajectory : list positions)
        (r : step_result)
        (Hr : forward_trajectory_step nx ny nz sample rescue trajectory
              = Ok (Some r)) :
  (1 <= iterations r <= max_iter + 1)%Z /\
  ((iterations r <= max_iter)%Z ->
   exists m, mag_diff (new_err r) = Ok m /\ max3 m <= errtol_iter).
Proof.
  unfold forward_trajectory_step in Hr.
  destruct (py_nth trajectory (-1)) as [traj_pos | e]; cbn [bind] in Hr;
    [|discriminate].
  destruct (traj_pos_next_est_init trajectory) as [est | e]; cbn [bind] in Hr;
    [|discriminate].
  eapply solve_iterations in Hr;
    [ | lia | intros _; unfold max_iter; lia | discriminate].
  destruct Hr as [H1 [H2 H3]].
  specialize (H2 eq_refl ltac:(unfold max_iter; lia)).
  split; [lia | exact H3].
Qed.

Lemma py_nth_short {A : Type} (l : list A) (i : Z) :
  (Z.of_nat (length l) <= i)%Z -> py_nth l i = Raise IndexError.
Proof.
  intros Hi. unfold py_nth.
  destruct (i <? 0)%Z eqn:E; [apply Z.ltb_lt in E; lia|].
  destruct (0 <=? i)%Z; cbn [andb]; [|reflexivity].
  destruct (i <? Z.of_nat (length l))%Z eqn:E2; [apply Z.ltb_lt in E2; lia|].
  reflexivity.
Qed.

Lemma py_nth_error_is_index {A : Type} (l : list A) (i : Z) (e : exn) :
  py_nth l i = Raise e -> e = IndexError.
Proof.
  unfold py_nth. destruct (_ && _)%bool; [destruct (nth_error _ _)|];
    congruence.
Qed.

Lemma mag_diff_short (diff : positions) :
  (length diff < 3)%nat -> mag_diff diff = Raise IndexError.
Proof.
  intros Hl. unfold mag_diff.
  destruct (py_nth diff 0) as [r0 | e] eqn:E0; cbn [bind];
    [| f_equal; eapply py_nth_error_is_index; exact E0].
  destruct (py_nth diff 1) as [r1 | e] eqn:E1; cbn [bind];
    [| f_equal; eapply py_nth_error_is_index; exact E1].
  rewrite py_nth_short by lia. reflexivity.
Qed.

(** X6: whatever the position field, a forward step on fewer than three
    particles raises [IndexError]: the error norm reads rows 0, 1 and 2 of
    the difference array. *)
Theorem forward_step_needs_three_particles (trajectory : list positions)
        (Hfew : forall traj_pos, py_nth trajectory (-1) = Ok traj_pos ->
                                 (length traj_pos < 3)%nat) :
  forward_trajectory_step nx ny nz sample rescue trajectory = Raise IndexError.
Proof.
  unfold forward_trajectory_step.
  destruct (py_nth trajectory (-1)) as [traj_pos | e] eqn:E; cbn [bind];
    [| f_equal; eapply py_nth_error_is_index; exact E].
  specialize (Hfew traj_pos eq_refl).
  unfold traj_pos_next_est_init.
  destruct (py_nth trajectory 0) as [t0 | e] eqn:E0; cbn [bind];
    [| f_equal; eapply py_nth_error_is_index; exact E0].
  destruct (py_nth trajectory 1) as [t1 | e] eqn:E1; cbn [bind];
    [| f_equal; eapply py_nth_error_is_index; exact E1].
  change solve_fuel with (S 32). cbn [solve]. rewrite mag_diff_short; [reflexivity|].
  unfold arr_sub. rewrite !length_map, length_combine. lia.
Qed.

End AdvectionMore.

Lemma forward_step_iteration_bound_witness :
  exists r,
    forward_trajectory_step 8 8 8 static_sample keep_rescue traj_four
    = Ok (Some r) /\
    (1 <= iterations r <= max_iter + 1)%Z /\
    ((iterations r <= max_iter)%Z ->
     exists m, mag_diff (new_err r) = Ok m /\ (max3 m <= errtol_iter)%Q).
Proof.
  eexists. split; [vm_compute; reflexivity|].
  apply (@forward_step_iteration_bound 8 8 8 static_sample keep_rescue traj_four).
  vm_compute. reflexivity.
Defined.

Lemma forward_step_needs_three_particles_witness :
  forward_trajectory_step 8 8 8 static_sample keep_rescue traj_two
  = Raise IndexError.
Proof.
  apply forward_step_needs_three_particles.
  intros traj_pos H. vm_compute in H. injection H as <-. cbn. lia.
Defined.

(** ** Assembling a trajectory *)

Section SequencerProps.
Local Open Scope Q_scope.

Lemma zeros_like_all_zero (a : positions) : all_zero (zeros_like a).
Proof.
  unfold all_zero, zeros_like. apply Forall_forall. intros v Hv.
  apply in_map_iff in Hv. destruct Hv as [x [<- _]]. reflexivity.
Qed.

Lemma back_steps_prepend (levels : list level) :
  forall (st : traj_state) (ref_index : Z),
    s_trajectory st <> [] ->
    exists news zs ts,
      back_steps levels st ref_index
      = Ok ({| s_trajectory := news ++ s_trajectory st;
               s_traj_error := zs ++ s_traj_error st;
               s_traj_times := ts ++ s_traj_times st |},
            (ref_index + Z.of_nat (length levels))%Z) /\
      length news = length levels /\ length zs = length levels /\
      length ts = length levels /\ Forall all_zero zs.
Proof.
  induction levels as [| [[smp rsc] time] rest IH]; intros st ref_index Hne.
  - exists [], [], []. cbn. rewrite Z.add_0_r. destruct st. repeat split.
    constructor.
  - cbn [back_steps]. unfold back_trajectory_step.
    destruct (s_trajectory st) as [| p0 tr] eqn:Etr; [contradiction|].
    change (py_nth (p0 :: tr) 0) with (Ok (A := positions) p0). cbn [bind].
    destruct (IH {| s_trajectory := smp p0 :: p0 :: tr;
                    s_traj_error := zeros_like (smp p0) :: s_traj_error st;
                    s_traj_times := time :: s_traj_times st |}
                 (ref_index + 1)%Z) as [news [zs [ts [Hb [H1 [H2 [H3 H4]]]]]]];
      [discriminate|].
    exists (news ++ [smp p0]), (zs ++ [zeros_like (smp p0)]), (ts ++ [time]).
    rewrite Hb. cbn [s_trajectory s_traj_error s_traj_times].
    rewrite <- !app_assoc. cbn [app length].
    split; [f_equal; f_equal; lia|].
    rewrite !length_app. cbn [length].
    repeat split; try lia.
    apply Forall_app. split; [assumption|].
    constructor; [apply zeros_like_all_zero | constructor].
Qed.

Lemma forward_steps_append (nx ny nz : Z) (levels : list level) :
  forall (st st' : traj_state),
    forward_steps nx ny nz levels st = Ok (Some st') ->
    exists ps es ts,
      s_trajectory st' = s_trajectory st ++ ps /\
      s_traj_error st' = s_traj_error st ++ es /\
      s_traj_times st' = s_traj_times st ++ ts /\
      length ps = length levels /\ length es = length levels /\
      length ts = length levels.
Proof.
  induction levels as [| [[smp rsc] time] rest IH]; intros st st' H.
  - cbn in H. injection H as <-. exists [], [], [].
    rewrite !app_nil_r. repeat split.
  - cbn [forward_steps] in H. unfold forward_step_state in H.
    destruct (forward_trajectory_step nx ny nz smp rsc (s_trajectory st))
      as [[r |] | e]; cbn [bind] in H; try discriminate.
    apply IH in H. cbn [s_trajectory s_traj_error s_traj_times] in H.
    destruct H as [ps [es [ts [H1 [H2 [H3 [H4 [H5 H6]]]]]]]].
    exists (new_pos r :: ps), (new_err r :: es), (time :: ts).
    rewrite H1, H2, H3, <- !app_assoc. cbn [app length].
    repeat split; lia.
Qed.

(** X7: when the backward and forward loops complete, the arrays
    [compute_trajectories] returns are in step: each has one entry per time
    level visited, [ref_index] is the number of backward steps, entry
    [ref_index] of the trajectory is the array of reference positions and
    that of the times is the reference time, and the error estimates of the
    reference step and of every earlier step are arrays of zeros. *)
Theorem assemble_trajectories_in_step
        (nx ny nz : Z) (ref_level : level) (traj_pos : positions)
        (back forward : list level)
        (tr err : list positions) (times : list Q) (ref_index : Z)
        (Hrun : assemble_trajectories nx ny nz ref_level traj_pos back forward
                = Ok (Some (tr, err, times, ref_index))) :
  ref_index = Z.of_nat (length back) /\
  length tr = (1 + length back + length forward)%nat /\
  length err = length tr /\ length times = length tr /\
  nth_error tr (length back) = Some traj_pos /\
  nth_error times (length back) = Some (snd ref_level) /\
  (forall i e, (i <= length back)%nat -> nth_error err i = Some e -> all_zero e).
Proof.
  unfold assemble_trajectories in Hrun.
  destruct ref_level as [[smp rsc] time]. cbn [snd].
  destruct (@back_steps_prepend back (trajectory_init smp time traj_pos) 0)
    as [news [zs [ts [Hb [H1 [H2 [H3 H4]]]]]]]; [discriminate|].
  rewrite Hb in Hrun. cbn [bind] in Hrun.
  destruct (forward_steps nx ny nz forward _) as [[st' |] | e] eqn:Ef;
    cbn [bind] in Hrun; try discriminate.
  apply forward_steps_append in Ef.
  cbn [s_trajectory s_traj_error s_traj_times trajectory_init] in Ef.
  destruct Ef as [ps [es [fs [E1 [E2 [E3 [L1 [L2 L3]]]]]]]].
  injection Hrun as <- <- <- <-. rewrite E1, E2, E3.
  assert (Htr : drop_first ((news ++ [smp traj_pos; traj_pos]) ++ ps)
                = (tl (news ++ [smp traj_pos])) ++ traj_pos :: ps).
  { destruct news as [| n0 news]; cbn; [reflexivity|].
    rewrite <- !app_assoc. reflexivity. }
  assert (Herr : drop_first
                   ((zs ++ [zeros_like (smp traj_pos); zeros_like traj_pos]) ++ es)
                 = (tl (zs ++ [zeros_like (smp traj_pos)]) ++ [zeros_like traj_pos])
                     ++ es).
  { destruct zs as [| z0 zs]; cbn; [reflexivity|].
    rewrite <- !app_assoc. reflexivity. }
  assert (Ltl : forall (A : Type) (l : list A) (x : A),
             length (tl (l ++ [x])) = length l).
  { intros A l x. destruct l; cbn; [reflexivity|].
    rewrite length_app. cbn. lia. }
  rewrite Htr, Herr.
  split; [lia|].
  split; [rewrite length_app, Ltl; cbn [length]; lia|].
  split; [rewrite !length_app, !Ltl; cbn [length]; lia|].
  split; [rewrite !length_app, !Ltl; cbn [length]; lia|].
  split; [rewrite nth_error_app2 by (rewrite Ltl; lia);
          rewrite Ltl, H1, Nat.sub_diag; reflexivity|].
  split; [rewrite <- app_assoc, nth_error_app2 by lia;
          rewrite H3, Nat.sub_diag; reflexivity|].
  intros i e Hi He.
  rewrite nth_error_app1 in He
    by (rewrite length_app, Ltl; cbn [length]; lia).
  apply nth_error_In in He. apply in_app_or in He.
  destruct He as [He | [<- | []]]; [|apply zeros_like_all_zero].
  assert (Hin : In e (zs ++ [zeros_like (smp traj_pos)])).
  { destruct zs; cbn in He |- *; [contradiction | right; exact He]. }
  apply in_app_or in Hin. destruct Hin as [Hin | [<- | []]].
  - rewrite Forall_forall in H4. apply H4. exact Hin.
  - apply zeros_like_all_zero.
Qed.

End SequencerProps.

Lemma assemble_trajectories_in_step_witness :
  exists tr err times ref_index,
    assemble_trajectories 8 8 8 (static_sample, keep_rescue, 10%Q)
      [(1, 1, 1); (2, 2, 2); (3, 3, 3)]%Q
      [(static_sample, keep_rescue, 9%Q); (static_sample, keep_rescue, 8%Q)]
      [(static_sample, keep_rescue, 11%Q)]
    = Ok (Some (tr, err, times, ref_index)) /\
    ref_index = 2%Z /\ length tr = 4%nat /\
    nth_error tr 2 = Some [(1, 1, 1); (2, 2, 2); (3, 3, 3)]%Q /\
    nth_error times 2 = Some 10%Q.
Proof.
  do 4 eexists. split; [vm_compute; reflexivity|].
  pose proof (@assemble_trajectories_in_step 8 8 8
                (static_sample, keep_rescue, 10%Q)
                [(1, 1, 1); (2, 2, 2); (3, 3, 3)]%Q
                [(static_sample, keep_rescue, 9%Q);
                 (static_sample, keep_rescue, 8%Q)]
                [(static_sample, keep_rescue, 11%Q)]
                _ _ _ _ eq_refl) as [H1 [H2 [_ [_ [H5 [H6 _]]]]]].
  repeat split; assumption.
Defined.

(** ** Decoding interpolated phase vectors *)

Section ExtractProps.
Local Open Scope R_scope.

Lemma arctan2_scale (c y x : R) :
  0 < c -> arctan2 (c * y) (c * x) = arctan2 y x.
Proof.
  intros Hc. unfold arctan2.
  assert (Hdiv : x <> 0 -> c * y / (c * x) = y / x)
    by (intros Hx; field; split; Lra.lra).
  destruct (Rlt_dec 0 x) as [Hx | Hx].
  - destruct (Rlt_dec 0 (c * x)) as [_ | Hn]; [|exfalso; Lra.nra].
    rewrite Hdiv by Lra.lra. reflexivity.
  - destruct (Rlt_dec 0 (c * x)) as [Hn | _]; [exfalso; Lra.nra|].
    destruct (Rlt_dec x 0) as [Hx' | Hx'].
    + destruct (Rlt_dec (c * x) 0) as [_ | Hn]; [|exfalso; Lra.nra].
      rewrite Hdiv by Lra.lra.
      destruct (Rle_dec 0 y) as [Hy | Hy];
        destruct (Rle_dec 0 (c * y)) as [Hy' | Hy']; try reflexivity;
        exfalso; Lra.nra.
    + destruct (Rlt_dec (c * x) 0) as [Hn | _]; [exfalso; Lra.nra|].
      destruct (Rlt_dec 0 y) as [Hy | Hy];
        destruct (Rlt_dec 0 (c * y)) as [Hy' | Hy']; try reflexivity;
        try (exfalso; Lra.nra).
      destruct (Rlt_dec y 0) as [Hy2 | Hy2];
        destruct (Rlt_dec (c * y) 0) as [Hy3 | Hy3]; try reflexivity;
        exfalso; Lra.nra.
Qed.

(** X8: decoding depends on the direction of the vector only: scaling both
    components by the same positive factor, as interpolation between unit
    vectors does, leaves every decoded position unchanged. *)
Theorem phase_scale_invariant (c : R) (vr vi : list R) (n : Z) (Hc : 0 < c) :
  phase (map (Rmult c) vr) (map (Rmult c) vi) n = phase vr vi n.
Proof.
  unfold phase. revert vi. induction vr as [| r vr IH]; intros vi.
  - reflexivity.
  - destruct vi as [| i vi]; [reflexivity|].
    cbn [map combine fst snd]. rewrite IH. f_equal.
    unfold phase_elem. rewrite arctan2_scale by assumption. reflexivity.
Qed.

Lemma phase_scale_invariant_witness :
  0 < / 2 /\
  phase (map (Rmult (/ 2)) [1; 0; -1]) (map (Rmult (/ 2)) [0; 1; 0]) 8
  = phase [1; 0; -1] [0; 1; 0] 8.
Proof.
  assert (H : 0 < / 2) by Lra.lra.
  split; [exact H|].
  exact (@phase_scale_invariant (/ 2) [1; 0; -1] [0; 1; 0] 8 H).
Defined.

Lemma rows3_spec (a b c : list R) :
  forall pos, rows3 a b c = Ok pos ->
    map (fun p => fst (fst p)) pos = a /\
    map (fun p => snd (fst p)) pos = b /\
    map (fun p => snd p) pos = c.
Proof.
  revert b c. induction a as [| x a IH]; intros b c pos H.
  - destruct b, c; try discriminate. injection H as <-. repeat split.
  - destruct b as [| y b], c as [| z c]; try discriminate.
    cbn [rows3] in H. destruct (rows3 a b c) as [r |] eqn:E; [|discriminate].
    cbn [bind] in H. injection H as <-.
    destruct (IH b c r E) as [H1 [H2 H3]]. cbn. rewrite H1, H2, H3.
    repeat split.
Qed.



End ExtractProps.

(** ** What the periodic merges keep *)

Section LabelMore.
Local Open Scope Z_scope.

Ltac cases_Z' :=
  repeat match goal with
         | |- context [(?a =? ?b)%Z] => destruct (Z.eqb_spec a b)
         | |- context [(?a <=? ?b)%Z] => destruct (Z.leb_spec a b)
         | |- context [(?a <? ?b)%Z] => destruct (Z.ltb_spec a b)
         end; cbn [andb]; try lia.

Lemma relabelling_id (n : Z) : relabelling (fun l => l) n n.
Proof. split; [lia|]. intros l Hl. lia. Qed.

Lemma relabelling_compose (g1 g2 : Z -> Z) (n n1 n2 : Z) :
  relabelling g1 n n1 -> relabelling g2 n1 n2 ->
  relabelling (fun l => g2 (g1 l)) n n2.
Proof.
  intros [H1 P1] [H2 P2]. split; [lia|]. intros l Hl.
  destruct (P1 l Hl) as [R1 [U1 T1]].
  destruct (P2 (g1 l) R1) as [R2 [U2 T2]].
  split; [exact R2|]. split.
  - rewrite U2. exact U1.
  - rewrite T2. exact T1.
Qed.

Lemma relabel_relabelling (labs : list Z) (nobjs i j : Z) :
  0 <= i < j -> j < nobjs - 1 ->
  exists g, fst (relabel labs nobjs i j) = map g labs /\
            snd (relabel labs nobjs i j) = nobjs - 1 /\
            relabelling g nobjs (nobjs - 1).
Proof.
  intros Hi Hj. rewrite relabel_map by lia. cbn [fst snd].
  eexists. split; [reflexivity|]. split; [reflexivity|].
  split; [lia|]. intros l Hl. cbv zeta. cases_Z'.
Qed.

Lemma match_at_edge_relabelling (fuel : nat) (minflag : bool) (axis : nat)
      (n ny nz : Z) (posi : list (Z * Z * Z)) (i : Z) :
  forall (j : Z) (labs : list Z) (nobjs : Z) (labs' : list Z) (nobjs' : Z),
    0 <= i < j ->
    match_at_edge fuel minflag axis n ny nz posi i j labs nobjs
    = Ok (Some (labs', nobjs')) ->
    exists g, labs' = map g labs /\ relabelling g nobjs nobjs'.
Proof.
  induction fuel as [| fuel IH]; intros j labs nobjs labs' nobjs' Hij H.
  - cbn [match_at_edge] in H. destruct (j <? nobjs - 1); [discriminate|].
    injection H as <- <-. exists (fun l => l).
    split; [symmetry; apply map_id | apply relabelling_id].
  - cbn [match_at_edge] in H.
    destruct (Z.ltb_spec j (nobjs - 1)) as [Hlt | Hge].
    + destruct (at_border _ _ _ _) as [test2 | e]; cbn [bind] in H;
        [|discriminate].
      destruct (@relabel_relabelling labs nobjs i j) as [g [Hg1 [Hg2 Hg3]]];
        [lia | lia |].
      destruct (relabel labs nobjs i j) as [labsr nobjsr].
      cbn [fst snd] in Hg1, Hg2. subst labsr nobjsr.
      assert (Hkeep : forall l' n',
                 match_at_edge fuel minflag axis n ny nz posi i (j + 1)
                               labs nobjs = Ok (Some (l', n')) ->
                 exists g0, l' = map g0 labs /\ relabelling g0 nobjs n').
      { intros l' n' H'. apply IH in H'; [exact H' | lia]. }
      destruct test2;
        [destruct (common _ _); [destruct (common _ _)|]|];
        try (apply Hkeep; exact H).
      apply IH in H; [|lia]. destruct H as [g2 [-> Hg']].
      exists (fun l => g2 (g l)). split; [apply map_map|].
      eapply relabelling_compose; eassumption.
    + injection H as <- <-. exists (fun l => l).
      split; [symmetry; apply map_id | apply relabelling_id].
Qed.

Lemma edge_loop_relabelling (fuel : nat) (minflag : bool) (axis : nat)
      (n ny nz : Z) :
  forall (i : Z) (labs : list Z) (nobjs : Z) (labs' : list Z) (nobjs' : Z),
    0 <= i ->
    edge_loop fuel minflag axis n ny nz i labs nobjs = Ok (Some (labs', nobjs')) ->
    exists g, labs' = map g labs /\ relabelling g nobjs nobjs'.
Proof.
  induction fuel as [| fuel IH]; intros i labs nobjs labs' nobjs' Hi H.
  - cbn [edge_loop] in H. destruct (i <? nobjs - 2); [discriminate|].
    injection H as <- <-. exists (fun l => l).
    split; [symmetry; apply map_id | apply relabelling_id].
  - cbn [edge_loop] in H.
    destruct (i <? nobjs - 2).
    + destruct (at_border _ _ _ _) as [test1 | e]; cbn [bind] in H;
        [|discriminate].
      destruct test1.
      * destruct (match_at_edge _ _ _ _ _ _ _ _ _ _ _) as [[[l1 n1] |] | e]
          eqn:Em; cbn [bind] in H; try discriminate.
        apply match_at_edge_relabelling in Em; [|lia].
        destruct Em as [g1 [-> Hg1]].
        apply IH in H; [|lia]. destruct H as [g2 [-> Hg2]].
        exists (fun l => g2 (g1 l)). split; [apply map_map|].
        eapply relabelling_compose; eassumption.
      * cbn [bind] in H. apply IH in H; [exact H | lia].
    + injection H as <- <-. exists (fun l => l).
      split; [symmetry; apply map_id | apply relabelling_id].
Qed.

Lemma and_then_relabelling (r : res (option (list Z * Z)))
      (k : list Z -> Z -> res (option (list Z * Z)))
      (labs0 : list Z) (n0 : Z) (labs' : list Z) (n' : Z) :
  (forall l1 n1, r = Ok (Some (l1, n1)) ->
                 exists g, l1 = map g labs0 /\ relabelling g n0 n1) ->
  (forall l1 n1 l2 n2, k l1 n1 = Ok (Some (l2, n2)) ->
                       exists g, l2 = map g l1 /\ relabelling g n1 n2) ->
  and_then r k = Ok (Some (labs', n')) ->
  exists g, labs' = map g labs0 /\ relabelling g n0 n'.
Proof.
  intros Hr Hk H. unfold and_then in H.
  destruct r as [[[l1 n1] |] | e]; cbn [bind] in H; try discriminate.
  destruct (Hr l1 n1 eq_refl) as [g1 [-> Hg1]].
  destruct (Hk _ _ _ _ H) as [g2 [-> Hg2]].
  exists (fun l => g2 (g1 l)). split; [apply map_map|].
  eapply relabelling_compose; eassumption.
Qed.

Variable ndimage_label : Z * Z * Z -> list bool -> list Z * Z.

(** X10: the periodic merges only rename labels.  The result is the
    labelling of [ndimage.label] under a map of labels: a cell is unlabelled
    (-1) exactly where [ndimage.label] gave 0, two cells of one component
    stay in one object, and there are never more objects than components. *)
Theorem label_3D_cyclic_renames (shape : Z * Z * Z) (mask : list bool)
        (Hlabel : labelled (fst (ndimage_label shape mask))
                           (snd (ndimage_label shape mask))) :
  exists labs nobjects g,
    label_3D_cyclic ndimage_label shape mask = Ok (Some (labs, nobjects)) /\
    labs = map g (fst (ndimage_label shape mask)) /\
    nobjects <= snd (ndimage_label shape mask) /\
    forall l, In l (fst (ndimage_label shape mask)) ->
              (g l = -1 <-> l = 0) /\ -1 <= g l < nobjects.
Proof.
  pose proof Hlabel as [Hrange _].
  unfold label_3D_cyclic. destruct shape as [[nx ny] nz].
  destruct (ndimage_label (nx, ny, nz) mask) as [labels K].
  cbn [fst snd] in *. apply labelled_minus_one in Hlabel.
  destruct (find_objects_at_edge_contiguous true 0 nx ny nz Hlabel)
    as [l1 [n1 [E1 H1]]].
  destruct (find_objects_at_edge_contiguous false 0 nx ny nz H1)
    as [l2 [n2 [E2 H2]]].
  destruct (find_objects_at_edge_contiguous true 1 ny ny nz H2)
    as [l3 [n3 [E3 H3]]].
  destruct (find_objects_at_edge_contiguous false 1 ny ny nz H3)
    as [l4 [n4 [E4 H4]]].
  assert (Hpass : forall mf ax n la na lb nb,
             find_objects_at_edge mf ax n ny nz la na = Ok (Some (lb, nb)) ->
             exists g, lb = map g la /\ relabelling g na nb).
  { intros mf ax n la na lb nb H. unfold find_objects_at_edge in H.
    apply edge_loop_relabelling in H; [exact H | lia]. }
  destruct (Hpass _ _ _ _ _ _ _ E1) as [g1 [-> G1]].
  destruct (Hpass _ _ _ _ _ _ _ E2) as [g2 [-> G2]].
  destruct (Hpass _ _ _ _ _ _ _ E3) as [g3 [-> G3]].
  destruct (Hpass _ _ _ _ _ _ _ E4) as [g4 [-> G4]].
  rewrite E1. unfold and_then at 3. cbn [bind]. rewrite E2.
  unfold and_then at 2. cbn [bind]. rewrite E3.
  unfold and_then. cbn [bind]. rewrite E4.
  pose proof (relabelling_compose
                (relabelling_compose (relabelling_compose G1 G2) G3) G4)
    as [Hle G].
  eexists. exists n4, (fun l => g4 (g3 (g2 (g1 (l - 1))))).
  split; [reflexivity|]. split; [rewrite !map_map; reflexivity|].
  split; [exact Hle|]. intros l Hl.
  rewrite Forall_forall in Hrange. specialize (Hrange l Hl).
  destruct (G (l - 1)) as [R [U _]]; [lia|].
  split; [rewrite U; lia | exact R].
Qed.

(** X11: the object with the highest label is never merged: the cells of
    the last component [ndimage.label] found are exactly the cells of the
    last object of the result, also when that component touches another one
    across a periodic boundary. *)
Theorem label_3D_cyclic_last_object_kept (shape : Z * Z * Z) (mask : list bool)
        (Hlabel : labelled (fst (ndimage_label shape mask))
                           (snd (ndimage_label shape mask))) :
  exists labs nobjects,
    label_3D_cyclic ndimage_label shape mask = Ok (Some (labs, nobjects)) /\
    map (fun l => l =? nobjects - 1) labs
    = map (fun l => l =? snd (ndimage_label shape mask))
          (fst (ndimage_label shape mask)).
Proof.
  pose proof Hlabel as [Hrange _].
  unfold label_3D_cyclic. destruct shape as [[nx ny] nz].
  destruct (ndimage_label (nx, ny, nz) mask) as [labels K].
  cbn [fst snd] in *. apply labelled_minus_one in Hlabel.
  destruct (find_objects_at_edge_contiguous true 0 nx ny nz Hlabel)
    as [l1 [n1 [E1 H1]]].
  destruct (find_objects_at_edge_contiguous false 0 nx ny nz H1)
    as [l2 [n2 [E2 H2]]].
  destruct (find_objects_at_edge_contiguous true 1 ny ny nz H2)
    as [l3 [n3 [E3 H3]]].
  destruct (find_objects_at_edge_contiguous false 1 ny ny nz H3)
    as [l4 [n4 [E4 H4]]].
  assert (Hpass : forall mf ax n la na lb nb,
             find_objects_at_edge mf ax n ny nz la na = Ok (Some (lb, nb)) ->
             exists g, lb = map g la /\ relabelling g na nb).
  { intros mf ax n la na lb nb H. unfold find_objects_at_edge in H.
    apply edge_loop_relabelling in H; [exact H | lia]. }
  destruct (Hpass _ _ _ _ _ _ _ E1) as [g1 [-> G1]].
  destruct (Hpass _ _ _ _ _ _ _ E2) as [g2 [-> G2]].
  destruct (Hpass _ _ _ _ _ _ _ E3) as [g3 [-> G3]].
  destruct (Hpass _ _ _ _ _ _ _ E4) as [g4 [-> G4]].
  rewrite E1. unfold and_then at 3. cbn [bind]. rewrite E2.
  unfold and_then at 2. cbn [bind]. rewrite E3.
  unfold and_then. cbn [bind]. rewrite E4.
  pose proof (relabelling_compose
                (relabelling_compose (relabelling_compose G1 G2) G3) G4)
    as [Hle G].
  eexists. exists n4. split; [reflexivity|].
  rewrite !map_map. apply map_ext_in. intros l Hl.
  rewrite Forall_forall in Hrange. specialize (Hrange l Hl).
  destruct (G (l - 1)) as [_ [_ T]]; [lia|].
  destruct (Z.eqb_spec (g4 (g3 (g2 (g1 (l - 1))))) (n4 - 1)) as [Ey | En];
    destruct (Z.eqb_spec l K) as [El | Enl]; try reflexivity.
  - apply T in Ey. lia.
  - exfalso. apply En. apply T. lia.
Qed.

End LabelMore.

Lemma label_3D_cyclic_renames_witness :
  exists labs nobjects g,
    label_3D_cyclic label_4x3 (4, 3, 1)%Z mask_4x3 = Ok (Some (labs, nobjects)) /\
    labs = map g (fst (label_4x3 (4, 3, 1)%Z mask_4x3)) /\
    (nobjects <= snd (label_4x3 (4, 3, 1)%Z mask_4x3))%Z /\
    forall l, In l (fst (label_4x3 (4, 3, 1)%Z mask_4x3)) ->
              (g l = -1 <-> l = 0)%Z /\ (-1 <= g l < nobjects)%Z.
Proof.
  apply (@label_3D_cyclic_renames label_4x3 (4, 3, 1)%Z mask_4x3).
  split.
  - cbn. repeat constructor; lia.
  - intros l Hl. cbn in Hl. cbn.
    assert (H : (l = 1 \/ l = 2 \/ l = 3)%Z) by lia.
    destruct H as [-> | [-> | ->]]; tauto.
Defined.

Lemma label_3D_cyclic_last_object_kept_witness :
  exists labs nobjects,
    label_3D_cyclic label_4x1 (4, 1, 1)%Z mask_4x1 = Ok (Some (labs, nobjects)) /\
    map (fun l => (l =? nobjects - 1)%Z) labs
    = map (fun l => (l =? snd (label_4x1 (4, 1, 1)%Z mask_4x1))%Z)
          (fst (label_4x1 (4, 1, 1)%Z mask_4x1)).
Proof.
  apply (@label_3D_cyclic_last_object_kept label_4x1 (4, 1, 1)%Z mask_4x1).
  split.
  - cbn. repeat constructor; lia.
  - intros l Hl. cbn in Hl. cbn.
    assert (H : (l = 1 \/ l = 2)%Z) by lia.
    destruct H as [-> | ->]; tauto.
Defined.

(** ** More on boxes and object overlap *)

Section OverlapMore.
Local Open Scope Q_scope.

Lemma interval_tests_sym (t0 t1 s0 s1 : Q) :
  t0 <= t1 -> s0 <= s1 ->
  interval_tests t0 t1 s0 s1 = interval_tests s0 s1 t0 t1.
Proof.
  intros Ht Hs.
  destruct (interval_tests t0 t1 s0 s1) eqn:E1;
    destruct (interval_tests s0 s1 t0 t1) eqn:E2; try reflexivity.
  - apply interval_tests_plain in E1; [|assumption|assumption].
    assert (H : interval_tests s0 s1 t0 t1 = true).
    { apply interval_tests_plain; [assumption | assumption|].
      destruct E1 as [A B]. split; assumption. }
    congruence.
  - apply interval_tests_plain in E2; [|assumption|assumption].
    assert (H : interval_tests t0 t1 s0 s1 = true).
    { apply interval_tests_plain; [assumption | assumption|].
      destruct E2 as [A B]. split; assumption. }
    congruence.
Qed.

(** X12: the box test is symmetric: for two boxes with minima below maxima,
    testing the first against the second reports an overlap exactly when
    testing the second against the first does. *)
Theorem box_overlap_symmetric (a b : box) (nx ny : Z)
        (Ha : well_formed a) (Hb : well_formed b) :
  box_overlap_with_wrap a [b] nx ny = box_overlap_with_wrap b [a] nx ny.
Proof.
  destruct Ha as [Hax Hay], Hb as [Hbx Hby].
  rewrite !box_overlap_as_filter. cbn [length seq filter nth].
  rewrite (interval_tests_sym Hax Hbx).
  destruct (interval_tests (vx (bmin b)) (vx (bmax b))
                           (vx (bmin a)) (vx (bmax a)));
    cbn [filter nth]; [|reflexivity].
  rewrite (interval_tests_sym Hay Hby). reflexivity.
Qed.

Lemma box_overlap_symmetric_witness :
  well_formed box_seam /\ well_formed box_low /\
  box_overlap_with_wrap box_seam [box_low] 8 8
  = box_overlap_with_wrap box_low [box_seam] 8 8.
Proof.
  assert (Hlow : well_formed box_low) by (split; vm_compute; discriminate).
  assert (Hseam : well_formed box_seam) by (split; vm_compute; discriminate).
  split; [exact Hseam|]. split; [exact Hlow|].
  exact (@box_overlap_symmetric box_seam box_low 8 8 Hseam Hlow).
Defined.

Lemma inject_nat_le (a b : nat) :
  (a <= b)%nat -> inject_Z (Z.of_nat a) <= inject_Z (Z.of_nat b).
Proof. intros H. rewrite <- Zle_Qle. lia. Qed.

Lemma overlap_of_range (a b : list Z) :
  NoDup a -> NoDup b ->
  0 <= overlap_of a b /\ overlap_of a b <= 1 /\
  (overlap_of a b == 1 <-> a <> [] /\ forall x, In x a <-> In x b).
Proof.
  intros Ha Hb. unfold overlap_of. cbv zeta.
  set (i := intersect1d a b).
  assert (Hi : NoDup i) by apply intersect1d_NoDup.
  assert (Hia : (length i <= length a)%nat).
  { apply NoDup_incl_length; [exact Hi|]. intros x Hx.
    apply intersect1d_In in Hx. tauto. }
  assert (Hib : (length i <= length b)%nat).
  { apply NoDup_incl_length; [exact Hi|]. intros x Hx.
    apply intersect1d_In in Hx. tauto. }
  set (m := Z.max (Z.of_nat (length a)) (Z.of_nat (length b))).
  destruct (Z.gtb_spec m 0) as [Hm | Hm].
  - assert (Hmq : 0 < inject_Z m).
    { change 0 with (inject_Z 0). rewrite <- Zlt_Qlt. lia. }
    assert (Him : inject_Z (Z.of_nat (length i)) <= inject_Z m).
    { rewrite <- Zle_Qle. unfold m. lia. }
    assert (Hi0 : 0 <= inject_Z (Z.of_nat (length i))).
    { change 0 with (inject_Z 0). rewrite <- Zle_Qle. lia. }
    split; [apply Qle_shift_div_l; [exact Hmq | lra]|].
    split; [apply Qle_shift_div_r; [exact Hmq | lra]|].
    split.
    + intros H1.
      assert (Heq : inject_Z (Z.of_nat (length i)) == inject_Z m).
      { rewrite <- (Qmult_1_l (inject_Z m)), <- H1. field. lra. }
      apply (proj1 (inject_Z_injective _ _)) in Heq.
      assert (La : length i = length a) by (unfold m in Heq; lia).
      assert (Lb : length i = length b) by (unfold m in Heq; lia).
      split.
      * assert (Hpos : (0 < length a)%nat) by (unfold m in Hm; lia).
        intros E. rewrite E in Hpos. cbn in Hpos. lia.
      * assert (Iai : incl a i).
        { apply NoDup_length_incl; [exact Hi | lia|].
          intros x Hx. apply intersect1d_In in Hx. tauto. }
        assert (Ibi : incl b i).
        { apply NoDup_length_incl; [exact Hi | lia|].
          intros x Hx. apply intersect1d_In in Hx. tauto. }
        intros x. split; intros Hx.
        -- apply Iai in Hx. apply intersect1d_In in Hx. tauto.
        -- apply Ibi in Hx. apply intersect1d_In in Hx. tauto.
    + intros [Hne Hsame].
      assert (Iai : incl a i).
      { intros x Hx. apply intersect1d_In. split; [exact Hx | apply Hsame, Hx]. }
      assert (Ibi : incl b i).
      { intros x Hx. apply intersect1d_In. split; [apply Hsame, Hx | exact Hx]. }
      assert (La : (length a <= length i)%nat) by (apply NoDup_incl_length; assumption).
      assert (Lb : (length b <= length i)%nat) by (apply NoDup_incl_length; assumption).
      assert (Heq : Z.of_nat (length i) = m) by (unfold m; lia).
      rewrite Heq. field. lra.
  - assert (La : a = []) by (destruct a; [reflexivity | unfold m in Hm; cbn in Hm; lia]).
    split; [lra|]. split; [lra|]. split.
    + intros H. discriminate H.
    + intros [Hne _]. contradiction.
Qed.

(** X13: the fractional overlap of two objects lies in [[0, 1]], and it is 1
    exactly when the first object has cells and the two objects occupy the
    same set of grid cells. *)
Theorem refine_object_overlap_range
        (fam : list Trajectories) (t_off time obj mobj master_ref : Z)
        (inter : Q)
        (H : refine_object_overlap fam t_off time obj mobj master_ref
             = Ok inter) :
  exists a b,
    extract_obj_as1Dint fam master_ref time obj = Ok a /\
    extract_obj_as1Dint fam (master_ref - (t_off + 1)) (time - (t_off + 1)) mobj
    = Ok b /\
    0 <= inter /\ inter <= 1 /\
    (inter == 1 <-> a <> [] /\ forall x, In x a <-> In x b).
Proof.
  unfold refine_object_overlap in H.
  destruct (extract_obj_as1Dint fam master_ref time obj) as [a |] eqn:Ea;
    cbn [bind] in H; [|discriminate].
  destruct (extract_obj_as1Dint fam (master_ref - (t_off + 1))
              (time - (t_off + 1)) mobj) as [b |] eqn:Eb;
    cbn [bind] in H; [|discriminate].
  injection H as <-. exists a, b. split; [reflexivity|]. split; [reflexivity|].
  apply overlap_of_range.
  - unfold extract_obj_as1Dint in Ea.
    destruct (obj_cells _ _ _ _) as [[[? ?] ?] |]; cbn [bind] in Ea;
      [|discriminate].
    injection Ea as <-. apply unique_NoDup.
  - unfold extract_obj_as1Dint in Eb.
    destruct (obj_cells _ _ _ _) as [[[? ?] ?] |]; cbn [bind] in Eb;
      [|discriminate].
    injection Eb as <-. apply unique_NoDup.
Qed.

Lemma refine_object_overlap_range_witness :
  exists inter a b,
    refine_object_overlap family_one_common_cell 0 0 0 0 1 = Ok inter /\
    extract_obj_as1Dint family_one_common_cell 1 0 0 = Ok a /\
    extract_obj_as1Dint family_one_common_cell (1 - (0 + 1)) (0 - (0 + 1)) 0
    = Ok b /\
    0 <= inter /\ inter <= 1 /\
    (inter == 1 <-> a <> [] /\ forall x, In x a <-> In x b).
Proof.
  eexists.
  assert (H : refine_object_overlap family_one_common_cell 0 0 0 0 1
              = Ok (1 # 26)) by (vm_compute; reflexivity).
  destruct (refine_object_overlap_range _ _ _ _ _ _ H) as [a [b Hab]].
  exists a, b. split; [exact H | exact Hab].
Defined.

(** X14: inside the domain the cell id is one to one: two cells with
    [0 <= x < nx] and [0 <= y < ny] that have the same id are the same
    cell.  Outside it is not: a cell one period further along x has the id
    of the cell one row further along y. *)
Theorem cell_id_one_to_one (nx ny : Z) (c c' : Z * Z * Z)
        (Hc : (0 <= fst (fst c) < nx /\ 0 <= snd (fst c) < ny)%Z)
        (Hc' : (0 <= fst (fst c') < nx /\ 0 <= snd (fst c') < ny)%Z) :
  (cell_id nx ny c = cell_id nx ny c' -> c = c') /\
  cell_id nx ny (fst (fst c) + nx, snd (fst c), snd c)%Z
  = cell_id nx ny (fst (fst c), snd (fst c) + 1, snd c)%Z.
Proof.
  destruct c as [[x y] z], c' as [[x' y'] z']. cbn [fst snd] in *.
  unfold cell_id. split; [|ring].
  intros H.
  assert (Hx : x = x').
  { assert (E : ((x + nx * (y + ny * z)) mod nx
                 = (x' + nx * (y' + ny * z')) mod nx)%Z)
      by (rewrite H; reflexivity).
    rewrite !(Z.mul_comm nx), !Z.mod_add, !Z.mod_small in E by lia. exact E. }
  subst x'.
  assert (Hyz : (y + ny * z = y' + ny * z')%Z) by nia.
  assert (Hy : y = y').
  { assert (E : ((y + ny * z) mod ny = (y' + ny * z') mod ny)%Z)
      by (rewrite Hyz; reflexivity).
    rewrite !(Z.mul_comm ny), !Z.mod_add, !Z.mod_small in E by lia. exact E. }
  subst y'.
  assert (Hz : z = z') by nia.
  subst z'. reflexivity.
Qed.

Lemma cell_id_one_to_one_witness :
  (0 <= fst (fst (3, 2, 1)%Z) < 8 /\ 0 <= snd (fst (3, 2, 1)%Z) < 8)%Z /\
  (cell_id 8 8 (3, 2, 1)%Z = cell_id 8 8 (3, 2, 1)%Z ->
   (3, 2, 1)%Z = (3, 2, 1)%Z) /\
  cell_id 8 8 (3 + 8, 2, 1)%Z = cell_id 8 8 (3, 2 + 1, 1)%Z.
Proof.
  assert (H : (0 <= fst (fst (3, 2, 1)%Z) < 8 /\
               0 <= snd (fst (3, 2, 1)%Z) < 8)%Z) by (cbn; lia).
  split; [exact H|].
  exact (@cell_id_one_to_one 8 8 (3, 2, 1)%Z (3, 2, 1)%Z H H).
Defined.

Lemma astype_int_nonneg (q : Q) : 0 <= q -> astype_int q = Qfloor q.
Proof.
  intros H. destruct q as [n d]. unfold astype_int, Qfloor. cbn [Qnum Qden].
  apply Z.quot_div_nonneg; [|lia].
  unfold Qle in H. cbn in H. lia.
Qed.

Lemma astype_int_nonpos (q : Q) : q <= 0 -> astype_int q = Qceiling q.
Proof.
  intros H. destruct q as [n d]. unfold astype_int, Qceiling, Qfloor, Qopp.
  cbn [Qnum Qden].
  assert (Hn : (n <= 0)%Z) by (unfold Qle in H; cbn in H; lia).
  rewrite <- (Z.opp_involutive n) at 1.
  rewrite Z.quot_opp_l by lia. f_equal.
  apply Z.quot_div_nonneg; lia.
Qed.


End OverlapMore.


(** ** What declustering moves *)

Section UnsplitMore.
Local Open Scope Q_scope.

Variable kmeans : nat -> positions -> list nat * positions.
Variables nx ny : Z.

Lemma periodic_image_refl (p : vec3) : periodic_image nx ny p p.
Proof.
  exists 0%Z, 0%Z. cbn [Z.mul]. change (inject_Z 0) with 0.
  repeat split; ring.
Qed.

Lemma periodic_image_trans (p q r : vec3) :
  periodic_image nx ny p q -> periodic_image nx ny q r ->
  periodic_image nx ny p r.
Proof.
  intros [a [b [Hx [Hy Hz]]]] [a' [b' [Hx' [Hy' Hz']]]].
  exists (a + a')%Z, (b + b')%Z.
  rewrite !Z.mul_add_distr_r, !inject_Z_plus.
  split; [rewrite Hx', Hx; ring|]. split; [rewrite Hy', Hy; ring|].
  congruence.
Qed.

Lemma Forall2_periodic_refl (a : positions) :
  Forall2 (periodic_image nx ny) a a.
Proof. induction a; constructor; [apply periodic_image_refl | assumption]. Qed.

Lemma Forall2_periodic_trans (a b c : positions) :
  Forall2 (periodic_image nx ny) a b -> Forall2 (periodic_image nx ny) b c ->
  Forall2 (periodic_image nx ny) a c.
Proof.
  intros H. revert c. induction H as [| x y a b Hxy Hab IH]; intros c Hc.
  - inversion Hc. constructor.
  - inversion Hc as [| y' z b' c' Hyz Hbc]; subst. constructor.
    + eapply periodic_image_trans; eassumption.
    + apply IH. assumption.
Qed.

Lemma update_where_periodic (f : vec3 -> vec3) :
  (forall p, periodic_image nx ny p (f p)) ->
  forall mask a a',
    update_where mask f a = Ok a' -> Forall2 (periodic_image nx ny) a a'.
Proof.
  intros Hf mask. induction mask as [| b m IH]; intros a a' H.
  - destruct a; [|discriminate]. injection H as <-. constructor.
  - destruct a as [| p r]; [discriminate|]. cbn [update_where] in H.
    destruct (update_where m f r) as [r' |] eqn:E; [|discriminate].
    cbn [bind] in H. injection H as <-. constructor; [|apply IH; exact E].
    destruct b; [apply Hf | apply periodic_image_refl].
Qed.

Lemma shift_x_periodic (s : bool) (p : vec3) :
  periodic_image nx ny p
    (shift_x (if s then inject_Z nx else - inject_Z nx) p).
Proof.
  exists (if s then 1 else -1)%Z, 0%Z. unfold shift_x, vx, vy, vz.
  cbn [fst snd]. change (inject_Z (0 * ny)) with 0.
  destruct s.
  - rewrite Z.mul_1_l. repeat split; ring.
  - replace (-1 * nx)%Z with (- nx)%Z by lia. rewrite inject_Z_opp.
    repeat split; ring.
Qed.

Lemma shift_y_periodic (s : bool) (p : vec3) :
  periodic_image nx ny p
    (shift_y (if s then inject_Z ny else - inject_Z ny) p).
Proof.
  exists 0%Z, (if s then 1 else -1)%Z. unfold shift_y, vx, vy, vz.
  cbn [fst snd]. change (inject_Z (0 * nx)) with 0.
  destruct s.
  - rewrite Z.mul_1_l. repeat split; ring.
  - replace (-1 * ny)%Z with (- ny)%Z by lia. rewrite inject_Z_opp.
    repeat split; ring.
Qed.

Lemma regroup_periodic (km_labels : list nat) (centres : positions)
      (main : nat) (pos pos' : positions) (i : nat) :
  regroup nx ny km_labels centres main pos i = Ok pos' ->
  Forall2 (periodic_image nx ny) pos pos'.
Proof.
  unfold regroup. intros H.
  destruct (py_nth centres (Z.of_nat i)) as [ci |]; cbn [bind] in H;
    [|discriminate].
  destruct (py_nth centres (Z.of_nat main)) as [cm |]; cbn [bind] in H;
    [|discriminate].
  cbv zeta in H.
  set (mask := map (fun l => (l =? i)%nat) km_labels) in *.
  assert (Hstep : forall (c : bool) (f : vec3 -> vec3) (a a' : positions),
             (forall p, periodic_image nx ny p (f p)) ->
             (if c then update_where mask f a else Ok a) = Ok a' ->
             Forall2 (periodic_image nx ny) a a').
  { intros c f a a' Hf Hc. destruct c.
    - eapply update_where_periodic; eassumption.
    - injection Hc as <-. apply Forall2_periodic_refl. }
  match type of H with
  | bind ?m _ = _ => destruct m as [p1 |] eqn:E1; cbn [bind] in H; [|discriminate]
  end.
  match type of H with
  | bind ?m _ = _ => destruct m as [p2 |] eqn:E2; cbn [bind] in H; [|discriminate]
  end.
  match type of H with
  | bind ?m _ = _ => destruct m as [p3 |] eqn:E3; cbn [bind] in H; [|discriminate]
  end.
  apply Hstep in E1; [|apply (shift_x_periodic true)].
  apply Hstep in E2; [|apply (shift_x_periodic false)].
  apply Hstep in E3; [|apply (shift_y_periodic true)].
  apply Hstep in H; [|apply (shift_y_periodic false)].
  eapply Forall2_periodic_trans; [exact E1|].
  eapply Forall2_periodic_trans; [exact E2|].
  eapply Forall2_periodic_trans; [exact E3 | exact H].
Qed.

Lemma fold_regroup_periodic (km_labels : list nat) (centres : positions)
      (main : nat) (clusters : list nat) :
  forall (acc : res positions) (pos0 pos' : positions),
    (forall pos, acc = Ok pos -> Forall2 (periodic_image nx ny) pos0 pos) ->
    fold_left (fun acc i => do pos <- acc;
                            regroup nx ny km_labels centres main pos i)
              clusters acc = Ok pos' ->
    Forall2 (periodic_image nx ny) pos0 pos'.
Proof.
  induction clusters as [| i rest IH]; intros acc pos0 pos' Hacc H.
  - cbn in H. apply Hacc. exact H.
  - cbn [fold_left] in H. eapply IH; [|exact H].
    intros pos Hpos. destruct acc as [p |]; cbn [bind] in Hpos; [|discriminate].
    eapply Forall2_periodic_trans; [apply Hacc; reflexivity|].
    eapply regroup_periodic. exact Hpos.
Qed.

Lemma unsplit_object_periodic (pos pos' : positions) :
  unsplit_object kmeans pos nx ny = Ok pos' ->
  Forall2 (periodic_image nx ny) pos pos'.
Proof.
  unfold unsplit_object. cbv zeta.
  destruct (kmeans (Nat.min 4 (length pos)) pos) as [km_labels centres].
  intros H.
  destruct (np_max_nat _) as [most |]; cbn [bind] in H; [|discriminate].
  destruct (py_nth _ 0) as [main |]; cbn [bind] in H; [|discriminate].
  eapply fold_regroup_periodic; [|exact H].
  intros p Hp. injection Hp as <-. apply Forall2_periodic_refl.
Qed.

Lemma scatter_select_periodic (mask : list bool) :
  forall (slice tr moved slice' : positions),
    select mask slice = Ok tr ->
    Forall2 (periodic_image nx ny) tr moved ->
    scatter mask moved slice = Ok slice' ->
    Forall2 (periodic_image nx ny) slice slice'.
Proof.
  induction mask as [| b m IH]; intros slice tr moved slice' Hsel Hmv Hsc.
  - destruct slice; [|discriminate]. cbn in Hsc. injection Hsc as <-.
    constructor.
  - destruct slice as [| p r]; [destruct b; discriminate|].
    cbn [select] in Hsel.
    destruct (select m r) as [s |] eqn:Es; [|discriminate].
    cbn [bind] in Hsel. injection Hsel as <-.
    destruct b.
    + inversion Hmv as [| p0 q s0 v' Hpq Hrest]; subst.
      cbn [scatter] in Hsc.
      destruct (scatter m v' r) as [r' |] eqn:Er; [|discriminate].
      cbn [bind] in Hsc. injection Hsc as <-.
      constructor; [exact Hpq|]. eapply IH; [exact Es | exact Hrest | exact Er].
    + cbn [scatter] in Hsc.
      destruct (scatter m moved r) as [r' |] eqn:Er; [|discriminate].
      cbn [bind] in Hsc. injection Hsc as <-.
      constructor; [apply periodic_image_refl|].
      eapply IH; [exact Es | exact Hmv | exact Er].
Qed.

Lemma unsplit_slice_periodic (labels : list Z) (iobj : Z)
      (slice slice' : positions) :
  unsplit_slice kmeans labels nx ny iobj slice = Ok slice' ->
  Forall2 (periodic_image nx ny) slice slice'.
Proof.
  unfold unsplit_slice. cbv zeta. intros H.
  destruct (select _ slice) as [tr |] eqn:Es; cbn [bind] in H; [|discriminate].
  destruct (spread (map vx tr)) as [sx |]; cbn [bind] in H; [|discriminate].
  destruct (spread (map vy tr)) as [sy |]; cbn [bind] in H; [|discriminate].
  destruct (_ || _)%bool.
  - destruct (unsplit_object kmeans tr nx ny) as [moved |] eqn:Eu;
      cbn [bind] in H; [|discriminate].
    eapply scatter_select_periodic;
      [exact Es | apply unsplit_object_periodic; exact Eu | exact H].
  - injection H as <-. apply Forall2_periodic_refl.
Qed.

Lemma mapM_Forall2 {A : Type} (R : A -> A -> Prop) (g : A -> res A) :
  (forall x y, g x = Ok y -> R x y) ->
  forall l l', mapM g l = Ok l' -> Forall2 R l l'.
Proof.
  intros Hg l. induction l as [| a r IH]; intros l' H.
  - injection H as <-. constructor.
  - cbn [mapM] in H. destruct (g a) as [b |] eqn:Ea; cbn [bind] in H;
      [|discriminate].
    destruct (mapM g r) as [bs |] eqn:Er; cbn [bind] in H; [|discriminate].
    injection H as <-. constructor; [apply Hg; exact Ea | apply IH; reflexivity].
Qed.

Lemma Forall2_Forall2_periodic_trans (a b c : list positions) :
  Forall2 (Forall2 (periodic_image nx ny)) a b ->
  Forall2 (Forall2 (periodic_image nx ny)) b c ->
  Forall2 (Forall2 (periodic_image nx ny)) a c.
Proof.
  intros H. revert c. induction H as [| x y a b Hxy Hab IH]; intros c Hc.
  - inversion Hc. constructor.
  - inversion Hc as [| y' z b' c' Hyz Hbc]; subst. constructor.
    + eapply Forall2_periodic_trans; eassumption.
    + apply IH. assumption.
Qed.

(** X16: declustering only moves points by whole periods.  Whatever the
    clustering returns, the array [unsplit_objects] gives back has the shape
    of the one it was given, and every position in it is the original one
    moved by a whole number of axis lengths along x and along y, with z
    untouched. *)
Theorem unsplit_objects_periodic_images
        (trajectory trajectory' : list positions) (labels : list Z)
        (nobjects : Z)
        (H : unsplit_objects kmeans trajectory labels nobjects nx ny
             = Ok trajectory') :
  Forall2 (Forall2 (periodic_image nx ny)) trajectory trajectory'.
Proof.
  unfold unsplit_objects in H.
  assert (Hgen : forall objs (acc : res (list positions)) tr0 tr',
             (forall tr, acc = Ok tr ->
                         Forall2 (Forall2 (periodic_image nx ny)) tr0 tr) ->
             fold_left (fun acc iobj =>
                          do tr <- acc;
                          mapM (unsplit_slice kmeans labels nx ny iobj) tr)
                       objs acc = Ok tr' ->
             Forall2 (Forall2 (periodic_image nx ny)) tr0 tr').
  { induction objs as [| iobj rest IH]; intros acc tr0 tr' Hacc Hf.
    - cbn in Hf. apply Hacc. exact Hf.
    - cbn [fold_left] in Hf. eapply IH; [|exact Hf].
      intros tr Htr. destruct acc as [t |]; cbn [bind] in Htr; [|discriminate].
      eapply Forall2_Forall2_periodic_trans; [apply Hacc; reflexivity|].
      eapply mapM_Forall2; [|exact Htr].
      intros x y Hxy. eapply unsplit_slice_periodic. exact Hxy. }
  eapply Hgen; [|exact H].
  intros tr Htr. injection Htr as <-.
  clear. induction trajectory; constructor;
    [apply Forall2_periodic_refl | assumption].
Qed.

End UnsplitMore.

Lemma unsplit_objects_periodic_images_witness :
  exists trajectory',
    unsplit_objects own_clusters traj_split [0; 0; 0]%Z 1 8 8 = Ok trajectory' /\
    Forall2 (Forall2 (periodic_image 8 8)) traj_split trajectory'.
Proof.
  eexists. split; [vm_compute; reflexivity|].
  apply (@unsplit_objects_periodic_images own_clusters 8 8 traj_split _
           [0; 0; 0]%Z 1).
  vm_compute. reflexivity.
Defined.

(** ** Object boxes *)

Section BoxesProps.
Local Open Scope Q_scope.

Lemma fold_qmin_spec (r : list Q) :
  forall a, let m := fold_left qmin r a in
            m <= a /\ Forall (fun x => m <= x) r /\ (m = a \/ In m r).
Proof.
  induction r as [| b r IH]; intros a; cbn [fold_left].
  - split; [apply Qle_refl|]. split; [constructor | left; reflexivity].
  - destruct (IH (qmin a b)) as [H1 [H2 H3]].
    assert (Hq : qmin a b <= a /\ qmin a b <= b /\ (qmin a b = a \/ qmin a b = b)).
    { unfold qmin. destruct (Qltb b a) eqn:E.
      - apply Qltb_true in E. split; [lra|]. split; [lra | right; reflexivity].
      - apply Qltb_false in E. split; [lra|]. split; [lra | left; reflexivity]. }
    destruct Hq as [Ha [Hb Hc]].
    split; [lra|]. split.
    + constructor; [lra | exact H2].
    + destruct H3 as [H3 | H3].
      * destruct Hc as [Hc | Hc]; [left | right; left]; congruence.
      * right; right; exact H3.
Qed.

Lemma fold_qmax_spec (r : list Q) :
  forall a, let m := fold_left qmax r a in
            a <= m /\ Forall (fun x => x <= m) r /\ (m = a \/ In m r).
Proof.
  induction r as [| b r IH]; intros a; cbn [fold_left].
  - split; [apply Qle_refl|]. split; [constructor | left; reflexivity].
  - destruct (IH (qmax a b)) as [H1 [H2 H3]].
    assert (Hq : a <= qmax a b /\ b <= qmax a b /\ (qmax a b = a \/ qmax a b = b)).
    { unfold qmax. destruct (Qltb a b) eqn:E.
      - apply Qltb_true in E. split; [lra|]. split; [lra | right; reflexivity].
      - apply Qltb_false in E. split; [lra|]. split; [lra | left; reflexivity]. }
    destruct Hq as [Ha [Hb Hc]].
    split; [lra|]. split.
    + constructor; [lra | exact H2].
    + destruct H3 as [H3 | H3].
      * destruct Hc as [Hc | Hc]; [left | right; left]; congruence.
      * right; right; exact H3.
Qed.

Lemma np_min_spec (l : list Q) (m : Q) :
  np_min l = Ok m -> In m l /\ Forall (fun x => m <= x) l.
Proof.
  destruct l as [| a r]; [discriminate|]. cbn [np_min]. intros H.
  injection H as <-. destruct (fold_qmin_spec r a) as [H1 [H2 H3]].
  split; [destruct H3 as [-> | H3]; [left; reflexivity | right; exact H3]|].
  constructor; assumption.
Qed.

Lemma np_max_spec (l : list Q) (m : Q) :
  np_max l = Ok m -> In m l /\ Forall (fun x => x <= m) l.
Proof.
  destruct l as [| a r]; [discriminate|]. cbn [np_max]. intros H.
  injection H as <-. destruct (fold_qmax_spec r a) as [H1 [H2 H3]].
  split; [destruct H3 as [-> | H3]; [left; reflexivity | right; exact H3]|].
  constructor; assumption.
Qed.

(** The corners of the box of a set of points: each coordinate of a corner
    is a coordinate of one of the points, and the box holds every point. *)
Lemma rows_box (a : positions) (lo hi : vec3) :
  amin_rows a = Ok lo -> amax_rows a = Ok hi ->
  Forall (in_box (lo, hi)) a /\
  (In (vx lo) (map vx a) /\ In (vy lo) (map vy a) /\ In (vz lo) (map vz a)) /\
  (In (vx hi) (map vx a) /\ In (vy hi) (map vy a) /\ In (vz hi) (map vz a)).
Proof.
  unfold amin_rows, amax_rows. intros Hlo Hhi.
  destruct (np_min (map vx a)) as [x0 |] eqn:Ex0; cbn [bind] in Hlo; [|discriminate].
  destruct (np_min (map vy a)) as [y0 |] eqn:Ey0; cbn [bind] in Hlo; [|discriminate].
  destruct (np_min (map vz a)) as [z0 |] eqn:Ez0; cbn [bind] in Hlo; [|discriminate].
  destruct (np_max (map vx a)) as [x1 |] eqn:Ex1; cbn [bind] in Hhi; [|discriminate].
  destruct (np_max (map vy a)) as [y1 |] eqn:Ey1; cbn [bind] in Hhi; [|discriminate].
  destruct (np_max (map vz a)) as [z1 |] eqn:Ez1; cbn [bind] in Hhi; [|discriminate].
  injection Hlo as <-. injection Hhi as <-.
  apply np_min_spec in Ex0, Ey0, Ez0. apply np_max_spec in Ex1, Ey1, Ez1.
  destruct Ex0 as [Ix0 Fx0], Ey0 as [Iy0 Fy0], Ez0 as [Iz0 Fz0].
  destruct Ex1 as [Ix1 Fx1], Ey1 as [Iy1 Fy1], Ez1 as [Iz1 Fz1].
  unfold vx at 1 3, vy at 1 3, vz at 1 3. cbn [fst snd].
  split; [|repeat split; assumption].
  rewrite Forall_forall in *. intros p Hp.
  unfold in_box, bmin, bmax, vx at 1 4, vy at 1 4, vz at 1 4. cbn [fst snd].
  repeat split;
    first [ apply Fx0 | apply Fy0 | apply Fz0 | apply Fx1 | apply Fy1 | apply Fz1 ];
    apply in_map; exact Hp.
Qed.

Lemma select_incl {A : Type} (mask : list bool) :
  forall (l s : list A), select mask l = Ok s -> incl s l.
Proof.
  induction mask as [| b m IH]; intros l s H.
  - destruct l; [|discriminate]. injection H as <-. intros x [].
  - destruct l as [| a r]; [discriminate|]. cbn [select] in H.
    destruct (select m r) as [s' |] eqn:E; [|discriminate].
    cbn [bind] in H. injection H as <-. specialize (IH r s' E).
    destruct b; intros x Hx.
    + destruct Hx as [<- | Hx]; [left; reflexivity | right; apply IH; exact Hx].
    + right. apply IH. exact Hx.
Qed.

Lemma where_from_length (mask : list bool) :
  forall k, length (where_from k mask) = length (filter (fun b => b) mask).
Proof.
  induction mask as [| b m IH]; intros k; [reflexivity|].
  cbn [where_from filter]. destruct b; cbn [length]; rewrite IH; reflexivity.
Qed.

Lemma select_length {A : Type} (mask : list bool) :
  forall (l s : list A), select mask l = Ok s ->
                         length s = count_true mask /\ length l = length mask.
Proof.
  unfold count_true, np_where.
  induction mask as [| b m IH]; intros l s H.
  - destruct l; [|discriminate]. injection H as <-. split; reflexivity.
  - destruct l as [| a r]; [discriminate|]. cbn [select] in H.
    destruct (select m r) as [s' |] eqn:E; [|discriminate].
    cbn [bind] in H. injection H as <-. destruct (IH r s' E) as [H1 H2].
    rewrite where_from_length in *. cbn [filter length].
    destruct b; cbn [length]; split; lia.
Qed.

Lemma count_true_le (mask : list bool) : (count_true mask <= length mask)%nat.
Proof.
  unfold count_true, np_where. rewrite where_from_length. apply filter_length_le.
Qed.

Lemma in_box_of_coords (b : box) (a : positions) (c : vec3) :
  Forall (in_box b) a ->
  In (vx c) (map vx a) -> In (vy c) (map vy a) -> In (vz c) (map vz a) ->
  in_box b c.
Proof.
  intros Hall Hx Hy Hz. rewrite Forall_forall in Hall.
  apply in_map_iff in Hx, Hy, Hz.
  destruct Hx as [px [Ex Hpx]], Hy as [py [Ey Hpy]], Hz as [pz [Ez Hpz]].
  destruct (Hall _ Hpx) as [Bx _], (Hall _ Hpy) as [_ [By _]],
           (Hall _ Hpz) as [_ [_ Bz]].
  unfold in_box. rewrite <- Ex, <- Ey, <- Ez. repeat split; tauto.
Qed.

Lemma boxes_at_summarises (sel : list bool) (in_obj_mask : list (list bool))
      (it : Z) (obj : positions) (r : obj_boxes) :
  obj <> [] -> length obj = count_true sel ->
  boxes_at sel in_obj_mask it obj = Ok r -> summarises obj r.
Proof.
  intros Hne Hlen H. unfold boxes_at in H.
  destruct (amin_rows obj) as [lo |] eqn:Elo; cbn [bind] in H; [|discriminate].
  destruct (amax_rows obj) as [hi |] eqn:Ehi; cbn [bind] in H; [|discriminate].
  destruct (py_nth in_obj_mask it) as [row |]; cbn [bind] in H; [|discriminate].
  destruct (select sel row) as [mask |] eqn:Em; cbn [bind] in H; [|discriminate].
  destruct (rows_box obj Elo Ehi) as [Hall _].
  apply select_length in Em. destruct Em as [Lm _].
  pose proof (count_true_le mask) as Hle.
  destruct (0 <? count_true mask)%nat eqn:En.
  - apply Nat.ltb_lt in En.
    destruct (select mask obj) as [pts |] eqn:Ep; cbn [bind] in H; [|discriminate].
    destruct (amin_rows pts) as [ilo |] eqn:Eilo; cbn [bind] in H; [|discriminate].
    destruct (amax_rows pts) as [ihi |] eqn:Eihi; cbn [bind] in H; [|discriminate].
    injection H as <-. unfold summarises.
    cbn [ob_num_in_obj ob_traj_box ob_in_obj_box].
    destruct (rows_box pts Eilo Eihi) as [Hin [[Lx [Ly Lz]] [Ux [Uy Uz]]]].
    pose proof (select_incl _ _ Ep) as Hincl.
    assert (Hsub : Forall (in_box (lo, hi)) pts).
    { rewrite Forall_forall in *. intros p Hp. apply Hall, Hincl, Hp. }
    split; [exact Hne|]. split; [exact Hall|]. split; [lia|].
    split; [intros; lia|]. intros _. unfold bmin, bmax. cbn [fst snd].
    split; [eapply in_box_of_coords; eassumption|].
    split; [eapply in_box_of_coords; eassumption|].
    split; eapply in_box_of_coords; eassumption.
  - apply Nat.ltb_ge in En. cbn [bind] in H. injection H as <-.
    unfold summarises. cbn [ob_num_in_obj ob_traj_box ob_in_obj_box].
    split; [exact Hne|]. split; [exact Hall|]. split; [lia|].
    split; [reflexivity | intros; lia].
Qed.

Lemma time_loop_summarises (sel : list bool) (in_obj_mask : list (list bool))
      (objs : list positions) :
  forall (it : Z) (row : list obj_boxes),
    Forall (fun obj => obj <> [] /\ length obj = count_true sel) objs ->
    time_loop sel in_obj_mask it objs = Ok row ->
    Forall2 summarises objs row.
Proof.
  induction objs as [| obj rest IH]; intros it row Hall H.
  - injection H as <-. constructor.
  - cbn [time_loop] in H.
    destruct (boxes_at sel in_obj_mask it obj) as [r |] eqn:Er; cbn [bind] in H;
      [|discriminate].
    destruct (time_loop sel in_obj_mask (it + 1) rest) as [rs |] eqn:Ers;
      cbn [bind] in H; [|discriminate].
    injection H as <-. inversion Hall as [| ? ? [Hne Hlen] Hrest]; subst.
    constructor; [eapply boxes_at_summarises; eassumption|].
    eapply IH; eassumption.
Qed.

Lemma mapM_rel {A B : Type} (R : A -> B -> Prop) (g : A -> res B) :
  (forall x y, g x = Ok y -> R x y) ->
  forall l l', mapM g l = Ok l' -> Forall2 R l l'.
Proof.
  intros Hg l. induction l as [| a r IH]; intros l' H.
  - injection H as <-. constructor.
  - cbn [mapM] in H. destruct (g a) as [b |] eqn:Ea; cbn [bind] in H;
      [|discriminate].
    destruct (mapM g r) as [bs |] eqn:Er; cbn [bind] in H; [|discriminate].
    injection H as <-. constructor; [apply Hg; exact Ea | apply IH; reflexivity].
Qed.

Lemma object_boxes_summarises (trajectory : list positions) (labels : list Z)
      (in_obj_mask : list (list bool)) (iobj : Z) (row : list obj_boxes) :
  object_boxes trajectory labels in_obj_mask iobj = Ok row ->
  Forall2 (fun slice r =>
             exists obj,
               select (map (fun l => (l =? iobj)%Z) labels) slice = Ok obj /\
               summarises obj r)
          trajectory row.
Proof.
  intros Hrow. unfold object_boxes in Hrow. cbv zeta in Hrow.
  set (sel := map (fun l => (l =? iobj)%Z) labels) in *.
  destruct (mapM (select sel) trajectory) as [objs |] eqn:Eo; cbn [bind] in Hrow;
    [|discriminate].
  destruct (count_true sel =? 0)%nat eqn:Ec; [discriminate|].
  apply Nat.eqb_neq in Ec.
  pose proof (mapM_rel (fun slice obj => select sel slice = Ok obj) (select sel)
                       (fun x y Hxy => Hxy) trajectory Eo) as Hsel.
  assert (Hobjs : Forall (fun obj => obj <> [] /\ length obj = count_true sel) objs).
  { clear Hrow Eo. induction Hsel as [| slice obj tr os Hso _ IH]; constructor.
    - apply select_length in Hso. destruct Hso as [L _].
      split; [|exact L]. intros ->. cbn in L. lia.
    - exact IH. }
  pose proof (time_loop_summarises _ _ _ Hobjs Hrow) as Hsum.
  clear Hrow Eo Hobjs. revert row Hsum.
  induction Hsel as [| slice obj tr os Hso _ IH]; intros row Hsum.
  - inversion Hsum. constructor.
  - inversion Hsum as [| ? r ? rs Hr Hrs]; subst. constructor.
    + exists obj. split; assumption.
    + apply IH. exact Hrs.
Qed.

(** X17: when [compute_traj_boxes] returns, every object has points and,
    at every time, its box holds all its points; the count of in-object
    points is at most the number of points; the in-object box is the zero
    box when the count is zero and otherwise has its minima below its
    maxima and lies inside the box of all points. *)
Theorem compute_traj_boxes_sound
        (trajectory : list positions) (labels : list Z) (nobjects : Z)
        (in_obj_mask : list (list bool)) (out : list (list obj_boxes))
        (H : compute_traj_boxes trajectory labels nobjects in_obj_mask = Ok out) :
  Forall2 (fun iobj row =>
             Forall2 (fun slice r =>
                        exists obj,
                          select (map (fun l => (l =? iobj)%Z) labels) slice
                          = Ok obj /\ summarises obj r)
                     trajectory row)
          (zrange nobjects) out.
Proof.
  unfold compute_traj_boxes in H. eapply mapM_rel; [|exact H].
  intros iobj row Hrow. apply object_boxes_summarises with in_obj_mask.
  exact Hrow.
Qed.

Lemma compute_traj_boxes_sound_witness :
  exists out,
    compute_traj_boxes traj_unified labels_unified 2
      [[true; false; true; true]; [false; false; false; true]] = Ok out /\
    Forall2 (fun iobj row =>
               Forall2 (fun slice r =>
                          exists obj,
                            select (map (fun l => (l =? iobj)%Z) labels_unified)
                                   slice
                            = Ok obj /\ summarises obj r)
                       traj_unified row)
            (zrange 2) out.
Proof.
  eexists. split; [vm_compute; reflexivity|].
  apply (@compute_traj_boxes_sound traj_unified labels_unified 2
           [[true; false; true; true]; [false; false; false; true]]).
  vm_compute. reflexivity.
Defined.

(** X18: with at least one time, an object number below [nobjects] that no
    point carries makes [compute_traj_boxes] end in an error (the minimum
    over no points raises [ValueError], unless an earlier object has failed
    already): no boxes are returned for the other objects either. *)
Theorem compute_traj_boxes_empty_object
        (trajectory : list positions) (labels : list Z) (nobjects iobj : Z)
        (in_obj_mask : list (list bool))
        (Htimes : trajectory <> [])
        (Hi : (0 <= iobj < nobjects)%Z)
        (Hempty : ~ In iobj labels) :
  exists e,
    compute_traj_boxes trajectory labels nobjects in_obj_mask = Raise e.
Proof.
  unfold compute_traj_boxes.
  assert (Hin : In iobj (zrange nobjects)).
  { unfold zrange. apply in_map_iff. exists (Z.to_nat iobj).
    split; [lia | apply in_seq; lia]. }
  assert (Hobj : exists e, object_boxes trajectory labels in_obj_mask iobj
                           = Raise e).
  { unfold object_boxes. cbv zeta.
    destruct (mapM (select (map (fun l => (l =? iobj)%Z) labels)) trajectory)
      as [objs | e]; cbn [bind];
      [| exists e; reflexivity].
    assert (Hc : count_true (map (fun l => (l =? iobj)%Z) labels) = 0%nat).
    { unfold count_true, np_where. rewrite where_from_length.
      induction labels as [| l ls IHl]; [reflexivity|].
      cbn [map filter]. destruct (Z.eqb_spec l iobj) as [-> | Hne].
      - exfalso. apply Hempty. left. reflexivity.
      - apply IHl. intros Hl. apply Hempty. right. exact Hl. }
    rewrite Hc. exists ValueError. reflexivity. }
  induction (zrange nobjects) as [| o os IH]; [contradiction|].
  cbn [mapM]. destruct Hin as [-> | Hin].
  - destruct Hobj as [e ->]. exists e. reflexivity.
  - destruct (object_boxes trajectory labels in_obj_mask o) as [r | e];
      cbn [bind]; [| exists e; reflexivity].
    destruct (IH Hin) as [e ->]. exists e. reflexivity.
Qed.

Lemma compute_traj_boxes_empty_object_witness :
  exists e,
    compute_traj_boxes traj_unified labels_unified 3
      [[true; false; true; true]; [false; false; false; true]] = Raise e.
Proof.
  apply (@compute_traj_boxes_empty_object traj_unified labels_unified 3 2).
  - discriminate.
  - lia.
  - cbn. intuition discriminate.
Defined.

End BoxesProps.

(** ** Reference points *)

Section CloudRefProps.
Local Open Scope Z_scope.

Variable ndimage_label : Z * Z * Z -> list bool -> list Z * Z.

(** With the labels [ndimage.label] promises, the four passes of
    [label_3D_cyclic] return, and their result is a renaming of these
    labels that leaves no object without a cell. *)
Lemma label_3D_cyclic_run (shape : Z * Z * Z) (mask : list bool) :
  labelled (fst (ndimage_label shape mask)) (snd (ndimage_label shape mask)) ->
  exists labs nobjects g,
    label_3D_cyclic ndimage_label shape mask = Ok (Some (labs, nobjects)) /\
    labs = map g (fst (ndimage_label shape mask)) /\
    contiguous labs nobjects /\
    forall l, In l (fst (ndimage_label shape mask)) -> (g l = -1 <-> l = 0).
Proof.
  intros Hlabel. pose proof Hlabel as [Hrange _].
  unfold label_3D_cyclic. destruct shape as [[nx ny] nz].
  destruct (ndimage_label (nx, ny, nz) mask) as [labels K].
  cbn [fst snd] in *. apply labelled_minus_one in Hlabel.
  destruct (find_objects_at_edge_contiguous true 0 nx ny nz Hlabel)
    as [l1 [n1 [E1 H1]]].
  destruct (find_objects_at_edge_contiguous false 0 nx ny nz H1)
    as [l2 [n2 [E2 H2]]].
  destruct (find_objects_at_edge_contiguous true 1 ny ny nz H2)
    as [l3 [n3 [E3 H3]]].
  destruct (find_objects_at_edge_contiguous false 1 ny ny nz H3)
    as [l4 [n4 [E4 H4]]].
  assert (Hpass : forall mf ax n la na lb nb,
             find_objects_at_edge mf ax n ny nz la na = Ok (Some (lb, nb)) ->
             exists g, lb = map g la /\ relabelling g na nb).
  { intros mf ax n la na lb nb H. unfold find_objects_at_edge in H.
    apply edge_loop_relabelling in H; [exact H | lia]. }
  destruct (Hpass _ _ _ _ _ _ _ E1) as [g1 [-> G1]].
  destruct (Hpass _ _ _ _ _ _ _ E2) as [g2 [-> G2]].
  destruct (Hpass _ _ _ _ _ _ _ E3) as [g3 [-> G3]].
  destruct (Hpass _ _ _ _ _ _ _ E4) as [g4 [-> G4]].
  rewrite E1. unfold and_then at 3. cbn [bind]. rewrite E2.
  unfold and_then at 2. cbn [bind]. rewrite E3.
  unfold and_then. cbn [bind]. rewrite E4.
  pose proof (relabelling_compose
                (relabelling_compose (relabelling_compose G1 G2) G3) G4)
    as [Hle G].
  eexists. exists n4, (fun l => g4 (g3 (g2 (g1 (l - 1))))).
  split; [reflexivity|]. split; [rewrite !map_map; reflexivity|].
  split; [exact H4|]. intros l Hl.
  rewrite Forall_forall in Hrange. specialize (Hrange l Hl).
  destruct (G (l - 1)) as [_ [U _]]; [lia|]. rewrite U. lia.
Qed.

Lemma select_filter {A : Type} (f : A -> bool) (mask : list bool) (a : list A) :
  Forall2 (fun b x => b = f x) mask a -> select mask a = Ok (filter f a).
Proof.
  induction 1 as [| b x m r Hb _ IH]; [reflexivity|].
  cbn [select filter]. rewrite IH. cbn [bind]. rewrite <- Hb. reflexivity.
Qed.

(** X19: when [ndimage.label] labels exactly the cells the threshold
    selects, [trajectory_cloud_ref] returns one label per starting point,
    every label is an object number below [nobjects], and every object
    number below [nobjects] is the label of at least one starting point. *)
Theorem trajectory_cloud_ref_objects (shape : Z * Z * Z) (data : list Q)
        (thresh : Q)
        (Hlabel : labelled
                    (fst (ndimage_label shape (cloud_select data thresh)))
                    (snd (ndimage_label shape (cloud_select data thresh))))
        (Hmask : Forall2 (fun b l => b = true <-> l <> 0)
                         (cloud_select data thresh)
                         (fst (ndimage_label shape (cloud_select data thresh)))) :
  exists r,
    trajectory_cloud_ref ndimage_label shape data thresh = Ok (Some r) /\
    length (cr_labels r) = length (cr_traj_pos r) /\
    Forall (fun l => 0 <= l < cr_nobjects r) (cr_labels r) /\
    forall iobj, 0 <= iobj < cr_nobjects r -> In iobj (cr_labels r).
Proof.
  destruct (label_3D_cyclic_run shape (cloud_select data thresh) Hlabel)
    as [labs [nobjects [g [Erun [Hlabs [[Hrange Hocc] Hg]]]]]].
  unfold trajectory_cloud_ref. destruct shape as [[nx ny] nz].
  rewrite Erun. cbn [bind].
  set (mask := cloud_select data thresh) in *.
  set (labels0 := fst (ndimage_label (nx, ny, nz) mask)) in *.
  assert (Hsel : Forall2 (fun b x => b = negb (x =? -1)) mask labs).
  { subst labs. clear Erun Hrange Hocc Hlabel.
    induction Hmask as [| b l m ls Hb _ IH]; [constructor|].
    cbn [map]. constructor.
    - specialize (Hg l (or_introl eq_refl)).
      destruct (Z.eqb_spec (g l) (-1)) as [E | E]; cbn [negb].
      + apply Hg in E. destruct b; [|reflexivity].
        exfalso. apply (proj1 Hb eq_refl). exact E.
      + apply Hb. intros E0. apply E. apply Hg. exact E0.
    - apply IH. intros l' Hl'. apply Hg. right. exact Hl'. }
  pose proof (select_filter (fun x => negb (x =? -1)) Hsel) as Es.
  rewrite Es. cbn [bind]. eexists. split; [reflexivity|].
  cbn [cr_labels cr_traj_pos cr_nobjects].
  split; [|split].
  - rewrite !length_map. apply select_length in Es. destruct Es as [Es _].
    rewrite Es. reflexivity.
  - apply Forall_forall. intros l Hl. apply filter_In in Hl.
    destruct Hl as [Hl Hne]. rewrite Forall_forall in Hrange.
    specialize (Hrange l Hl).
    destruct (Z.eqb_spec l (-1)); [discriminate | lia].
  - intros iobj Hi. apply filter_In. split; [apply Hocc; exact Hi|].
    destruct (Z.eqb_spec iobj (-1)); [lia | reflexivity].
Qed.

Lemma unravel_cell (nx ny nz o : Z) :
  0 < ny -> 0 < nz -> 0 <= o < nx * ny * nz ->
  let c := unravel ny nz o in
  0 <= coord 0 c < nx /\ 0 <= coord 1 c < ny /\ 0 <= coord 2 c < nz /\
  coord 2 c + nz * (coord 1 c + ny * coord 0 c) = o.
Proof.
  intros Hny Hnz Ho. unfold unravel. cbn [coord fst snd].
  pose proof (Z.mod_pos_bound o nz Hnz) as Hz.
  pose proof (Z.mod_pos_bound (o / nz) ny Hny) as Hy.
  pose proof (Z.div_mod o nz ltac:(lia)) as Dz.
  pose proof (Z.div_mod (o / nz) ny ltac:(lia)) as Dy.
  assert (Hdd : o / (ny * nz) = o / nz / ny).
  { rewrite (Z.mul_comm ny nz). symmetry. apply Z.div_div; lia. }
  rewrite Hdd.
  assert (Hx0 : 0 <= o / nz / ny).
  { apply Z.div_pos; [apply Z.div_pos; lia | lia]. }
  assert (Hx1 : o / nz / ny < nx).
  { apply Z.div_lt_upper_bound; [lia|].
    apply Z.div_lt_upper_bound; [lia|]. nia. }
  repeat split; lia.
Qed.

Lemma unravel_ravel (nx ny nz x y z : Z) :
  0 <= x < nx -> 0 <= y < ny -> 0 <= z < nz ->
  unravel ny nz (z + nz * (y + ny * x)) = (x, y, z) /\
  0 <= z + nz * (y + ny * x) < nx * ny * nz.
Proof.
  intros Hx Hy Hz. unfold unravel.
  assert (E1 : (z + nz * (y + ny * x)) / nz = y + ny * x).
  { replace (z + nz * (y + ny * x)) with (z + (y + ny * x) * nz) by lia.
    rewrite Z.div_add by lia. rewrite Z.div_small by lia. lia. }
  assert (E2 : (z + nz * (y + ny * x)) mod nz = z).
  { replace (z + nz * (y + ny * x)) with (z + (y + ny * x) * nz) by lia.
    rewrite Z.mod_add by lia. apply Z.mod_small. lia. }
  assert (E3 : (y + ny * x) mod ny = y).
  { replace (y + ny * x) with (y + x * ny) by lia.
    rewrite Z.mod_add by lia. apply Z.mod_small. lia. }
  assert (E4 : (z + nz * (y + ny * x)) / (ny * nz) = x).
  { rewrite (Z.mul_comm ny nz), <- Z.div_div by lia. rewrite E1.
    replace (y + ny * x) with (y + x * ny) by lia.
    rewrite Z.div_add by lia. rewrite Z.div_small by lia. lia. }
  rewrite E4, E1, E2, E3. split; [reflexivity|].
  assert (B1 : 0 <= y + ny * x <= nx * ny - 1) by nia.
  assert (B2 : nz * (y + ny * x) <= nz * (nx * ny - 1)).
  { apply Z.mul_le_mono_nonneg_l; lia. }
  split; [nia|]. replace (nx * ny * nz) with (nz * (nx * ny - 1) + nz) by ring.
  lia.
Qed.

(** The cells [np.where] finds on the thresholded buffer of a field that
    fills its shape are the nodes of the grid at which the field is at least
    the threshold. *)
Lemma cloud_nodes (nx ny nz : Z) (data : list Q) (thresh : Q) :
  0 < ny -> 0 < nz -> Z.of_nat (length data) = nx * ny * nz ->
  forall p,
    In p (map node (map (fun o => unravel ny nz (Z.of_nat o))
                        (np_where (cloud_select data thresh)))) <->
    exists x y z,
      p = (inject_Z x, inject_Z y, inject_Z z) /\
      0 <= x < nx /\ 0 <= y < ny /\ 0 <= z < nz /\
      (thresh <= nth (Z.to_nat (z + nz * (y + ny * x))) data 0%Q)%Q.
Proof.
  intros Hny Hnz Hlen p.
  unfold cloud_select. rewrite (np_where_seq _ data 0%Q), map_map.
  rewrite in_map_iff. split.
  - intros [o [<- Ho]]. apply filter_In in Ho. destruct Ho as [Ho Hq].
    apply in_seq in Ho. apply Qgeb_true in Hq.
    destruct (@unravel_cell nx ny nz (Z.of_nat o)) as [Hx [Hy [Hz Hr]]];
      [lia | lia | lia |].
    exists (coord 0 (unravel ny nz (Z.of_nat o))),
           (coord 1 (unravel ny nz (Z.of_nat o))),
           (coord 2 (unravel ny nz (Z.of_nat o))).
    split; [reflexivity|]. repeat split; try lia.
    rewrite Hr, Nat2Z.id. exact Hq.
  - intros [x [y [z [-> [Hx [Hy [Hz Hq]]]]]]].
    destruct (@unravel_ravel nx ny nz x y z Hx Hy Hz) as [Eu Hr].
    exists (Z.to_nat (z + nz * (y + ny * x))). split.
    + rewrite Z2Nat.id by lia. rewrite Eu. reflexivity.
    + apply filter_In. split; [apply in_seq; lia|].
      apply Qgeb_true. exact Hq.
Qed.

(** X20: on a field whose buffer fills its shape, the starting points
    [trajectory_cloud_ref] returns are exactly the grid nodes at which the
    field is at least the threshold: each is a node inside the domain with
    integral coordinates, and no such node is left out. *)
Theorem trajectory_cloud_ref_positions (nx ny nz : Z) (data : list Q)
        (thresh : Q) (r : cloud_ref)
        (Hny : 0 < ny) (Hnz : 0 < nz)
        (Hlen : Z.of_nat (length data) = nx * ny * nz)
        (H : trajectory_cloud_ref ndimage_label (nx, ny, nz) data thresh
             = Ok (Some r)) :
  forall p,
    In p (cr_traj_pos r) <->
    exists x y z,
      p = (inject_Z x, inject_Z y, inject_Z z) /\
      0 <= x < nx /\ 0 <= y < ny /\ 0 <= z < nz /\
      (thresh <= nth (Z.to_nat (z + nz * (y + ny * x))) data 0%Q)%Q.
Proof.
  unfold trajectory_cloud_ref in H.
  destruct (label_3D_cyclic _ _ _) as [[[labs n] |] | e]; cbn [bind] in H;
    try discriminate.
  destruct (select _ labs) as [ls |]; cbn [bind] in H; [|discriminate].
  injection H as <-. cbn [cr_traj_pos]. apply cloud_nodes; assumption.
Qed.

Lemma nth_concat {A : Type} (d : A) (n : nat) (ls : list (list A)) :
  Forall (fun l => length l = n) ls ->
  forall i j, (i < length ls)%nat -> (j < n)%nat ->
              nth (j + n * i) (concat ls) d = nth j (nth i ls []) d.
Proof.
  induction 1 as [| l ls Hl _ IH]; intros i j Hi Hj; [cbn in Hi; lia|].
  cbn [concat]. destruct i as [| i].
  - rewrite Nat.mul_0_r, Nat.add_0_r. cbn [nth]. apply app_nth1. lia.
  - cbn [nth length] in *. rewrite app_nth2 by nia.
    replace (j + n * S i - length l)%nat with (j + n * i)%nat by nia.
    apply IH; lia.
Qed.

Lemma length_concat_uniform {A : Type} (n : nat) (ls : list (list A)) :
  Forall (fun l => length l = n) ls -> length (concat ls) = (n * length ls)%nat.
Proof.
  induction 1 as [| l ls Hl _ IH]; [cbn; lia|].
  cbn [concat length]. rewrite length_app, IH, Hl. lia.
Qed.

Lemma ravel_planes (f : field) (nx ny nz : nat) :
  has_shape f nx ny nz ->
  Forall (fun l => length l = (nz * ny)%nat) (map (@concat Q) f).
Proof.
  intros [_ Hall]. apply Forall_forall. intros l Hl.
  apply in_map_iff in Hl. destruct Hl as [plane [<- Hp]].
  rewrite Forall_forall in Hall. destruct (Hall _ Hp) as [Hlp Hcols].
  rewrite (length_concat_uniform Hcols), Hlp. reflexivity.
Qed.

Lemma length_ravel (f : field) (nx ny nz : nat) :
  has_shape f nx ny nz -> length (ravel f) = (nx * ny * nz)%nat.
Proof.
  intros Hsh. unfold ravel.
  rewrite (length_concat_uniform (ravel_planes Hsh)), length_map.
  destruct Hsh as [-> _]. lia.
Qed.

(** Cell [(i, j, k)] of a field is at offset [k + nz * (j + ny * i)] of
    its buffer. *)
Lemma get3_ravel (f : field) (nx ny nz i j k : nat) (v : Q) :
  has_shape f nx ny nz ->
  (i < nx)%nat -> (j < ny)%nat -> (k < nz)%nat ->
  get3 f (Z.of_nat i) (Z.of_nat j) (Z.of_nat k) = Ok v ->
  nth (k + nz * (j + ny * i)) (ravel f) 0%Q = v.
Proof.
  intros Hsh Hi Hj Hk Hget. pose proof (ravel_planes Hsh) as Hpl.
  destruct Hsh as [Hlen Hall]. unfold ravel.
  replace (k + nz * (j + ny * i))%nat with ((k + nz * j) + (nz * ny) * i)%nat
    by lia.
  rewrite (nth_concat 0%Q Hpl) by (rewrite ?length_map; nia).
  unfold get3 in Hget.
  destruct (@py_nth_in_range _ f (Z.of_nat i)) as [plane [Ep Np]]; [lia|].
  rewrite Ep in Hget. cbn [bind] in Hget. rewrite Nat2Z.id in Np.
  pose proof (nth_error_In _ _ Np) as Hp. rewrite Forall_forall in Hall.
  destruct (Hall _ Hp) as [Hlp Hcols].
  destruct (@py_nth_in_range _ plane (Z.of_nat j)) as [col [Ec Nc]]; [lia|].
  rewrite Ec in Hget. cbn [bind] in Hget. rewrite Nat2Z.id in Nc.
  pose proof (nth_error_In _ _ Nc) as Hc. rewrite Forall_forall in Hcols.
  pose proof (Hcols _ Hc) as Hlc.
  destruct (@py_nth_in_range _ col (Z.of_nat k)) as [v' [Ev Nv]]; [lia|].
  rewrite Ev in Hget. injection Hget as <-. rewrite Nat2Z.id in Nv.
  rewrite (nth_indep _ [] (concat [])) by (rewrite length_map; lia).
  rewrite (map_nth (@concat Q) f []).
  rewrite (nth_error_nth _ _ _ Np).
  rewrite (@nth_concat Q 0%Q nz plane) by (try apply Forall_forall; auto; lia).
  rewrite (nth_error_nth _ _ _ Nc).
  apply nth_error_nth. exact Nv.
Qed.

(** X21: every trajectory starts in cloud.  On a field with at least two
    levels, interpolating the field to the starting points that
    [trajectory_cloud_ref] returns succeeds, and the threshold test of
    [cloud_select] on the interpolated values selects every one of them. *)
Theorem start_points_in_cloud (f : field) (nx ny nz : nat) (thresh : Q)
        (r : cloud_ref)
        (Hshape : has_shape f nx ny nz) (Hnz : (2 <= nz)%nat)
        (H : trajectory_cloud_ref ndimage_label
               (Z.of_nat nx, Z.of_nat ny, Z.of_nat nz) (ravel f) thresh
             = Ok (Some r)) :
  exists vals,
    mapM (tri_lin_interp1 (arange nx) (arange ny) (arange nz) f)
         (cr_traj_pos r) = Ok vals /\
    cloud_select vals thresh = map (fun _ => true) (cr_traj_pos r).
Proof.
  unfold trajectory_cloud_ref in H.
  destruct (label_3D_cyclic _ _ _) as [[[labs n] |] | e]; cbn [bind] in H;
    try discriminate.
  destruct (select _ labs) as [ls |]; cbn [bind] in H; [|discriminate].
  injection H as <-. cbn [cr_traj_pos].
  set (pos := map node _).
  assert (Hpos : forall p, In p pos ->
             exists w, tri_lin_interp1 (arange nx) (arange ny) (arange nz) f p
                       = Ok w /\ Qgeb w thresh = true).
  { intros p Hp. subst pos.
    destruct (Nat.eq_dec ny 0) as [-> | Hny].
    { exfalso.
      assert (E : ravel f = []).
      { apply length_zero_iff_nil. rewrite (length_ravel Hshape). lia. }
      rewrite E in Hp. cbn in Hp. exact Hp. }
    apply (@cloud_nodes (Z.of_nat nx) (Z.of_nat ny) (Z.of_nat nz)) in Hp;
      [| lia | lia | rewrite (length_ravel Hshape); lia].
    destruct Hp as [x [y [z [-> [Hx [Hy [Hz Hq]]]]]]].
    destruct (@tri_lin_interp1_node f nx ny nz (Z.to_nat x) (Z.to_nat y)
                (Z.to_nat z) Hshape Hnz) as [w [v [Hw [Hv Hwv]]]]; try lia.
    pose proof (@get3_ravel f nx ny nz (Z.to_nat x) (Z.to_nat y) (Z.to_nat z)
                  v Hshape ltac:(lia) ltac:(lia) ltac:(lia) Hv) as Hr.
    rewrite !Z2Nat.id in Hw by lia.
    exists w. split; [exact Hw|]. apply Qgeb_true. rewrite Hwv, <- Hr.
    replace (Z.to_nat z + nz * (Z.to_nat y + ny * Z.to_nat x))%nat
      with (Z.to_nat (z + Z.of_nat nz * (y + Z.of_nat ny * x))) by nia.
    exact Hq. }
  clearbody pos. induction pos as [| p ps IH].
  - exists []. split; reflexivity.
  - destruct (Hpos p (or_introl eq_refl)) as [w [Hw Hq]].
    destruct IH as [vals [Hv Hs]]; [intros q Hq'; apply Hpos; right; exact Hq'|].
    exists (w :: vals). rewrite mapM_cons, Hw. cbn [bind]. rewrite Hv.
    cbn [bind]. split; [reflexivity|].
    unfold cloud_select in *. cbn [map]. rewrite Hq, Hs. reflexivity.
Qed.

End CloudRefProps.

Lemma trajectory_cloud_ref_objects_witness :
  exists r,
    trajectory_cloud_ref label_4x3 (4, 3, 1)%Z qcl_4x3 (1 # 100000) = Ok (Some r) /\
    length (cr_labels r) = length (cr_traj_pos r) /\
    Forall (fun l => (0 <= l < cr_nobjects r)%Z) (cr_labels r) /\
    forall iobj, (0 <= iobj < cr_nobjects r)%Z -> In iobj (cr_labels r).
Proof.
  apply (@trajectory_cloud_ref_objects label_4x3 (4, 3, 1)%Z qcl_4x3 (1 # 100000)).
  - split.
    + vm_compute. repeat constructor; discriminate.
    + intros l Hl. cbn in Hl. cbn.
      assert (E : (l = 1 \/ l = 2 \/ l = 3)%Z) by lia.
      destruct E as [-> | [-> | ->]]; tauto.
  - vm_compute.
    repeat (constructor; [split; [discriminate || (intros; reflexivity)
                                 | discriminate || (intros; reflexivity)
                                   || (intros E; exfalso; apply E; reflexivity)]|]).
    constructor.
Defined.

Lemma trajectory_cloud_ref_positions_witness :
  In (inject_Z 3, inject_Z 2, inject_Z 0) [(0, 0, 0); (3, 0, 0); (3, 2, 0)]%Q <->
  exists x y z,
    (inject_Z 3, inject_Z 2, inject_Z 0) = (inject_Z x, inject_Z y, inject_Z z) /\
    (0 <= x < 4)%Z /\ (0 <= y < 3)%Z /\ (0 <= z < 1)%Z /\
    ((1 # 100000) <= nth (Z.to_nat (z + 1 * (y + 3 * x))%Z) qcl_4x3 0%Q)%Q.
Proof.
  apply (@trajectory_cloud_ref_positions label_4x3 4 3 1 qcl_4x3 (1 # 100000)
           {| cr_traj_pos := [(0, 0, 0); (3, 0, 0); (3, 2, 0)]%Q;
              cr_labels := [0; 0; 1]%Z;
              cr_nobjects := 2 |}).
  - lia.
  - lia.
  - reflexivity.
  - vm_compute. reflexivity.
Defined.

Lemma start_points_in_cloud_witness :
  exists vals,
    mapM (tri_lin_interp1 (arange 2) (arange 2) (arange 3) field_2x2x3)
         [(0, 1, 0); (0, 1, 1); (0, 1, 2); (1, 0, 0); (1, 0, 1); (1, 0, 2);
          (1, 1, 0); (1, 1, 1); (1, 1, 2)]%Q = Ok vals /\
    cloud_select vals 4
    = map (fun _ => true)
          [(0, 1, 0); (0, 1, 1); (0, 1, 2); (1, 0, 0); (1, 0, 1); (1, 0, 2);
           (1, 1, 0); (1, 1, 1); (1, 1, 2)]%Q.
Proof.
  apply (@start_points_in_cloud label_2x2x3 field_2x2x3 2 2 3 4
           {| cr_traj_pos :=
                [(0, 1, 0); (0, 1, 1); (0, 1, 2); (1, 0, 0); (1, 0, 1);
                 (1, 0, 2); (1, 1, 0); (1, 1, 1); (1, 1, 2)]%Q;
              cr_labels := [0; 0; 0; 0; 0; 0; 0; 0; 0]%Z;
              cr_nobjects := 1 |}).
  - unfold has_shape, field_2x2x3. cbn [length].
    repeat first [split | constructor | reflexivity].
  - lia.
  - vm_compute. reflexivity.
Defined.

(** ** Construction of a trajectory set *)

Section InitProps.
Local Open Scope Q_scope.

Variable kmeans : nat -> positions -> list nat * positions.
Variables nx ny : Z.

Lemma unsplit_fold_periodic (labels : list Z) (objs : list Z) :
  forall (acc : res (list positions)) (tr0 tr' : list positions),
    (forall tr, acc = Ok tr ->
                Forall2 (Forall2 (periodic_image nx ny)) tr0 tr) ->
    fold_left (fun acc iobj =>
                 do tr <- acc;
                 mapM (unsplit_slice kmeans labels nx ny iobj) tr)
              objs acc = Ok tr' ->
    Forall2 (Forall2 (periodic_image nx ny)) tr0 tr'.
Proof.
  induction objs as [| iobj rest IH]; intros acc tr0 tr' Hacc Hf.
  - cbn in Hf. apply Hacc. exact Hf.
  - cbn [fold_left] in Hf. eapply IH; [|exact Hf].
    intros tr Htr. destruct acc as [t |]; cbn [bind] in Htr; [|discriminate].
    eapply Forall2_Forall2_periodic_trans; [apply Hacc; reflexivity|].
    eapply mapM_Forall2; [|exact Htr].
    intros x y Hxy. eapply unsplit_slice_periodic. exact Hxy.
Qed.

Lemma select_Forall2 {A : Type} (R : A -> A -> Prop) (mask : list bool) :
  forall (a b sb : list A),
    Forall2 R a b -> select mask b = Ok sb ->
    exists sa, select mask a = Ok sa /\ Forall2 R sa sb.
Proof.
  induction mask as [| m ms IH]; intros a b sb Hab Hb.
  - destruct b; [|discriminate]. inversion Hab; subst. injection Hb as <-.
    exists []. split; [reflexivity | constructor].
  - destruct b as [| y b]; [discriminate|].
    inversion Hab as [| x y' a' b' Hxy Hab']; subst.
    cbn [select] in Hb.
    destruct (select ms b) as [sb' |] eqn:Eb; cbn [bind] in Hb; [|discriminate].
    injection Hb as <-. destruct (IH a' b sb' Hab' Eb) as [sa [Ea Hs]].
    cbn [select]. rewrite Ea. cbn [bind]. eexists. split; [reflexivity|].
    destruct m; [constructor; assumption | exact Hs].
Qed.


End InitProps.


(** ** Objects that peak at the reference time *)

Section MaxAtRefProps.
Local Open Scope Q_scope.

Lemma nth_nil_0 (j : nat) : nth j (@nil Q) 0 = 0.
Proof. destruct j; reflexivity. Qed.

Lemma map2_length {A B C : Type} (f : A -> B -> C) (a : list A) (b : list B) :
  length a = length b -> length (map2 f a b) = length a.
Proof.
  intros H. unfold map2. rewrite length_map, length_combine, <- H.
  apply Nat.min_id.
Qed.

Lemma map2_nth {A B C : Type} (f : A -> B -> C) (a : list A) (b : list B)
      (j : nat) (da : A) (db : B) (dc : C) :
  length a = length b -> (j < length a)%nat ->
  nth j (map2 f a b) dc = f (nth j a da) (nth j b db).
Proof.
  intros H Hj. unfold map2.
  rewrite (nth_indep _ dc (f da db))
    by (rewrite length_map, length_combine, <- H, Nat.min_id; exact Hj).
  rewrite (map_nth (fun p => f (fst p) (snd p)) (combine a b) (da, db)).
  rewrite combine_nth by exact H. reflexivity.
Qed.

(** The fold of the rows with the elementwise maximum is, in each column,
    the maximum of the column. *)
Lemma fold_map2_qmax (n : nat) (rest : list (list Q)) :
  forall row,
    length row = n -> Forall (fun r => length r = n) rest ->
    length (fold_left (map2 qmax) rest row) = n /\
    forall j, (j < n)%nat ->
              nth j (fold_left (map2 qmax) rest row) 0
              = fold_left qmax (map (fun r => nth j r 0) rest) (nth j row 0).
Proof.
  induction rest as [| r rest IH]; intros row Hrow Hall.
  - split; [exact Hrow | reflexivity].
  - apply Forall_cons_iff in Hall. destruct Hall as [Hr Hrest].
    cbn [fold_left map].
    assert (Hl : length (map2 qmax row r) = n).
    { rewrite map2_length; congruence. }
    destruct (IH (map2 qmax row r) Hl Hrest) as [H1 H2].
    split; [exact H1|]. intros j Hj. rewrite (H2 j Hj).
    rewrite (map2_nth qmax row r 0 0 0) by congruence. reflexivity.
Qed.

Lemma np_where_In {A : Type} (f : A -> bool) (l : list A) (d : A) (j : nat) :
  In j (np_where (map f l)) <-> (j < length l)%nat /\ f (nth j l d) = true.
Proof.
  rewrite (np_where_seq f l d), filter_In, in_seq. intuition lia.
Qed.

Lemma where2_In (m : list (list bool)) (t j : nat) :
  In (t, j) (where2 m) <-> (t < length m)%nat /\ In j (np_where (nth t m [])).
Proof.
  unfold where2.
  assert (H : forall k,
             In (t, j)
                (concat (map (fun ir => map (fun j => (fst ir, j))
                                            (np_where (snd ir)))
                             (combine (seq k (length m)) m))) <->
             (k <= t < k + length m)%nat /\
             In j (np_where (nth (t - k) m []))).
  { induction m as [| row m IH]; intros k.
    - cbn. intuition lia.
    - cbn [length seq combine map concat fst snd]. rewrite in_app_iff, IH.
      rewrite in_map_iff. split.
      + intros [[j' [E Hj']] | [Hk Hj']].
        * injection E as <- <-. rewrite Nat.sub_diag. cbn [nth].
          split; [lia | exact Hj'].
        * replace (t - k)%nat with (S (t - S k)) by lia. cbn [nth].
          split; [lia | exact Hj'].
      + intros [Hk Hj']. destruct (Nat.eq_dec t k) as [-> | Hne].
        * left. rewrite Nat.sub_diag in Hj'. cbn [nth] in Hj'.
          exists j. split; [reflexivity | exact Hj'].
        * right. replace (t - k)%nat with (S (t - S k)) in Hj' by lia.
          cbn [nth] in Hj'. split; [lia | exact Hj']. }
  rewrite (H 0%nat), Nat.sub_0_r. intuition lia.
Qed.

(** X23: [max_at_ref] holds exactly the objects whose mean in-object
    scalar is, at the reference time, as large as at any time of the set
    (ties with other times included). *)
Theorem max_at_ref_peaks (objvar_mean : list (list Q)) (n : nat) (ref : Z)
        (Hrect : Forall (fun row => length row = n) objvar_mean)
        (Href : (0 <= ref < Z.of_nat (length objvar_mean))%Z) :
  exists l,
    max_at_ref objvar_mean ref = Ok l /\
    forall j,
      In j l <->
      (j < n)%nat /\
      forall t, (t < length objvar_mean)%nat ->
                entry objvar_mean t j <= entry objvar_mean (Z.to_nat ref) j.
Proof.
  unfold max_at_ref. destruct objvar_mean as [| row0 rest] eqn:Ea;
    [cbn in Href; lia|].
  rewrite <- Ea in *. assert (Hmx : amax_axis0 objvar_mean
                                    = Ok (fold_left (map2 qmax) rest row0)).
  { rewrite Ea. reflexivity. }
  rewrite Hmx. cbn [bind]. set (mx := fold_left (map2 qmax) rest row0).
  eexists. split; [reflexivity|]. intros j.
  assert (Hrow0 : length row0 = n /\ Forall (fun r => length r = n) rest).
  { rewrite Ea in Hrect. apply Forall_cons_iff in Hrect. exact Hrect. }
  destruct Hrow0 as [Hrow0 Hrest].
  destruct (@fold_map2_qmax n rest row0 Hrow0 Hrest) as [Hlen Hcol]. fold mx in Hlen, Hcol.
  set (tr := Z.to_nat ref).
  assert (Htr : (tr < length objvar_mean)%nat) by (subst tr; lia).
  set (row := nth tr objvar_mean []).
  assert (Hrow : length row = n).
  { rewrite Forall_forall in Hrect. apply Hrect. apply nth_In. exact Htr. }
  (* the column and its maximum *)
  assert (Hmax : forall j, (j < n)%nat ->
             (forall t, (t < length objvar_mean)%nat ->
                        entry objvar_mean t j <= nth j mx 0) /\
             exists t, (t < length objvar_mean)%nat /\
                       nth j mx 0 = entry objvar_mean t j).
  { intros j0 Hj0.
    assert (Hnp : np_max (map (fun r => nth j0 r 0) objvar_mean)
                  = Ok (nth j0 mx 0)).
    { rewrite Ea. cbn [map np_max]. rewrite (Hcol j0 Hj0). reflexivity. }
    apply np_max_spec in Hnp. destruct Hnp as [Hin Hall]. split.
    - intros t Ht. rewrite Forall_forall in Hall. apply Hall.
      unfold entry. apply in_map_iff. exists (nth t objvar_mean []).
      split; [reflexivity | apply nth_In; exact Ht].
    - apply in_map_iff in Hin. destruct Hin as [r [Hr Hin]].
      apply (In_nth _ _ []) in Hin. destruct Hin as [t [Ht Et]].
      exists t. split; [exact Ht|]. unfold entry. rewrite Et. symmetry. exact Hr. }
  rewrite in_map_iff. split.
  - intros [[t j'] [Ej Hp]]. cbn [snd] in Ej. subst j'.
    apply filter_In in Hp. destruct Hp as [Hw Ht]. cbn [fst] in Ht.
    apply Z.eqb_eq in Ht. apply where2_In in Hw. destruct Hw as [_ Hw].
    assert (Et : t = tr) by (subst tr; lia). subst t.
    rewrite (nth_indep _ [] (map2 Qeq_bool [] mx)) in Hw
      by (rewrite length_map; exact Htr).
    rewrite (map_nth (fun row => map2 Qeq_bool row mx) objvar_mean []) in Hw.
    fold row in Hw. unfold map2 in Hw.
    apply (np_where_In _ _ (0, 0)) in Hw. destruct Hw as [Hj Hq].
    rewrite length_combine, Hrow, Hlen, Nat.min_id in Hj.
    rewrite combine_nth in Hq by congruence. cbn [fst snd] in Hq.
    apply Qeq_bool_iff in Hq. split; [exact Hj|]. intros t' Ht'.
    destruct (Hmax j Hj) as [Hle _]. specialize (Hle t' Ht').
    unfold entry at 2. fold row. rewrite Hq. exact Hle.
  - intros [Hj Hpeak]. exists (tr, j). split; [reflexivity|].
    apply filter_In. split.
    + apply where2_In. rewrite length_map. split; [exact Htr|].
      rewrite (nth_indep _ [] (map2 Qeq_bool [] mx))
        by (rewrite length_map; exact Htr).
      rewrite (map_nth (fun row => map2 Qeq_bool row mx) objvar_mean []).
      fold row. unfold map2. apply (np_where_In _ _ (0, 0)).
      rewrite length_combine, Hrow, Hlen, Nat.min_id. split; [exact Hj|].
      rewrite combine_nth by congruence. cbn [fst snd].
      apply Qeq_bool_iff. destruct (Hmax j Hj) as [Hle [t [Ht Et]]].
      apply Qle_antisym.
      * specialize (Hle tr Htr). unfold entry in Hle. fold row in Hle. exact Hle.
      * rewrite Et. apply Hpeak. exact Ht.
    + cbn [fst]. apply Z.eqb_eq. subst tr. lia.
Qed.

Lemma max_at_ref_peaks_witness :
  exists l,
    max_at_ref objvar_3x3 1 = Ok l /\
    forall j,
      In j l <->
      (j < 3)%nat /\
      forall t, (t < length objvar_3x3)%nat ->
                entry objvar_3x3 t j <= entry objvar_3x3 (Z.to_nat 1) j.
Proof.
  apply (@max_at_ref_peaks objvar_3x3 3 1).
  - repeat constructor.
  - cbn. lia.
Defined.

End MaxAtRefProps.

(** ** Classified matches *)

Section SummaryProps.
Local Open Scope Z_scope.

Variable t_max_at_ref : Trajectories -> list nat.

Lemma py_round_percent (x : Q) :
  (0 <= x)%Q -> (x <= 100)%Q -> 0 <= py_round x <= 100.
Proof.
  intros H0 H1. unfold py_round. cbv zeta.
  pose proof (Qfloor_le x) as Hf. pose proof (Qlt_floor x) as Hc.
  assert (Hf0 : 0 <= Qfloor x).
  { change 0 with (Qfloor 0). apply Qfloor_resp_le. exact H0. }
  assert (Hf1 : Qfloor x <= 100).
  { change 100 with (Qfloor 100). apply Qfloor_resp_le. exact H1. }
  destruct (Z.eq_dec (Qfloor x) 100) as [E | E].
  - assert (Hd : Qltb (x - inject_Z (Qfloor x)) (1 # 2) = true).
    { unfold Qltb. destruct (Qlt_le_dec _ _) as [_ | Hge]; [reflexivity|].
      exfalso. rewrite E in Hge. change (inject_Z 100) with 100%Q in Hge. lra. }
    rewrite Hd. lia.
  - destruct (Qltb _ _); [lia|]. destruct (Qltb _ _); [lia|].
    destruct (Z.even _); lia.
Qed.

Lemma refine_object_overlap_unit (fam : list Trajectories)
      (t_off time obj mobj master_ref : Z) (inter : Q) :
  refine_object_overlap fam t_off time obj mobj master_ref = Ok inter ->
  (0 <= inter)%Q /\ (inter <= 1)%Q.
Proof.
  unfold refine_object_overlap. intros H.
  destruct (extract_obj_as1Dint fam master_ref time obj) as [a |] eqn:Ea;
    cbn [bind] in H; [|discriminate].
  destruct (extract_obj_as1Dint fam (master_ref - (t_off + 1))
              (time - (t_off + 1)) mobj) as [b |] eqn:Eb;
    cbn [bind] in H; [|discriminate].
  injection H as <-.
  assert (Hu : forall m t o l, extract_obj_as1Dint fam m t o = Ok l -> NoDup l).
  { intros m t o l Hl. unfold extract_obj_as1Dint in Hl.
    destruct (obj_cells _ _ _ _) as [[[? ?] ?] |]; cbn [bind] in Hl;
      [|discriminate].
    injection Hl as <-. apply unique_NoDup. }
  destruct (overlap_of_range (Hu _ _ _ _ Ea) (Hu _ _ _ _ Eb)) as [H0 [H1 _]].
  split; assumption.
Qed.

Lemma map_fst_combine_eq {A B : Type} (a : list A) (b : list B) :
  length b = length a -> map fst (combine a b) = a.
Proof.
  revert b. induction a as [| x a IH]; intros b Hl; [reflexivity|].
  destruct b as [| y b]; [discriminate|]. cbn [combine map fst].
  rewrite IH by (cbn in Hl; lia). reflexivity.
Qed.

Lemma combine_snoc {A B : Type} (a : list A) (b : list B) (x : A) (y : B) :
  length b = length a ->
  combine (a ++ [x]) (b ++ [y]) = combine a b ++ [(x, y)].
Proof.
  revert b. induction a as [| a0 a IH]; intros b Hl.
  - destruct b; [reflexivity | discriminate].
  - destruct b as [| b0 b]; [discriminate|]. cbn [app combine].
    rewrite IH by (cbn in Hl; lia). reflexivity.
Qed.

Lemma existsb_eqb_In (x : nat) (l : list nat) :
  existsb (Nat.eqb x) l = true <-> In x l.
Proof.
  rewrite existsb_exists. split.
  - intros [y [Hy E]]. apply Nat.eqb_eq in E. subst. exact Hy.
  - intros H. exists x. split; [exact H | apply Nat.eqb_refl].
Qed.

Lemma foldM_invariant {A B : Type} (Inv : B -> Prop) (f : B -> A -> res B)
      (l : list A) :
  (forall b a b', In a l -> Inv b -> f b a = Ok b' -> Inv b') ->
  forall b b', Inv b -> foldM f l b = Ok b' -> Inv b'.
Proof.
  induction l as [| a r IH]; intros Hf b b' Hb H.
  - injection H as <-. exact Hb.
  - cbn [foldM] in H. destruct (f b a) as [b1 |] eqn:E1; cbn [bind] in H;
      [|discriminate].
    apply (IH (fun b0 a0 b0' Ha0 => Hf b0 a0 b0' (or_intror Ha0)) b1 b');
      [|exact H].
    apply (Hf b a b1 (or_introl eq_refl) Hb E1).
Qed.

Lemma summary_obj_sound (fam : list Trajectories)
      (master_ref t_off it_back iobj : Z) (overlap_thresh : Q)
      (match_traj : Trajectories) (s s' : summary_lists) (obj : nat) :
  0 <= it_back ->
  py_nth fam (master_ref - (t_off + 1)) = Ok match_traj ->
  lists_sound t_max_at_ref fam master_ref t_off iobj overlap_thresh s ->
  summary_obj t_max_at_ref fam master_ref t_off it_back iobj overlap_thresh
              match_traj s obj = Ok s' ->
  lists_sound t_max_at_ref fam master_ref t_off iobj overlap_thresh s'.
Proof.
  intros Hit Hm Hs H. unfold summary_obj in H.
  destruct (existsb (Nat.eqb obj) (objlist s)) eqn:Ein.
  - injection H as <-. exact Hs.
  - destruct (refine_object_overlap _ _ _ _ _ _) as [inter |] eqn:Er;
      cbn [bind] in H; [|discriminate].
    destruct (true_match inter overlap_thresh) eqn:Et.
    + injection H as <-. destruct Hs as [L1 [L2 [Hnd Hall]]].
      unfold lists_sound, zip3. cbn [objlist otypelist interlist].
      rewrite !length_app. cbn [length].
      split; [lia|]. split; [lia|]. split.
      * apply NoDup_app; [exact Hnd | repeat constructor; intros [] |].
        intros x Hx [<- | []].
        apply existsb_eqb_In in Hx. congruence.
      * rewrite combine_snoc by exact L1.
        rewrite combine_snoc by (rewrite length_combine, L1, Nat.min_id; exact L2).
        apply Forall_app. split; [exact Hall|]. constructor; [|constructor].
        unfold entry_sound. exists it_back, inter, match_traj.
        split; [exact Hit|]. split; [exact Hm|]. split; [exact Er|].
        unfold true_match, Qgtb in Et. apply Qltb_true in Et.
        split; [exact Et|]. split; [reflexivity|].
        destruct (refine_object_overlap_unit _ _ _ _ _ _ Er) as [H0 H1].
        split; [apply py_round_percent; lra|].
        destruct (existsb (Nat.eqb obj) (t_max_at_ref match_traj)) eqn:Emax.
        -- apply existsb_eqb_In in Emax. tauto.
        -- split; [discriminate|]. intros Hin.
           apply existsb_eqb_In in Hin. congruence.
    + injection H as <-. exact Hs.
Qed.

Lemma In_zrange (n k : Z) : In k (zrange n) -> 0 <= k < n.
Proof.
  unfold zrange. intros H. apply in_map_iff in H.
  destruct H as [j [<- Hj]]. apply in_seq in Hj. lia.
Qed.

Lemma summary_time_sound (fam : list Trajectories) (master_ref t_off : Z)
      (matching_objects : list (list (list nat))) (i iobj : Z)
      (overlap_thresh : Q) (s s' : summary_lists) (it_back : Z) :
  0 <= it_back ->
  lists_sound t_max_at_ref fam master_ref t_off iobj overlap_thresh s ->
  summary_time t_max_at_ref fam master_ref t_off matching_objects i iobj
               overlap_thresh s it_back = Ok s' ->
  lists_sound t_max_at_ref fam master_ref t_off iobj overlap_thresh s'.
Proof.
  intros Hit Hs H. unfold summary_time in H.
  destruct (py_nth fam (master_ref - (t_off + 1))) as [match_traj |] eqn:Em;
    cbn [bind] in H; [|discriminate].
  cbv zeta in H. destruct (_ && _).
  - destruct (py_nth matching_objects it_back) as [at_time |];
      cbn [bind] in H; [|discriminate].
    destruct (py_nth at_time i) as [objs |]; cbn [bind] in H; [|discriminate].
    eapply foldM_invariant; [| exact Hs | exact H].
    intros b a b' _ Hb Hf. eapply summary_obj_sound; eassumption.
  - injection H as <-. exact Hs.
Qed.

Lemma enumerate_nth_error {A : Type} (l : list A) (k : nat) (p : Z * A) :
  nth_error (enumerate l) k = Some p ->
  fst p = Z.of_nat k /\ nth_error l k = Some (snd p).
Proof.
  unfold enumerate, zrange. rewrite Nat2Z.id.
  assert (H : forall s k,
             nth_error (combine (map Z.of_nat (seq s (length l))) l) k = Some p ->
             fst p = Z.of_nat (s + k) /\ nth_error l k = Some (snd p)).
  { induction l as [| a l IH]; intros s j Hj.
    - destruct j; discriminate.
    - destruct j as [| j]; cbn in Hj.
      + injection Hj as <-. cbn. split; [f_equal; lia | reflexivity].
      + apply IH in Hj. destruct Hj as [H1 H2].
        split; [rewrite H1; f_equal; lia | exact H2]. }
  intros Hk. apply (H 0%nat) in Hk. exact Hk.
Qed.

Lemma Forall2_nth_error_r {A B : Type} (R : A -> B -> Prop)
      (l : list A) (l' : list B) :
  Forall2 R l l' ->
  forall k y, nth_error l' k = Some y ->
              exists x, nth_error l k = Some x /\ R x y.
Proof.
  induction 1 as [| x y l l' Hxy _ IH]; intros k z Hk.
  - destruct k; discriminate.
  - destruct k as [| k]; cbn in Hk.
    + injection Hk as <-. exists x. split; [reflexivity | exact Hxy].
    + destruct (IH k z Hk) as [x' [Hx' Hr]]. exists x'. split; assumption.
Qed.


End SummaryProps.

